(** * Verification of the playchess rules engine and search drivers

    Shallow embedding of [js/chess-pieces.js], [js/chess-logic.js],
    [js/chess-ai.js] and [js/chess-ai-enhanced.js].

    Conventions of the embedding.
    - Coordinates are JavaScript numbers that only ever hold integers; they
      are modelled as [Z] (the code computes [row + direction] and compares
      against [0] and [8], so negative intermediate values matter).
    - A [ChessPiece] object is a record; its [symbol] field is a function of
      [color] and [type] and is not stored.
    - [board] is the 8x8 array of arrays, a [list (list (option ChessPiece))];
      [null] is [None].
    - Methods that mutate [this] are written in state-passing style and return
      the new game next to their result. *)

From stdpp Require Import list strings pretty gmap.
From Stdlib Require Import ZArith Lia QArith Qround.

Local Open Scope Z_scope.

(** ** chess-pieces.js *)

Inductive PieceType := PAWN | KNIGHT | BISHOP | ROOK | QUEEN | KING.
Inductive Color := WHITE | BLACK.

Definition PieceType_eqb (a b : PieceType) : bool :=
  match a, b with
  | PAWN, PAWN | KNIGHT, KNIGHT | BISHOP, BISHOP
  | ROOK, ROOK | QUEEN, QUEEN | KING, KING => true
  | _, _ => false
  end.

Definition Color_eqb (a b : Color) : bool :=
  match a, b with
  | WHITE, WHITE | BLACK, BLACK => true
  | _, _ => false
  end.

Definition opposite (c : Color) : Color :=
  match c with WHITE => BLACK | BLACK => WHITE end.

Record ChessPiece := mkPiece {
  type : PieceType;
  color : Color;
  row : Z;
  col : Z;
  hasMoved : bool
}.

Abbreviation Square := (Z * Z)%type.
Abbreviation Board := (list (list (option ChessPiece))).

(** [new ChessPiece(type, color, row, col)] *)
Definition newPiece (t : PieceType) (c : Color) (r k : Z) : ChessPiece :=
  mkPiece t c r k false.

(** [piece.moveTo(newRow, newCol)] *)
Definition moveTo (p : ChessPiece) (newRow newCol : Z) : ChessPiece :=
  mkPiece (type p) (color p) newRow newCol true.

(** [piece.clone()] *)
Definition clonePiece (p : ChessPiece) : ChessPiece :=
  mkPiece (type p) (color p) (row p) (col p) (hasMoved p).

Definition setPos (p : ChessPiece) (r k : Z) : ChessPiece :=
  mkPiece (type p) (color p) r k (hasMoved p).

Definition setType (p : ChessPiece) (t : PieceType) : ChessPiece :=
  mkPiece t (color p) (row p) (col p) (hasMoved p).

(** [board[r][c]].  Every raw read in the source is guarded by a range test
    on the indices (or uses indices of a square that holds a piece), so the
    value chosen here for indices outside the arrays is never observed on a
    well-formed game. *)
Definition cell (b : Board) (r c : Z) : option ChessPiece :=
  if (0 <=? r) && (0 <=? c) then
    match b !! Z.to_nat r with
    | Some rw => match rw !! Z.to_nat c with
                 | Some x => x
                 | None => None
                 end
    | None => None
    end
  else None.

(** [board[r][c] = v] *)
Definition setCell (b : Board) (r c : Z) (v : option ChessPiece) : Board :=
  if (0 <=? r) && (0 <=? c) then
    alter (fun rw => <[Z.to_nat c := v]> rw) (Z.to_nat r) b
  else b.

Definition onBoard (r c : Z) : bool :=
  (0 <=? r) && (r <? 8) && (0 <=? c) && (c <? 8).

Definition isNone {A} (o : option A) : bool :=
  match o with None => true | Some _ => false end.

Definition sqEqb (a b : Square) : bool :=
  (fst a =? fst b) && (snd a =? snd b).

(** [moves.some(([r, c]) => r === row && c === col)] *)
Definition hasSquare (moves : list Square) (r c : Z) : bool :=
  existsb (fun m => (fst m =? r) && (snd m =? c)) moves.

Record GameContext := mkContext {
  ctxEnPassantTarget : option Square;
  canCastleKingSide : bool;
  canCastleQueenSide : bool
}.

Definition direction (c : Color) : Z :=
  match c with WHITE => -1 | BLACK => 1 end.
Definition startRow (c : Color) : Z :=
  match c with WHITE => 6 | BLACK => 1 end.
Definition enPassantRow (c : Color) : Z :=
  match c with WHITE => 3 | BLACK => 4 end.

Definition getPawnMoves (p : ChessPiece) (b : Board)
    (enPassantTarget : option Square) : list Square :=
  let dir := direction (color p) in
  let newRow := row p + dir in
  let forward :=
    if (0 <=? newRow) && (newRow <? 8) && isNone (cell b newRow (col p)) then
      (newRow, col p) ::
      (if (row p =? startRow (color p)) && isNone (cell b (newRow + dir) (col p))
       then [(newRow + dir, col p)] else [])
    else [] in
  let diagonal (colOffset : Z) : list Square :=
    let newCol := col p + colOffset in
    if (0 <=? newCol) && (newCol <? 8) && (0 <=? newRow) && (newRow <? 8) then
      match cell b newRow newCol with
      | Some targetPiece =>
          if negb (Color_eqb (color targetPiece) (color p))
          then [(newRow, newCol)] else []
      | None => []
      end
    else [] in
  let enPassant :=
    match enPassantTarget with
    | Some (targetRow, targetCol) =>
        if (row p =? enPassantRow (color p))
           && (Z.abs (targetCol - col p) =? 1)
           && (targetRow =? row p + dir)
        then [(targetRow, targetCol)] else []
    | None => []
    end in
  forward ++ diagonal (-1) ++ diagonal 1 ++ enPassant.

(** The body of [for (let i = 1; i < 8; i++)] in the sliding generators;
    [n] counts the iterations that remain. *)
Fixpoint slide (b : Board) (p : ChessPiece) (rowDir colDir : Z)
    (n : nat) (i : Z) : list Square :=
  match n with
  | O => []
  | S n' =>
      let newRow := row p + rowDir * i in
      let newCol := col p + colDir * i in
      if negb (onBoard newRow newCol) then []
      else match cell b newRow newCol with
           | None => (newRow, newCol) :: slide b p rowDir colDir n' (i + 1)
           | Some targetPiece =>
               if negb (Color_eqb (color targetPiece) (color p))
               then [(newRow, newCol)] else []
           end
  end.

Definition slideAll (b : Board) (p : ChessPiece) (dirs : list (Z * Z))
    : list Square :=
  flat_map (fun d => slide b p (fst d) (snd d) 7 1) dirs.

Definition getRookMoves (p : ChessPiece) (b : Board) : list Square :=
  slideAll b p [(0, 1); (0, -1); (1, 0); (-1, 0)].

Definition getBishopMoves (p : ChessPiece) (b : Board) : list Square :=
  slideAll b p [(1, 1); (1, -1); (-1, 1); (-1, -1)].

Definition getQueenMoves (p : ChessPiece) (b : Board) : list Square :=
  getRookMoves p b ++ getBishopMoves p b.

(** Shared loop of the knight and king generators: one step to each offset,
    kept when it lands on the board on an empty or enemy square. *)
Definition stepMoves (b : Board) (p : ChessPiece) (offsets : list (Z * Z))
    : list Square :=
  flat_map (fun o =>
    let newRow := row p + fst o in
    let newCol := col p + snd o in
    if onBoard newRow newCol then
      match cell b newRow newCol with
      | None => [(newRow, newCol)]
      | Some targetPiece =>
          if negb (Color_eqb (color targetPiece) (color p))
          then [(newRow, newCol)] else []
      end
    else []) offsets.

Definition getKnightMoves (p : ChessPiece) (b : Board) : list Square :=
  stepMoves b p [(-2, -1); (-2, 1); (-1, -2); (-1, 2);
                 (1, -2); (1, 2); (2, -1); (2, 1)].

Definition getKingMoves (p : ChessPiece) (b : Board)
    (castleKingSide castleQueenSide : bool) : list Square :=
  stepMoves b p [(-1, -1); (-1, 0); (-1, 1);
                 (0, -1);           (0, 1);
                 (1, -1);  (1, 0);  (1, 1)]
  ++ (if negb (hasMoved p) && (col p =? 4) then
        (if castleKingSide then [(row p, 6)] else [])
        ++ (if castleQueenSide then [(row p, 2)] else [])
      else []).

Definition getPossibleMoves (p : ChessPiece) (b : Board) (ctx : GameContext)
    : list Square :=
  match type p with
  | PAWN => getPawnMoves p b (ctxEnPassantTarget ctx)
  | ROOK => getRookMoves p b
  | KNIGHT => getKnightMoves p b
  | BISHOP => getBishopMoves p b
  | QUEEN => getQueenMoves p b
  | KING => getKingMoves p b (canCastleKingSide ctx) (canCastleQueenSide ctx)
  end.

(** [getPossibleMoves(board)] with the default [gameContext = {}]. *)
Definition emptyContext : GameContext := mkContext None false false.

(** ** chess-logic.js *)

Inductive GameState := playing | check | checkmate | stalemate | draw.

(** A JavaScript object with the two keys [WHITE] and [BLACK]. *)
Record PerColor (A : Type) := mkPerColor { ofWhite : A; ofBlack : A }.
Arguments mkPerColor {A} _ _.
Arguments ofWhite {A} _.
Arguments ofBlack {A} _.

Definition pcGet {A} (m : PerColor A) (c : Color) : A :=
  match c with WHITE => ofWhite m | BLACK => ofBlack m end.

Definition pcSet {A} (m : PerColor A) (c : Color) (v : A) : PerColor A :=
  match c with
  | WHITE => mkPerColor v (ofBlack m)
  | BLACK => mkPerColor (ofWhite m) v
  end.

Record MoveRecord := mkMoveRecord {
  notation : string;
  moveFrom : Square;
  moveTo_ : Square;
  movePiece : PieceType;
  captured : option PieceType
}.

Record LastMove := mkLastMove {
  lastFrom : Square;
  lastTo : Square;
  lastPiece : PieceType
}.

Record ChessGame := mkGame {
  board : Board;
  currentPlayer : Color;
  gameState : GameState;
  moveHistory : list MoveRecord;
  capturedPieces : PerColor (list ChessPiece);
  lastMove : option LastMove;
  kingPositions : PerColor Square;
  enPassantTarget : option Square;
  halfMoveClock : Z;
  fullMoveNumber : Z
}.

Definition withBoard (g : ChessGame) (b : Board) : ChessGame :=
  mkGame b (currentPlayer g) (gameState g) (moveHistory g) (capturedPieces g)
         (lastMove g) (kingPositions g) (enPassantTarget g)
         (halfMoveClock g) (fullMoveNumber g).

Definition withKingPositions (g : ChessGame) (k : PerColor Square) : ChessGame :=
  mkGame (board g) (currentPlayer g) (gameState g) (moveHistory g)
         (capturedPieces g) (lastMove g) k (enPassantTarget g)
         (halfMoveClock g) (fullMoveNumber g).

Definition withGameState (g : ChessGame) (s : GameState) : ChessGame :=
  mkGame (board g) (currentPlayer g) s (moveHistory g) (capturedPieces g)
         (lastMove g) (kingPositions g) (enPassantTarget g)
         (halfMoveClock g) (fullMoveNumber g).

Definition withCurrentPlayer (g : ChessGame) (c : Color) : ChessGame :=
  mkGame (board g) c (gameState g) (moveHistory g) (capturedPieces g)
         (lastMove g) (kingPositions g) (enPassantTarget g)
         (halfMoveClock g) (fullMoveNumber g).

(** The row-major double loop [for row in 0..7, for col in 0..7]. *)
Definition allSquares : list Square :=
  flat_map (fun r => map (fun c => (r, c)) (seqZ 0 8)) (seqZ 0 8).

Definition emptyBoard : Board := replicate 8 (replicate 8 None).

Definition pieceOrder : list PieceType :=
  [ROOK; KNIGHT; BISHOP; QUEEN; KING; BISHOP; KNIGHT; ROOK].

Definition initializeBoard : Board :=
  let pawns :=
    fold_left (fun b c =>
      setCell (setCell b 1 c (Some (newPiece PAWN BLACK 1 c)))
              6 c (Some (newPiece PAWN WHITE 6 c)))
      (seqZ 0 8) emptyBoard in
  fold_left (fun b c =>
      match pieceOrder !! Z.to_nat c with
      | Some t =>
          setCell (setCell b 0 c (Some (newPiece t BLACK 0 c)))
                  7 c (Some (newPiece t WHITE 7 c))
      | None => b
      end)
    (seqZ 0 8) pawns.

(** [new ChessGame()] *)
Definition newGame : ChessGame :=
  mkGame initializeBoard WHITE playing [] (mkPerColor [] []) None
         (mkPerColor (7, 4) (0, 4)) None 0 1.

(** [reset()] assigns every field afresh. *)
Definition reset (g : ChessGame) : ChessGame := newGame.

Definition getPieceAt (g : ChessGame) (r c : Z) : option ChessPiece :=
  if (r <? 0) || (r >=? 8) || (c <? 0) || (c >=? 8) then None
  else cell (board g) r c.

Definition isSquareUnderAttack (g : ChessGame) (r c : Z)
    (attackingColor : Color) : bool :=
  existsb (fun sq =>
    match cell (board g) (fst sq) (snd sq) with
    | Some piece =>
        Color_eqb (color piece) attackingColor
        && hasSquare
             (getPossibleMoves piece (board g)
                (mkContext (enPassantTarget g) false false)) r c
    | None => false
    end) allSquares.

Definition isInCheck (g : ChessGame) (c : Color) : bool :=
  let kingPos := pcGet (kingPositions g) c in
  isSquareUnderAttack g (fst kingPos) (snd kingPos) (opposite c).

Definition isSome {A} (o : option A) : bool := negb (isNone o).

Definition canCastle (g : ChessGame) (c : Color) (kingSide : bool) : bool :=
  let r := match c with WHITE => 7 | BLACK => 0 end in
  let king := getPieceAt g r 4 in
  let rook := getPieceAt g r (if kingSide then 7 else 0) in
  match king, rook with
  | Some k, Some rk =>
      if negb (PieceType_eqb (type k) KING) || hasMoved k then false
      else if negb (PieceType_eqb (type rk) ROOK) || hasMoved rk then false
      else if isInCheck g c then false
      else if (if kingSide
               then isSome (getPieceAt g r 5) || isSome (getPieceAt g r 6)
               else isSome (getPieceAt g r 1) || isSome (getPieceAt g r 2)
                    || isSome (getPieceAt g r 3)) then false
      else if (if kingSide
               then isSquareUnderAttack g r 5 (opposite c)
                    || isSquareUnderAttack g r 6 (opposite c)
               else isSquareUnderAttack g r 3 (opposite c)
                    || isSquareUnderAttack g r 2 (opposite c)) then false
      else true
  | _, _ => false
  end.

(** The [gameContext] literal built by [getLegalMoves] and [isLegalMove]. *)
Definition contextOf (g : ChessGame) (piece : ChessPiece) : GameContext :=
  mkContext (enPassantTarget g)
    (if PieceType_eqb (type piece) KING
     then canCastle g (color piece) true else false)
    (if PieceType_eqb (type piece) KING
     then canCastle g (color piece) false else false).

Definition isEnPassantSquare (g : ChessGame) (toRow toCol : Z) : bool :=
  match enPassantTarget g with
  | Some ep => (toRow =? fst ep) && (toCol =? snd ep)
  | None => false
  end.

Definition captureRowOf (c : Color) (toRow : Z) : Z :=
  match c with WHITE => toRow + 1 | BLACK => toRow - 1 end.

(** [isLegalMove]: the move is played on [this], the check test is run, and
    every write is then undone.  The game returned is the one left behind. *)
Definition isLegalMove (g : ChessGame) (fromRow fromCol toRow toCol : Z)
    : bool * ChessGame :=
  match getPieceAt g fromRow fromCol with
  | None => (false, g)
  | Some piece =>
    if negb (Color_eqb (color piece) (currentPlayer g)) then (false, g) else
    let possibleMoves := getPossibleMoves piece (board g) (contextOf g piece) in
    if negb (hasSquare possibleMoves toRow toCol) then (false, g) else
    if PieceType_eqb (type piece) KING && (Z.abs (toCol - fromCol) =? 2)
    then (true, g) else
    (* save *)
    let originalKingPositions := kingPositions g in
    let capturedPiece := cell (board g) toRow toCol in
    let originalRow := row piece in
    let originalCol := col piece in
    (* en passant capture *)
    let ep := PieceType_eqb (type piece) PAWN && isEnPassantSquare g toRow toCol in
    let captureRow := captureRowOf (color piece) toRow in
    let enPassantCapturedPawn :=
      if ep then cell (board g) captureRow toCol else None in
    let b1 := if ep then setCell (board g) captureRow toCol None else board g in
    (* make the move temporarily *)
    let moved := setPos piece toRow toCol in
    let b2 := setCell b1 toRow toCol (Some moved) in
    let b3 := setCell b2 fromRow fromCol None in
    let k1 := if PieceType_eqb (type piece) KING
              then pcSet originalKingPositions (color piece) (toRow, toCol)
              else originalKingPositions in
    let g1 := withKingPositions (withBoard g b3) k1 in
    let isLegal := negb (isInCheck g1 (color piece)) in
    (* restore *)
    let back := setPos moved originalRow originalCol in
    let b4 := setCell b3 fromRow fromCol (Some back) in
    let b5 := setCell b4 toRow toCol capturedPiece in
    let b6 := match enPassantCapturedPawn with
              | Some pawn => setCell b5 captureRow toCol (Some pawn)
              | None => b5
              end in
    (isLegal, withKingPositions (withBoard g1 b6) originalKingPositions)
  end.

(** The loop of [getLegalMoves] over [possibleMoves]. *)
Fixpoint filterLegal (g : ChessGame) (fromRow fromCol : Z)
    (moves : list Square) : list Square * ChessGame :=
  match moves with
  | [] => ([], g)
  | (toRow, toCol) :: rest =>
      let '(ok, g1) := isLegalMove g fromRow fromCol toRow toCol in
      let '(legalMoves, g2) := filterLegal g1 fromRow fromCol rest in
      (if ok then (toRow, toCol) :: legalMoves else legalMoves, g2)
  end.

Definition getLegalMoves (g : ChessGame) (piece : option ChessPiece)
    : list Square * ChessGame :=
  match piece with
  | None => ([], g)
  | Some p =>
      filterLegal g (row p) (col p)
        (getPossibleMoves p (board g) (contextOf g p))
  end.

(** The double loop of [hasLegalMoves], with its early [return true]. *)
Fixpoint hasLegalMovesFrom (g : ChessGame) (c : Color)
    (squares : list Square) : bool * ChessGame :=
  match squares with
  | [] => (false, g)
  | sq :: rest =>
      match getPieceAt g (fst sq) (snd sq) with
      | Some piece =>
          if Color_eqb (color piece) c then
            let '(legalMoves, g1) := getLegalMoves g (Some piece) in
            if (0 <? Z.of_nat (length legalMoves)) then (true, g1)
            else hasLegalMovesFrom g1 c rest
          else hasLegalMovesFrom g c rest
      | None => hasLegalMovesFrom g c rest
      end
  end.

Definition hasLegalMoves (g : ChessGame) (c : Color) : bool * ChessGame :=
  hasLegalMovesFrom g c allSquares.

(** [pieces[color]] as collected by [isInsufficientMaterial]. *)
Definition typesOf (g : ChessGame) (c : Color) : list PieceType :=
  flat_map (fun sq =>
    match getPieceAt g (fst sq) (snd sq) with
    | Some piece => if Color_eqb (color piece) c then [type piece] else []
    | None => []
    end) allSquares.

Definition isInsufficientMaterial (g : ChessGame) : bool :=
  let pieces := fun c => typesOf g c in
  if (length (pieces WHITE) =? 1)%nat && (length (pieces BLACK) =? 1)%nat
  then true
  else
    existsb (fun c =>
      (length (pieces c) =? 2)%nat && (length (pieces (opposite c)) =? 1)%nat
      && match find (fun t => negb (PieceType_eqb t KING)) (pieces c) with
         | Some BISHOP | Some KNIGHT => true
         | _ => false
         end) [WHITE; BLACK].

Definition updateGameState (g : ChessGame) : ChessGame :=
  let inCheck := isInCheck g (currentPlayer g) in
  let '(hasMoves, g1) := hasLegalMoves g (currentPlayer g) in
  let g2 :=
    withGameState g1
      (if inCheck && negb hasMoves then checkmate
       else if negb inCheck && negb hasMoves then stalemate
       else if inCheck then check
       else playing) in
  if (halfMoveClock g2 >=? 100) || isInsufficientMaterial g2
  then withGameState g2 draw
  else g2.

(** [piece.type.charAt(0)] *)
Definition typeInitial (t : PieceType) : string :=
  match t with
  | PAWN => "P" | KNIGHT => "K" | BISHOP => "B"
  | ROOK => "R" | QUEEN => "Q" | KING => "K"
  end.

(** [String.fromCharCode(97 + col)] *)
Definition fileLetter (c : Z) : string :=
  String (Ascii.ascii_of_N (Z.to_N (97 + c))) EmptyString.

(** [String.fromCharCode(97 + col) + (8 - row)] *)
Definition squareName (r c : Z) : string :=
  fileLetter c +:+ pretty (8 - r).

Definition getMoveNotation (piece : ChessPiece)
    (fromRow fromCol toRow toCol : Z) (capturedPiece : option ChessPiece)
    : string :=
  let toSquare := squareName toRow toCol in
  if PieceType_eqb (type piece) KING && (Z.abs (toCol - fromCol) =? 2) then
    if toCol >? fromCol then "O-O" else "O-O-O"
  else
    (if negb (PieceType_eqb (type piece) PAWN)
     then typeInitial (type piece) else "")
    +:+ (if isSome capturedPiece then
           (if PieceType_eqb (type piece) PAWN then fileLetter fromCol else "")
           +:+ "x"
         else "")
    +:+ toSquare.

(** [handleCastling], acting on the board. *)
Definition handleCastling (g : ChessGame) (fromRow fromCol toRow toCol : Z)
    : ChessGame :=
  let isKingSide := toCol >? fromCol in
  let rookFromCol := if isKingSide then 7 else 0 in
  let rookToCol := if isKingSide then 5 else 3 in
  match getPieceAt g fromRow rookFromCol with
  | Some rook =>
      withBoard g
        (setCell
           (setCell (board g) fromRow rookToCol
                    (Some (moveTo rook fromRow rookToCol)))
           fromRow rookFromCol None)
  | None => g
  end.

(** The part of [makeMove] that follows the legality test; [piece] is the
    object found on the from-square.  The result is the game just before
    [updateGameState] runs. *)
Definition applyMove (g : ChessGame) (piece : ChessPiece)
    (fromRow fromCol toRow toCol : Z) (promotionPiece : PieceType)
    : ChessGame :=
  let target := getPieceAt g toRow toCol in
  (* en passant capture *)
  let ep := PieceType_eqb (type piece) PAWN && isNone target
            && isEnPassantSquare g toRow toCol in
  let captureRow := captureRowOf (color piece) toRow in
  let capturedPiece := if ep then cell (board g) captureRow toCol else target in
  let b1 := if ep then setCell (board g) captureRow toCol None else board g in
  let moveNotation :=
    getMoveNotation piece fromRow fromCol toRow toCol capturedPiece in
  (* captures and the half-move clock *)
  let captures :=
    match capturedPiece with
    | Some cp =>
        pcSet (capturedPieces g) (color cp)
              (pcGet (capturedPieces g) (color cp) ++ [cp])
    | None => capturedPieces g
    end in
  let clock :=
    if isSome capturedPiece then 0
    else if PieceType_eqb (type piece) PAWN then 0
    else halfMoveClock g + 1 in
  (* move the piece *)
  let moved := moveTo piece toRow toCol in
  (* king position *)
  let kings :=
    if PieceType_eqb (type moved) KING
    then pcSet (kingPositions g) (color moved) (toRow, toCol)
    else kingPositions g in
  (* promotion *)
  let final :=
    if PieceType_eqb (type moved) PAWN && ((toRow =? 0) || (toRow =? 7))
    then setType moved promotionPiece else moved in
  let b3 := setCell (setCell b1 toRow toCol (Some final)) fromRow fromCol None in
  let g1 := mkGame b3 (currentPlayer g) (gameState g) (moveHistory g) captures
                   (lastMove g) kings (enPassantTarget g) clock
                   (fullMoveNumber g) in
  (* castling *)
  let g2 :=
    if PieceType_eqb (type final) KING && (Z.abs (toCol - fromCol) =? 2)
    then handleCastling g1 fromRow fromCol toRow toCol else g1 in
  (* en passant target *)
  let target' :=
    if PieceType_eqb (type final) PAWN && (Z.abs (toRow - fromRow) =? 2)
    then Some (fromRow + (toRow - fromRow) / 2, fromCol) else None in
  (* record the move, switch players *)
  let player := opposite (currentPlayer g2) in
  mkGame (board g2) player (gameState g2)
         (moveHistory g2 ++
            [mkMoveRecord moveNotation (fromRow, fromCol) (toRow, toCol)
               (type final)
               (match capturedPiece with
                | Some cp => Some (type cp)
                | None => None
                end)])
         (capturedPieces g2)
         (Some (mkLastMove (fromRow, fromCol) (toRow, toCol) (type final)))
         (kingPositions g2) target' (halfMoveClock g2)
         (if Color_eqb player WHITE
          then fullMoveNumber g2 + 1 else fullMoveNumber g2).

Definition makeMove (g : ChessGame) (fromRow fromCol toRow toCol : Z)
    (promotionPiece : PieceType) : bool * ChessGame :=
  match getPieceAt g fromRow fromCol with
  | None => (false, g)
  | Some piece =>
      let '(legal, g1) := isLegalMove g fromRow fromCol toRow toCol in
      if negb legal then (false, g1)
      else
        (true, updateGameState
                 (applyMove g1 piece fromRow fromCol toRow toCol
                            promotionPiece))
  end.

(** [getPieces(color)] *)
Definition getPieces (g : ChessGame) (c : Color) : list ChessPiece :=
  flat_map (fun sq =>
    match getPieceAt g (fst sq) (snd sq) with
    | Some piece => if Color_eqb (color piece) c then [piece] else []
    | None => []
    end) allSquares.

(** [isEndgame()] *)
Definition isEndgame (g : ChessGame) : bool :=
  let pieces := getPieces g WHITE ++ getPieces g BLACK in
  let majorPieces :=
    List.filter (fun p => PieceType_eqb (type p) QUEEN
                          || PieceType_eqb (type p) ROOK) pieces in
  (length majorPieces <=? 4)%nat.

(** [ChessGame.cloneGame()].  [new ChessGame()] starts from the initial
    position and the copy loop only overwrites squares that hold a piece in
    [this]. *)
Definition overlayBoard (src : ChessGame) (dst : Board) : Board :=
  fold_left (fun b sq =>
    match cell (board src) (fst sq) (snd sq) with
    | Some piece => setCell b (fst sq) (snd sq) (Some (clonePiece piece))
    | None => b
    end) allSquares dst.

Definition cloneGame (g : ChessGame) : ChessGame :=
  mkGame (overlayBoard g (board newGame)) (currentPlayer g) (gameState g)
         (moveHistory g) (capturedPieces g) (lastMove g) (kingPositions g)
         (enPassantTarget g) (halfMoveClock g) (fullMoveNumber g).

(** ** Well-formed games

    The shape of the board arrays, the agreement of every piece object's
    [row]/[col] fields with the square that holds it, and an en-passant
    target that lies on the board.  [new ChessGame()] satisfies it and
    [makeMove] keeps it; the README tests that edit [game.board] by hand keep
    it too.  On such games no array access of the source leaves the arrays. *)

Definition boardShapeb (b : Board) : bool :=
  (length b =? 8)%nat && forallb (fun rw => (length rw =? 8)%nat) b.

Definition piecesPlacedb (b : Board) : bool :=
  forallb (fun sq =>
    match cell b (fst sq) (snd sq) with
    | Some p => (row p =? fst sq) && (col p =? snd sq)
    | None => true
    end) allSquares.

Definition wellFormed (g : ChessGame) : bool :=
  boardShapeb (board g) && piecesPlacedb (board g)
  && match enPassantTarget g with
     | Some ep => onBoard (fst ep) (snd ep)
     | None => true
     end.

Definition boardShape (b : Board) : Prop :=
  length b = 8%nat /\ forall rw, rw ∈ b -> length rw = 8%nat.

Definition piecesPlaced (b : Board) : Prop :=
  forall r c p, cell b r c = Some p -> row p = r /\ col p = c.

(** ** PIECE_VALUES and POSITION_VALUES (chess-pieces.js) *)

Definition PIECE_VALUES (t : PieceType) : Z :=
  match t with
  | PAWN => 100 | KNIGHT => 320 | BISHOP => 330
  | ROOK => 500 | QUEEN => 900 | KING => 20000
  end.

Definition PAWN_TABLE : list (list Z) :=
  [[0;  0;  0;  0;  0;  0;  0;  0];
   [50; 50; 50; 50; 50; 50; 50; 50];
   [10; 10; 20; 30; 30; 20; 10; 10];
   [5;  5; 10; 25; 25; 10;  5;  5];
   [0;  0;  0; 20; 20;  0;  0;  0];
   [5; -5;-10;  0;  0;-10; -5;  5];
   [5; 10; 10;-20;-20; 10; 10;  5];
   [0;  0;  0;  0;  0;  0;  0;  0]].

Definition KNIGHT_TABLE : list (list Z) :=
  [[-50;-40;-30;-30;-30;-30;-40;-50];
   [-40;-20;  0;  0;  0;  0;-20;-40];
   [-30;  0; 10; 15; 15; 10;  0;-30];
   [-30;  5; 15; 20; 20; 15;  5;-30];
   [-30;  0; 15; 20; 20; 15;  0;-30];
   [-30;  5; 10; 15; 15; 10;  5;-30];
   [-40;-20;  0;  5;  5;  0;-20;-40];
   [-50;-40;-30;-30;-30;-30;-40;-50]].

Definition BISHOP_TABLE : list (list Z) :=
  [[-20;-10;-10;-10;-10;-10;-10;-20];
   [-10;  0;  0;  0;  0;  0;  0;-10];
   [-10;  0;  5; 10; 10;  5;  0;-10];
   [-10;  5;  5; 10; 10;  5;  5;-10];
   [-10;  0; 10; 10; 10; 10;  0;-10];
   [-10; 10; 10; 10; 10; 10; 10;-10];
   [-10;  5;  0;  0;  0;  0;  5;-10];
   [-20;-10;-10;-10;-10;-10;-10;-20]].

Definition ROOK_TABLE : list (list Z) :=
  [[0;  0;  0;  0;  0;  0;  0;  0];
   [5; 10; 10; 10; 10; 10; 10;  5];
   [-5;  0;  0;  0;  0;  0;  0; -5];
   [-5;  0;  0;  0;  0;  0;  0; -5];
   [-5;  0;  0;  0;  0;  0;  0; -5];
   [-5;  0;  0;  0;  0;  0;  0; -5];
   [-5;  0;  0;  0;  0;  0;  0; -5];
   [0;  0;  0;  5;  5;  0;  0;  0]].

Definition QUEEN_TABLE : list (list Z) :=
  [[-20;-10;-10; -5; -5;-10;-10;-20];
   [-10;  0;  0;  0;  0;  0;  0;-10];
   [-10;  0;  5;  5;  5;  5;  0;-10];
   [-5;  0;  5;  5;  5;  5;  0; -5];
   [0;  0;  5;  5;  5;  5;  0; -5];
   [-10;  5;  5;  5;  5;  5;  0;-10];
   [-10;  0;  5;  0;  0;  0;  0;-10];
   [-20;-10;-10; -5; -5;-10;-10;-20]].

Definition KING_TABLE : list (list Z) :=
  [[-30;-40;-40;-50;-50;-40;-40;-30];
   [-30;-40;-40;-50;-50;-40;-40;-30];
   [-30;-40;-40;-50;-50;-40;-40;-30];
   [-30;-40;-40;-50;-50;-40;-40;-30];
   [-20;-30;-30;-40;-40;-30;-30;-20];
   [-10;-20;-20;-20;-20;-20;-20;-10];
   [20; 20;  0;  0;  0;  0; 20; 20];
   [20; 30; 10;  0;  0; 10; 30; 20]].

Definition KING_ENDGAME_TABLE : list (list Z) :=
  [[-50;-40;-30;-20;-20;-30;-40;-50];
   [-30;-20;-10;  0;  0;-10;-20;-30];
   [-30;-10; 20; 30; 30; 20;-10;-30];
   [-30;-10; 30; 40; 40; 30;-10;-30];
   [-30;-10; 30; 40; 40; 30;-10;-30];
   [-30;-10; 20; 30; 30; 20;-10;-30];
   [-30;-30;  0;  0;  0;  0;-30;-30];
   [-50;-30;-30;-30;-30;-30;-30;-50]].

Definition POSITION_VALUES (t : PieceType) : list (list Z) :=
  match t with
  | PAWN => PAWN_TABLE | KNIGHT => KNIGHT_TABLE | BISHOP => BISHOP_TABLE
  | ROOK => ROOK_TABLE | QUEEN => QUEEN_TABLE | KING => KING_TABLE
  end.

(** [piece.getValue()] *)
Definition getValue (p : ChessPiece) : Z := PIECE_VALUES (type p).

(** [piece.getPositionalValue(isEndgame)]; the pieces of a well-formed game
    index inside the table. *)
Definition getPositionalValue (p : ChessPiece) (endgame : bool) : Z :=
  let table := if PieceType_eqb (type p) KING && endgame
               then KING_ENDGAME_TABLE else POSITION_VALUES (type p) in
  let r := match color p with WHITE => row p | BLACK => 7 - row p end in
  match table !! Z.to_nat r with
  | Some line => default 0 (line !! Z.to_nat (col p))
  | None => 0
  end.

(** ** chess-ai.js: the basic search *)

(** JavaScript numbers as the search uses them: integers and the two
    infinities that initialise the window and the running best score. *)
Inductive Score := NegInf | Fin (z : Z) | PosInf.

Definition Score_ltb (a b : Score) : bool :=
  match a, b with
  | NegInf, NegInf => false
  | NegInf, _ => true
  | Fin _, NegInf => false
  | Fin x, Fin y => x <? y
  | Fin _, PosInf => true
  | PosInf, _ => false
  end.

Definition Score_leb (a b : Score) : bool := negb (Score_ltb b a).
Definition Score_max (a b : Score) : Score := if Score_ltb a b then b else a.
Definition Score_min (a b : Score) : Score := if Score_ltb b a then b else a.
Definition Score_neg (a : Score) : Score :=
  match a with NegInf => PosInf | Fin z => Fin (- z) | PosInf => NegInf end.

(** A candidate move, as built by [getAllPossibleMoves]. *)
Record Move := mkMove {
  mvFrom : Square;
  mvTo : Square;
  mvPiece : PieceType;
  mvCaptured : option PieceType
}.

(** [movesEqual(move1, move2)] *)
Definition movesEqual (a b : Move) : bool :=
  (fst (mvFrom a) =? fst (mvFrom b)) && (snd (mvFrom a) =? snd (mvFrom b))
  && (fst (mvTo a) =? fst (mvTo b)) && (snd (mvTo a) =? snd (mvTo b)).

(** [getAllPossibleMoves(game)].  [getLegalMoves] hands the game back as it
    found it (see [isLegalMove_restores]), so only its list is used. *)
Definition getAllPossibleMoves (g : ChessGame) : list Move :=
  flat_map (fun piece =>
    map (fun sq =>
      mkMove (row piece, col piece) sq (type piece)
        (match getPieceAt g (fst sq) (snd sq) with
         | Some capturedPiece => Some (type capturedPiece)
         | None => None
         end))
      (fst (getLegalMoves g (Some piece))))
    (getPieces g (currentPlayer g)).

(** [ChessAI.cloneGame] and [EnhancedChessAI.cloneGame] (the same text):
    a fresh [new ChessGame()], the pieces of [game] copied over it, and six
    scalar fields; the history, the captured lists and [lastMove] stay those
    of the fresh game. *)
Definition aiCloneGame (g : ChessGame) : ChessGame :=
  mkGame (overlayBoard g (board newGame)) (currentPlayer g) (gameState g)
         [] (mkPerColor [] []) None (kingPositions g) (enPassantTarget g)
         (halfMoveClock g) (fullMoveNumber g).

(** [cloneGame(game)] followed by [makeMove] with the default promotion. *)
Definition playOnClone (g : ChessGame) (m : Move) : bool * ChessGame :=
  makeMove (aiCloneGame g) (fst (mvFrom m)) (snd (mvFrom m))
           (fst (mvTo m)) (snd (mvTo m)) QUEEN.

(** [Math.abs(3.5 - row) + Math.abs(3.5 - col)]: two half-integers whose sum
    is an integer. *)
Definition centerDistance (r c : Z) : Z :=
  (Z.abs (7 - 2 * r) + Z.abs (7 - 2 * c)) / 2.

Definition colorInitial (c : Color) : string :=
  match c with WHITE => "W" | BLACK => "B" end.

(** [getBoardHash(game)] *)
Definition getBoardHash (g : ChessGame) : string :=
  fold_right (fun sq acc =>
    match getPieceAt g (fst sq) (snd sq) with
    | Some piece => colorInitial (color piece) +:+ typeInitial (type piece) +:+ acc
    | None => "--" +:+ acc
    end) (colorInitial (currentPlayer g)) allSquares.

(** What [minimax] returns and what it stores in the table. *)
Record SearchResult := mkResult {
  resScore : Score;
  resMove : option Move;
  resDepth : option nat
}.

Record ChessAI := mkAI {
  transpositionTable : gmap string SearchResult;
  killerMoves : list (list Move)
}.

(** [getDepthFromDifficulty] of the basic engine *)
Definition basicDepthFromDifficulty (difficulty : Z) : nat :=
  match difficulty with
  | 1 => 2%nat | 2 => 3%nat | 3 => 4%nat | 4 => 5%nat | _ => 3%nat
  end.

(** State at the top of [getBestMove]: table cleared, ten empty killer
    lists. *)
Definition freshAI : ChessAI := mkAI ∅ (replicate 10 []).

(** [getAttackersCount(game, row, col, color)] *)
Definition getAttackersCount (g : ChessGame) (r c : Z) (k : Color) : Z :=
  Z.of_nat (length (List.filter (fun piece =>
    hasSquare (getPossibleMoves piece (board g) emptyContext) r c)
    (getPieces g k))).

(** [getPawnShieldValue(game, kingPos, color)] *)
Definition getPawnShieldValue (g : ChessGame) (kingPos : Square) (k : Color) : Z :=
  let '(kingRow, kingCol) := kingPos in
  fold_left (fun shield colOffset =>
    let c := kingCol + colOffset in
    if (0 <=? c) && (c <? 8) then
      match getPieceAt g (kingRow + direction k) c with
      | Some pawn =>
          if PieceType_eqb (type pawn) PAWN && Color_eqb (color pawn) k
          then shield + 15 else shield
      | None => shield
      end
    else shield) [-1; 0; 1] 0.

(** [evaluateKingSafety(game, color)] *)
Definition evaluateKingSafety (g : ChessGame) (k : Color) : Z :=
  let kingPos := pcGet (kingPositions g) k in
  (if negb (isEndgame g)
   then centerDistance (fst kingPos) (snd kingPos) * 10 else 0)
  - getAttackersCount g (fst kingPos) (snd kingPos) (opposite k) * 20
  + getPawnShieldValue g kingPos k.

(** [isPassedPawn(game, pawn)] *)
Definition isPassedPawn (g : ChessGame) (pawn : ChessPiece) : bool :=
  let enemyPawns :=
    List.filter (fun p => PieceType_eqb (type p) PAWN)
      (getPieces g (opposite (color pawn))) in
  negb (existsb (fun enemyPawn =>
    (Z.abs (col enemyPawn - col pawn) <=? 1)
    && match color pawn with
       | WHITE => row enemyPawn <? row pawn
       | BLACK => row enemyPawn >? row pawn
       end) enemyPawns).

(** [evaluatePawnStructure(game, color)].  The doubled-pawn loop runs over
    the files that hold a pawn; a file with [n] pawns costs [10 * (n - 1)]. *)
Definition evaluatePawnStructure (g : ChessGame) (k : Color) : Z :=
  let pawns :=
    List.filter (fun p => PieceType_eqb (type p) PAWN) (getPieces g k) in
  let onFile := fun f =>
    Z.of_nat (length (List.filter (fun p => col p =? f) pawns)) in
  let doubled :=
    fold_left (fun score f =>
      if onFile f >? 1 then score - 10 * (onFile f - 1) else score)
      (seqZ 0 8) 0 in
  let isolated :=
    fold_left (fun score pawn =>
      if negb (existsb (fun p => Z.abs (col p - col pawn) =? 1) pawns)
      then score - 15 else score) pawns doubled in
  fold_left (fun score pawn =>
    if isPassedPawn g pawn then
      let rank := match k with WHITE => 7 - row pawn | BLACK => row pawn end in
      score + (20 + rank * 10)
    else score) pawns isolated.

(** [evaluateCenterControl(game, color)] *)
Definition evaluateCenterControl (g : ChessGame) (k : Color) : Z :=
  let pieces := getPieces g k in
  fold_left (fun control sq =>
    fold_left (fun control piece =>
      if hasSquare (getPossibleMoves piece (board g) emptyContext)
                   (fst sq) (snd sq)
      then control + 5 else control) pieces control)
    [(3, 3); (3, 4); (4, 3); (4, 4)] 0.

(** [evaluatePosition(game)] at difficulty 3 and above.  Below 3 the source
    adds [(Math.random() - 0.5) * 50 * (4 - difficulty)] to the sum; that
    branch is not part of this embedding, which covers the Hard and Expert
    levels, where every score is an integer. *)
Definition evaluatePosition (g : ChessGame) : Z :=
  match gameState g with
  | checkmate => match currentPlayer g with BLACK => 20000 | WHITE => -20000 end
  | stalemate | draw => 0
  | _ =>
    let endgame := isEndgame g in
    let material :=
      fold_left (fun score sq =>
        match getPieceAt g (fst sq) (snd sq) with
        | Some piece =>
            let mobility :=
              Z.of_nat (length (getPossibleMoves piece (board g) emptyContext)) in
            let pieceScore :=
              getValue piece + getPositionalValue piece endgame + mobility * 2
              + (if negb (isSquareUnderAttack g (fst sq) (snd sq)
                            (opposite (color piece)))
                 then 10 else 0) in
            match color piece with
            | WHITE => score + pieceScore
            | BLACK => score - pieceScore
            end
        | None => score
        end) allSquares 0 in
    material
    + (evaluateKingSafety g WHITE - evaluateKingSafety g BLACK)
    + (evaluatePawnStructure g WHITE - evaluatePawnStructure g BLACK)
    + (evaluateCenterControl g WHITE - evaluateCenterControl g BLACK)
  end.

(** The per-move score computed by the comparator of [orderMoves]. *)
Definition orderScore (ai : ChessAI) (g : ChessGame) (depth : nat) (m : Move)
    : Z :=
  (match mvCaptured m with
   | Some t => 1000 + PIECE_VALUES t
   | None => 0
   end)
  + (let '(ok, gameClone) := playOnClone g m in
     if ok && isInCheck gameClone (opposite (currentPlayer gameClone))
     then 500 else 0)
  + (match killerMoves ai !! depth with
     | Some killers => if existsb (fun k => movesEqual k m) killers
                       then 100 else 0
     | None => 0
     end)
  + (10 - centerDistance (fst (mvTo m)) (snd (mvTo m))).

(** [Array.prototype.sort] is stable; with a comparator [scoreB - scoreA]
    that depends on each element alone, its result is the stable sort by
    decreasing score.  It is computed here by insertion, each score being
    worked out once. *)
Fixpoint insertByScore {A} (x : Z * A) (l : list (Z * A)) : list (Z * A) :=
  match l with
  | [] => [x]
  | y :: rest =>
      if fst y <=? fst x then x :: y :: rest
      else y :: insertByScore x rest
  end.

Definition sortByScore {A} (score : A -> Z) (l : list A) : list A :=
  map snd (fold_right insertByScore [] (map (fun x => (score x, x)) l)).

(** [orderMoves(moves, game, depth)] *)
Definition orderMoves (ai : ChessAI) (moves : list Move) (g : ChessGame)
    (depth : nat) : list Move :=
  sortByScore (orderScore ai g depth) moves.

(** [killerMoves[depth].unshift(move)] then [slice(0, 2)] *)
Definition storeKiller (ai : ChessAI) (depth : nat) (m : Move) : ChessAI :=
  match mvCaptured m, killerMoves ai !! depth with
  | None, Some killers =>
      mkAI (transpositionTable ai)
           (<[depth := take 2 (m :: killers)]> (killerMoves ai))
  | _, _ => ai
  end.

(** The loop over the ordered moves inside [minimax]; [search] is the
    recursive call at [depth - 1]. *)
Fixpoint minimaxLoop
    (search : ChessAI -> ChessGame -> Score -> Score -> bool
              -> SearchResult * ChessAI)
    (g : ChessGame) (depth : nat) (isMaximizing : bool)
    (moves : list Move) (ai : ChessAI) (alpha beta bestScore : Score)
    (bestMove : option Move) : Score * option Move * ChessAI :=
  match moves with
  | [] => (bestScore, bestMove, ai)
  | m :: rest =>
      let '(moveSuccess, gameClone) := playOnClone g m in
      if negb moveSuccess then
        minimaxLoop search g depth isMaximizing rest ai alpha beta bestScore
                    bestMove
      else
        let '(result, ai1) :=
          search ai gameClone alpha beta (negb isMaximizing) in
        let score := resScore result in
        let improves := if isMaximizing then Score_ltb bestScore score
                        else Score_ltb score bestScore in
        let bestScore' := if improves then score else bestScore in
        let bestMove' := if improves then Some m else bestMove in
        let alpha' := if isMaximizing then Score_max alpha score else alpha in
        let beta' := if isMaximizing then beta else Score_min beta score in
        if Score_leb beta' alpha' then
          (bestScore', bestMove', storeKiller ai1 depth m)
        else
          minimaxLoop search g depth isMaximizing rest ai1 alpha' beta'
                      bestScore' bestMove'
  end.

(** [minimax(game, depth, alpha, beta, isMaximizing)] *)
Fixpoint minimax (depth : nat) (ai : ChessAI) (g : ChessGame)
    (alpha beta : Score) (isMaximizing : bool) : SearchResult * ChessAI :=
  let boardHash := getBoardHash g in
  let lookup :=
    match transpositionTable ai !! boardHash with
    | Some ttEntry =>
        match resDepth ttEntry with
        | Some d => if (depth <=? d)%nat then Some ttEntry else None
        | None => None
        end
    | None => None
    end in
  match lookup with
  | Some ttEntry => (ttEntry, ai)
  | None =>
    match depth with
    | O => (mkResult (Fin (evaluatePosition g)) None None, ai)
    | S depth' =>
      match gameState g with
      | playing =>
        let moves := getAllPossibleMoves g in
        match moves with
        | [] =>
            (mkResult (Fin (if isInCheck g (currentPlayer g) then -20000 else 0))
                      None None, ai)
        | _ =>
            let ordered := orderMoves ai moves g depth in
            let '(bestScore, bestMove, ai1) :=
              minimaxLoop (minimax depth') g depth isMaximizing ordered ai
                          alpha beta (if isMaximizing then NegInf else PosInf)
                          None in
            let result := mkResult bestScore bestMove (Some depth) in
            (result,
             mkAI (<[boardHash := result]> (transpositionTable ai1))
                  (killerMoves ai1))
        end
      | _ => (mkResult (Fin (evaluatePosition g)) None None, ai)
      end
    end
  end.

(** ** chess-ai-enhanced.js: the iterative-deepening driver *)

(** The two effects the driver has on the outside world are reads of
    [Date.now()] and draws of [Math.random()].  Both are oracles indexed by
    the number of calls made so far; [World] holds the two counters.  A draw
    is a rational in [0, 1); the products and comparisons the driver makes
    with it are taken exactly. *)
Record World := mkWorld { clockReads : nat; randomDraws : nat }.

Definition dateNow (now : nat -> Z) (w : World) : Z * World :=
  (now (clockReads w), mkWorld (S (clockReads w)) (randomDraws w)).

Definition mathRandom (random : nat -> Q) (w : World) : Q * World :=
  (random (randomDraws w), mkWorld (clockReads w) (S (randomDraws w))).

(** [Math.floor(u * n)], taken on the exact product.  The source multiplies
    in double precision: for a draw that lies within one unit in the last
    place below [k / n] the rounded product is [k], and the source takes
    index [k] where this definition gives [k - 1].  For the draws
    [Math.random()] returns, both indices stay below [n]. *)
Definition floorTimes (u : Q) (n : nat) : nat :=
  Z.to_nat (Qfloor (u * inject_Z (Z.of_nat n))).

Inductive Flag := EXACT | LOWERBOUND | UPPERBOUND.

Record TTEntry := mkTTEntry {
  ttScore : Score;
  ttDepth : Z;
  ttFlag : Flag
}.

Record ZobristTable := mkZobrist {
  zPieces : Color -> PieceType -> list Z;
  zBlackToMove : Z;
  zCastling : list Z;
  zEnPassant : list Z
}.

(** The fields of the engine that the recursive search writes. *)
Record SearchTables := mkTables {
  eTranspositionTable : gmap Z TTEntry;
  eKillerMoves : list (list Move);
  historyTable : gmap string Z;
  nodesSearched : Z
}.

Record EnhancedChessAI := mkEnhanced {
  difficulty : Z;
  maxDepth : Z;
  tables : SearchTables;
  openingBook : list (string * list string);
  moveCount : Z;
  zobristTable : ZobristTable;
  pvTable : gmap string bool;
  timeLimit : Z;
  randomnessFactor : Q;
  moveRandomness : Q;
  useOpeningBook : bool;
  startTime : Z
}.

Definition withTables (ai : EnhancedChessAI) (t : SearchTables)
    : EnhancedChessAI :=
  mkEnhanced (difficulty ai) (maxDepth ai) t (openingBook ai) (moveCount ai)
    (zobristTable ai) (pvTable ai) (timeLimit ai) (randomnessFactor ai)
    (moveRandomness ai) (useOpeningBook ai) (startTime ai).

(** [initializeOpeningBook()] *)
Definition initializeOpeningBook : list (string * list string) :=
  [("e2e4,e7e5,g1f3,b8c6,f1c4", ["b7b5"; "d7d6"; "f7f5"; "g8f6"]);
   ("e2e4,c7c5", ["g1f3"; "d2d4"; "b1c3"]);
   ("e2e4,e7e6", ["d2d4"; "g1f3"]);
   ("d2d4,d7d5,c2c4", ["e7e6"; "c7c6"; "d5c4"]);
   ("d2d4,g8f6,c2c4,g7g6", ["b1c3"; "g1f3"]);
   ("e2e4,e7e5,g1f3,b8c6,f1b5", ["a7a6"; "g8f6"; "f7f5"]);
   ("c2c4", ["e7e5"; "g8f6"; "c7c5"; "e7e6"]);
   ("e2e4,c7c6", ["d2d4"; "b1c3"; "g1f3"])].

(** [getDepthFromDifficulty(difficulty)] of the enhanced engine *)
Definition getDepthFromDifficulty (d : Z) : Z :=
  match d with
  | 1 => 3 | 2 => 4 | 3 => 5 | 4 => 6 | 5 => 8 | _ => 4
  end.

(** [setDifficultyParameters(difficulty)] *)
Definition setDifficultyParameters (ai : EnhancedChessAI) (d : Z)
    : EnhancedChessAI :=
  let '(limit, factor, randomness, book) :=
    match d with
    | 1 => (1000, (25 # 100)%Q, (3 # 10)%Q, false)
    | 2 => (2000, (1 # 10)%Q, (15 # 100)%Q, true)
    | 3 => (3000, (5 # 100)%Q, (8 # 100)%Q, true)
    | 4 => (5000, (2 # 100)%Q, (3 # 100)%Q, true)
    | 5 => (8000, (0 # 1)%Q, (0 # 1)%Q, true)
    | _ => (3000, (1 # 10)%Q, (15 # 100)%Q, true)
    end in
  mkEnhanced (difficulty ai) (maxDepth ai) (tables ai) (openingBook ai)
    (moveCount ai) (zobristTable ai) (pvTable ai)
    limit factor randomness book (startTime ai).

(** [new EnhancedChessAI(difficulty)], given the Zobrist table the
    constructor drew. *)
Definition newEnhancedAI (d : Z) (z : ZobristTable) : EnhancedChessAI :=
  setDifficultyParameters
    (mkEnhanced d (getDepthFromDifficulty d)
       (mkTables ∅ (replicate 20 []) ∅ 0)
       initializeOpeningBook 0 z ∅ 0 (0 # 1)%Q (0 # 1)%Q false 0) d.


(** The template literal [`${from[0]},${from[1]},${to[0]},${to[1]}`] *)
Definition moveKey (m : Move) : string :=
  pretty (fst (mvFrom m)) +:+ "," +:+ pretty (snd (mvFrom m)) +:+ ","
  +:+ pretty (fst (mvTo m)) +:+ "," +:+ pretty (snd (mvTo m)).

(** The score given to a move by [orderMovesAdvanced].  Every
    [PIECE_VALUES] entry is a multiple of ten, so [attackerValue / 10] is an
    integer. *)
Definition advancedScore (ai : EnhancedChessAI) (g : ChessGame) (depth : Z)
    (m : Move) : Z :=
  let '(fromRow, fromCol) := mvFrom m in
  let '(toRow, toCol) := mvTo m in
  let centerBonus := fun r c => (7 - centerDistance r c) * 10 in
  (match pvTable ai !! moveKey m with Some true => 10000 | _ => 0 end)
  + (match mvCaptured m with
     | Some t => 1000 + PIECE_VALUES t - PIECE_VALUES (mvPiece m) / 10
     | None => 0
     end)
  + (if (0 <=? depth)
        && (depth <? Z.of_nat (length (eKillerMoves (tables ai)))) then
       match eKillerMoves (tables ai) !! Z.to_nat depth with
       | Some killers =>
           if existsb (fun k => movesEqual k m) killers then 900 else 0
       | None => 0
       end
     else 0)
  + (match historyTable (tables ai) !! moveKey m with
     | Some h => if h =? 0 then 0 else Z.min h 800
     | None => 0
     end)
  + (centerBonus toRow toCol - centerBonus fromRow fromCol)
  + (if PieceType_eqb (mvPiece m) PAWN then
       match currentPlayer g with
       | WHITE => (fromRow - toRow) * 20
       | BLACK => (toRow - fromRow) * 20
       end
     else 0)
  + (if PieceType_eqb (mvPiece m) KING && (Z.abs (toCol - fromCol) =? 2)
     then 300 else 0).

(** [orderMovesAdvanced(moves, game, depth)]; the transient [score] field it
    writes on each move object is the sort key and is not kept. *)
Definition orderMovesAdvanced (ai : EnhancedChessAI) (moves : list Move)
    (g : ChessGame) (depth : Z) : list Move :=
  sortByScore (advancedScore ai g depth) moves.

(** The object returned by [getOpeningBookMove]. *)
Record BookReply := mkBookReply {
  replyFrom : Square;
  replyTo : Square;
  replyPiece : option PieceType
}.

(** What [getBestMove] returns when it is not [null]. *)
Inductive ChosenMove :=
| FromBook (r : BookReply)
| FromSearch (m : Move).

Definition chosenFrom (c : ChosenMove) : Square :=
  match c with FromBook r => replyFrom r | FromSearch m => mvFrom m end.
Definition chosenTo (c : ChosenMove) : Square :=
  match c with FromBook r => replyTo r | FromSearch m => mvTo m end.

(** The key [getOpeningBookMove] builds from [game.moveHistory]. *)
Definition historyKey (g : ChessGame) : string :=
  String.concat ","
    (map (fun m => squareName (fst (moveFrom m)) (snd (moveFrom m))
                   +:+ squareName (fst (moveTo_ m)) (snd (moveTo_ m)))
         (moveHistory g)).

Definition bookLookup (book : list (string * list string)) (key : string)
    : option (list string) :=
  match List.find (fun e => String.eqb (fst e) key) book with
  | Some e => Some (snd e)
  | None => None
  end.

(** [s.charCodeAt(i)] and [parseInt(s[i])] on the book's square names. *)
Definition charCodeAt (s : string) (i : nat) : Z :=
  match String.get i s with
  | Some a => Z.of_N (Ascii.N_of_ascii a)
  | None => 0
  end.

Definition digitAt (s : string) (i : nat) : Z := charCodeAt s i - 48.

(** [getOpeningBookMove(game)] *)
Definition getOpeningBookMove (random : nat -> Q) (w : World)
    (ai : EnhancedChessAI) (g : ChessGame) : option BookReply * World :=
  match bookLookup (openingBook ai) (historyKey g) with
  | Some (first :: others) =>
      let bookMoves := first :: others in
      let '(u, w1) := mathRandom random w in
      match bookMoves !! floorTimes u (length bookMoves) with
      | Some moveNotation =>
          let from := (8 - digitAt moveNotation 1,
                       charCodeAt moveNotation 0 - 97) in
          let to := (8 - digitAt moveNotation 3,
                     charCodeAt moveNotation 2 - 97) in
          (Some (mkBookReply from to
                   (match getPieceAt g (fst from) (snd from) with
                    | Some p => Some (type p)
                    | None => None
                    end)), w1)
      | None => (None, w1)
      end
  | _ => (None, w)
  end.

Section EnhancedDriver.

(** [alphaBeta(game, depth, alpha, beta, isMaximizing)] with everything it
    calls (quiescence search, the Zobrist hash, [ChessEvaluation]).  It
    reads the engine, writes only the fields gathered in [SearchTables],
    and neither reads the clock nor draws a random number; the driver below
    is embedded for an arbitrary such function, which returns the score and
    the tables it leaves. *)
Variable alphaBeta :
  EnhancedChessAI -> ChessGame -> Z -> Score -> Score -> bool
  -> Score * SearchTables.

Variable now : nat -> Z.
Variable random : nat -> Q.

(** The [for (const move of moves)] loop of [alphaBetaRoot]. *)
Fixpoint rootLoop (g : ChessGame) (depth : Z) (moves : list Move)
    (w : World) (ai : EnhancedChessAI) (alpha bestScore : Score)
    (bestMove : Move) : Score * Move * World * EnhancedChessAI :=
  match moves with
  | [] => (bestScore, bestMove, w, ai)
  | m :: rest =>
      let played := playOnClone g m in
      if negb (fst played) then
        rootLoop g depth rest w ai alpha bestScore bestMove
      else
        let searched :=
          alphaBeta ai (snd played) (depth - 1) (Score_neg PosInf)
                    (Score_neg alpha) false in
        let score := Score_neg (fst searched) in
        let ai1 := withTables ai (snd searched) in
        let better := Score_ltb bestScore score in
        let bestScore' := if better then score else bestScore in
        let bestMove' := if better then m else bestMove in
        let alpha' := Score_max alpha score in
        let '(t, w1) := dateNow now w in
        if t - startTime ai1 >? timeLimit ai1 then
          (bestScore', bestMove', w1, ai1)
        else
          rootLoop g depth rest w1 ai1 alpha' bestScore' bestMove'
  end.

(** [alphaBetaRoot(game, depth)] *)
Definition alphaBetaRoot (w : World) (ai : EnhancedChessAI) (g : ChessGame)
    (depth : Z) : Score * option Move * World * EnhancedChessAI :=
  match orderMovesAdvanced ai (getAllPossibleMoves g) g depth with
  | [] =>
      (Fin (if isInCheck g (currentPlayer g) then -30000 else 0),
       None, w, ai)
  | first :: others =>
      let '(score, move, w1, ai1) :=
        rootLoop g depth (first :: others) w ai NegInf NegInf first in
      (score, Some move, w1, ai1)
  end.

(** The iterative-deepening loop of [getBestMove]; [depths] are the values
    of [depth] still to be run. *)
Fixpoint deepen (g : ChessGame) (depths : list Z) (w : World)
    (ai : EnhancedChessAI) (bestMove : option Move)
    : option Move * World * EnhancedChessAI :=
  match depths with
  | [] => (bestMove, w, ai)
  | depth :: rest =>
      let '(_, move, w1, ai1) := alphaBetaRoot w ai g depth in
      let '(t, w2) := dateNow now w1 in
      if t - startTime ai1 >? timeLimit ai1 then (bestMove, w2, ai1)
      else
        deepen g rest w2 ai1
               (match move with Some m => Some m | None => bestMove end)
  end.

(** [this.startTime = Date.now(); this.nodesSearched = 0;
    this.moveCount++] *)
Definition withSearchStart (ai : EnhancedChessAI) (t : Z) : EnhancedChessAI :=
  mkEnhanced (difficulty ai) (maxDepth ai)
    (mkTables (eTranspositionTable (tables ai)) (eKillerMoves (tables ai))
              (historyTable (tables ai)) 0)
    (openingBook ai) (moveCount ai + 1)
    (zobristTable ai) (pvTable ai) (timeLimit ai) (randomnessFactor ai)
    (moveRandomness ai) (useOpeningBook ai) t.

(** [this.transpositionTable.clear()] *)
Definition withClearedTable (ai : EnhancedChessAI) : EnhancedChessAI :=
  withTables ai
    (mkTables ∅ (eKillerMoves (tables ai)) (historyTable (tables ai))
              (nodesSearched (tables ai))).

(** The part of [getBestMove] that follows the book and the random pick. *)
Definition searchBestMove (w : World) (ai : EnhancedChessAI) (g : ChessGame)
    : option ChosenMove * World * EnhancedChessAI :=
  let ai1 :=
    if (100000 <? Z.of_nat (size (eTranspositionTable (tables ai))))
    then withClearedTable ai else ai in
  let '(bestMove, w1, ai2) :=
    deepen g (seqZ 1 (maxDepth ai1)) w ai1 None in
  let '(_, w2) := dateNow now w1 in
  (match bestMove with Some m => Some (FromSearch m) | None => None end,
   w2, ai2).

(** The random pick among the first three generated moves. *)
Definition randomPick (w : World) (ai : EnhancedChessAI) (g : ChessGame)
    : option (option ChosenMove * World * EnhancedChessAI) :=
  let moves := getAllPossibleMoves g in
  match moves with
  | [] => None
  | _ =>
      let '(u, w1) := mathRandom random w in
      let randomIndex := floorTimes u (Nat.min (length moves) 3) in
      Some (match moves !! randomIndex with
            | Some m => Some (FromSearch m)
            | None => None
            end, w1, ai)
  end.

(** [getBestMove(game)] *)
Definition getBestMove (w : World) (ai : EnhancedChessAI) (g : ChessGame)
    : option ChosenMove * World * EnhancedChessAI :=
  let '(t, w1) := dateNow now w in
  let ai1 := withSearchStart ai t in
  let '(book, w2) :=
    if useOpeningBook ai1 && (moveCount ai1 <=? 10)
    then getOpeningBookMove random w1 ai1 g
    else (None, w1) in
  match book with
  | Some bookMove => (Some (FromBook bookMove), w2, ai1)
  | None =>
      if Qlt_le_dec 0 (moveRandomness ai1) then
        let '(u, w3) := mathRandom random w2 in
        if Qlt_le_dec u (moveRandomness ai1) then
          match randomPick w3 ai1 g with
          | Some picked => picked
          | None => searchBestMove w3 ai1 g
          end
        else searchBestMove w3 ai1 g
      else searchBestMove w2 ai1 g
  end.

End EnhancedDriver.

(** ** The object store

    The record embedding above gives every game its own values, which is
    what the source does only as long as two games never share an object
    that one of them writes.  To settle what cloning shares, the same
    methods are embedded a second time over an explicit store of objects:
    a game, its board arrays, its pieces, its [kingPositions] and
    [capturedPieces] objects and its history array live at locations, fields
    hold references, and every assignment of the source is a write at a
    location.

    The eight row arrays of a board are created and reached only together
    with the outer array and are kept in one object.  Coordinate pairs,
    move records and [lastMove] objects are never written after they are
    built (the source replaces them wholesale) and stay values. *)

Abbreviation loc := positive.

Record GameObject := mkGameObject {
  boardRef : loc;
  oCurrentPlayer : Color;
  oGameState : GameState;
  historyRef : loc;
  capturedRef : loc;
  oLastMove : option LastMove;
  kingsRef : loc;
  oEnPassantTarget : option Square;
  oHalfMoveClock : Z;
  oFullMoveNumber : Z
}.

Inductive Obj :=
| OPiece (p : ChessPiece)
| OBoard (cells : list (list (option loc)))
| OKings (k : PerColor Square)
| OCaptured (c : PerColor (list loc))
| OHistory (l : list MoveRecord)
| OGame (o : GameObject).

Abbreviation Heap := (gmap loc Obj).

(** A method body: it runs on a store and either faults (a dangling or
    ill-typed reference) or returns a value and the store it leaves. *)
Definition M (A : Type) : Type := Heap -> option (A * Heap).

Definition mret {A} (a : A) : M A := fun h => Some (a, h).
Definition mbind {A B} (m : M A) (k : A -> M B) : M B :=
  fun h => match m h with
           | Some (a, h1) => k a h1
           | None => None
           end.
Definition mfail {A} : M A := fun _ => None.

Section StoreMethods.

Notation "x <- m ;; k" := (mbind m (fun x => k))
  (at level 100, m at next level, right associativity).
Notation "m ;;; k" := (mbind m (fun _ => k))
  (at level 100, right associativity).

(** [new ...]: the object goes to a location the store does not use yet. *)
Definition alloc (o : Obj) : M loc :=
  fun h => let l := fresh (dom h) in Some (l, <[l := o]> h).

Definition readPiece (p : loc) : M ChessPiece :=
  fun h => match h !! p with Some (OPiece v) => Some (v, h) | _ => None end.
Definition readBoard (b : loc) : M (list (list (option loc))) :=
  fun h => match h !! b with Some (OBoard c) => Some (c, h) | _ => None end.
Definition readKings (k : loc) : M (PerColor Square) :=
  fun h => match h !! k with Some (OKings v) => Some (v, h) | _ => None end.
Definition readCaptured (k : loc) : M (PerColor (list loc)) :=
  fun h => match h !! k with Some (OCaptured v) => Some (v, h) | _ => None end.
Definition readHistory (k : loc) : M (list MoveRecord) :=
  fun h => match h !! k with Some (OHistory v) => Some (v, h) | _ => None end.
Definition readGame (g : loc) : M GameObject :=
  fun h => match h !! g with Some (OGame o) => Some (o, h) | _ => None end.

(** In-place updates; each checks the kind of object it finds. *)
Definition updPiece (p : loc) (f : ChessPiece -> ChessPiece) : M unit :=
  fun h => match h !! p with
           | Some (OPiece v) => Some (tt, <[p := OPiece (f v)]> h)
           | _ => None
           end.
Definition updBoard (b : loc)
    (f : list (list (option loc)) -> list (list (option loc))) : M unit :=
  fun h => match h !! b with
           | Some (OBoard c) => Some (tt, <[b := OBoard (f c)]> h)
           | _ => None
           end.
Definition updKings (k : loc) (f : PerColor Square -> PerColor Square)
    : M unit :=
  fun h => match h !! k with
           | Some (OKings v) => Some (tt, <[k := OKings (f v)]> h)
           | _ => None
           end.
Definition updCaptured (k : loc)
    (f : PerColor (list loc) -> PerColor (list loc)) : M unit :=
  fun h => match h !! k with
           | Some (OCaptured v) => Some (tt, <[k := OCaptured (f v)]> h)
           | _ => None
           end.
Definition updHistory (k : loc) (f : list MoveRecord -> list MoveRecord)
    : M unit :=
  fun h => match h !! k with
           | Some (OHistory v) => Some (tt, <[k := OHistory (f v)]> h)
           | _ => None
           end.
Definition updGame (g : loc) (f : GameObject -> GameObject) : M unit :=
  fun h => match h !! g with
           | Some (OGame o) => Some (tt, <[g := OGame (f o)]> h)
           | _ => None
           end.

(** The cell grid, with the index conventions of [cell] and [setCell]. *)
Definition refAt (cells : list (list (option loc))) (r c : Z) : option loc :=
  if (0 <=? r) && (0 <=? c) then
    match cells !! Z.to_nat r with
    | Some rw => match rw !! Z.to_nat c with Some x => x | None => None end
    | None => None
    end
  else None.

Definition setRef (cells : list (list (option loc))) (r c : Z)
    (v : option loc) : list (list (option loc)) :=
  if (0 <=? r) && (0 <=? c) then
    alter (fun rw => <[Z.to_nat c := v]> rw) (Z.to_nat r) cells
  else cells.

(** *** Reading a game out of the store *)

Definition derefCell (h : Heap) (c : option loc) : option (option ChessPiece) :=
  match c with
  | None => Some None
  | Some p => match h !! p with
              | Some (OPiece v) => Some (Some v)
              | _ => None
              end
  end.

Definition derefPiece (h : Heap) (p : loc) : option ChessPiece :=
  match h !! p with Some (OPiece v) => Some v | _ => None end.

(** Everything an observer can read through the reference [g]: the fields
    of the game and of every object they lead to. *)
Definition snapshot (h : Heap) (g : loc) : option ChessGame :=
  match h !! g with
  | Some (OGame o) =>
    match h !! boardRef o, h !! historyRef o, h !! capturedRef o,
          h !! kingsRef o with
    | Some (OBoard cells), Some (OHistory hist), Some (OCaptured caps),
      Some (OKings kings) =>
        match mapM (mapM (derefCell h)) cells,
              mapM (derefPiece h) (ofWhite caps),
              mapM (derefPiece h) (ofBlack caps) with
        | Some b, Some cw, Some cb =>
            Some (mkGame b (oCurrentPlayer o) (oGameState o) hist
                    (mkPerColor cw cb) (oLastMove o) kings
                    (oEnPassantTarget o) (oHalfMoveClock o)
                    (oFullMoveNumber o))
        | _, _, _ => None
        end
    | _, _, _, _ => None
    end
  | _ => None
  end.

Definition snap (g : loc) : M ChessGame :=
  fun h => match snapshot h g with Some G => Some (G, h) | None => None end.

(** *** The methods of [ChessGame] on the store *)

(** [this.board[r][c]] *)
Definition hCell (this : loc) (r c : Z) : M (option loc) :=
  o <- readGame this ;;
  cells <- readBoard (boardRef o) ;;
  mret (refAt cells r c).

(** [this.board[r][c] = v] *)
Definition hSetCell (this : loc) (r c : Z) (v : option loc) : M unit :=
  o <- readGame this ;;
  updBoard (boardRef o) (fun cells => setRef cells r c v).

(** [this.getPieceAt(r, c)] *)
Definition hGetPieceAt (this : loc) (r c : Z) : M (option loc) :=
  if (r <? 0) || (r >=? 8) || (c <? 0) || (c >=? 8) then mret None
  else hCell this r c.

Definition withKingsRef (o : GameObject) (k : loc) : GameObject :=
  mkGameObject (boardRef o) (oCurrentPlayer o) (oGameState o) (historyRef o)
    (capturedRef o) (oLastMove o) k (oEnPassantTarget o) (oHalfMoveClock o)
    (oFullMoveNumber o).

Definition whenM (b : bool) (m : M unit) : M unit :=
  if b then m else mret tt.

(** [isLegalMove].  The reads that decide are made on the game as it stands
    in the store ([snap]); the writes are those of the source, in its order.
    [{ ...this.kingPositions }] allocates the copy that the last assignment
    installs. *)
Definition hIsLegalMove (this : loc) (fromRow fromCol toRow toCol : Z)
    : M bool :=
  pl <- hGetPieceAt this fromRow fromCol ;;
  match pl with
  | None => mret false
  | Some p =>
    piece <- readPiece p ;;
    G <- snap this ;;
    if negb (Color_eqb (color piece) (currentPlayer G)) then mret false else
    if negb (hasSquare (getPossibleMoves piece (board G) (contextOf G piece))
                       toRow toCol) then mret false else
    if PieceType_eqb (type piece) KING && (Z.abs (toCol - fromCol) =? 2)
    then mret true else
    o <- readGame this ;;
    kings <- readKings (kingsRef o) ;;
    originalKingPositions <- alloc (OKings kings) ;;
    capturedPiece <- hCell this toRow toCol ;;
    let ep := PieceType_eqb (type piece) PAWN && isEnPassantSquare G toRow toCol in
    let captureRow := captureRowOf (color piece) toRow in
    enPassantCapturedPawn <-
      (if ep then hCell this captureRow toCol else mret None) ;;
    whenM ep (hSetCell this captureRow toCol None) ;;;
    hSetCell this toRow toCol (Some p) ;;;
    hSetCell this fromRow fromCol None ;;;
    updPiece p (fun v => setPos v toRow toCol) ;;;
    whenM (PieceType_eqb (type piece) KING)
      (updKings (kingsRef o)
         (fun k => pcSet k (color piece) (toRow, toCol))) ;;;
    G1 <- snap this ;;
    let isLegal := negb (isInCheck G1 (color piece)) in
    hSetCell this fromRow fromCol (Some p) ;;;
    hSetCell this toRow toCol capturedPiece ;;;
    updPiece p (fun v => setPos v (row piece) (col piece)) ;;;
    updGame this (fun o => withKingsRef o originalKingPositions) ;;;
    whenM (isSome enPassantCapturedPawn)
      (hSetCell this captureRow toCol enPassantCapturedPawn) ;;;
    mret isLegal
  end.

Fixpoint hFilterLegal (this : loc) (fromRow fromCol : Z) (moves : list Square)
    : M (list Square) :=
  match moves with
  | [] => mret []
  | (toRow, toCol) :: rest =>
      ok <- hIsLegalMove this fromRow fromCol toRow toCol ;;
      legalMoves <- hFilterLegal this fromRow fromCol rest ;;
      mret (if ok then (toRow, toCol) :: legalMoves else legalMoves)
  end.

(** [getLegalMoves(piece)] for a piece object [p] *)
Definition hGetLegalMoves (this : loc) (p : loc) : M (list Square) :=
  piece <- readPiece p ;;
  G <- snap this ;;
  hFilterLegal this (row piece) (col piece)
    (getPossibleMoves piece (board G) (contextOf G piece)).

Fixpoint hHasLegalMovesFrom (this : loc) (c : Color) (squares : list Square)
    : M bool :=
  match squares with
  | [] => mret false
  | sq :: rest =>
      pl <- hGetPieceAt this (fst sq) (snd sq) ;;
      match pl with
      | Some p =>
          piece <- readPiece p ;;
          if Color_eqb (color piece) c then
            legalMoves <- hGetLegalMoves this p ;;
            if (0 <? Z.of_nat (length legalMoves)) then mret true
            else hHasLegalMovesFrom this c rest
          else hHasLegalMovesFrom this c rest
      | None => hHasLegalMovesFrom this c rest
      end
  end.

Definition withStatus (o : GameObject) (s : GameState) : GameObject :=
  mkGameObject (boardRef o) (oCurrentPlayer o) s (historyRef o)
    (capturedRef o) (oLastMove o) (kingsRef o) (oEnPassantTarget o)
    (oHalfMoveClock o) (oFullMoveNumber o).

Definition hUpdateGameState (this : loc) : M unit :=
  G <- snap this ;;
  let inCheck := isInCheck G (currentPlayer G) in
  hasMoves <- hHasLegalMovesFrom this (currentPlayer G) allSquares ;;
  updGame this (fun o => withStatus o
    (if inCheck && negb hasMoves then checkmate
     else if negb inCheck && negb hasMoves then stalemate
     else if inCheck then check
     else playing)) ;;;
  G2 <- snap this ;;
  whenM ((halfMoveClock G2 >=? 100) || isInsufficientMaterial G2)
    (updGame this (fun o => withStatus o draw)).

Definition hHandleCastling (this : loc) (fromRow fromCol toRow toCol : Z)
    : M unit :=
  let isKingSide := toCol >? fromCol in
  let rookFromCol := if isKingSide then 7 else 0 in
  let rookToCol := if isKingSide then 5 else 3 in
  rl <- hGetPieceAt this fromRow rookFromCol ;;
  match rl with
  | Some rook =>
      hSetCell this fromRow rookToCol (Some rook) ;;;
      hSetCell this fromRow rookFromCol None ;;;
      updPiece rook (fun v => moveTo v fromRow rookToCol)
  | None => mret tt
  end.

Definition derefOpt (pl : option loc) : M (option ChessPiece) :=
  match pl with
  | Some p => v <- readPiece p ;; mret (Some v)
  | None => mret None
  end.

Definition hMakeMove (this : loc) (fromRow fromCol toRow toCol : Z)
    (promotionPiece : PieceType) : M bool :=
  pl <- hGetPieceAt this fromRow fromCol ;;
  match pl with
  | None => mret false
  | Some p =>
    legal <- hIsLegalMove this fromRow fromCol toRow toCol ;;
    if negb legal then mret false else
    piece <- readPiece p ;;
    G <- snap this ;;
    target <- hGetPieceAt this toRow toCol ;;
    (* en passant capture *)
    let ep := PieceType_eqb (type piece) PAWN && isNone target
              && isEnPassantSquare G toRow toCol in
    let captureRow := captureRowOf (color piece) toRow in
    capturedRef' <- (if ep then hCell this captureRow toCol else mret target) ;;
    whenM ep (hSetCell this captureRow toCol None) ;;;
    capturedPiece <- derefOpt capturedRef' ;;
    let moveNotation :=
      getMoveNotation piece fromRow fromCol toRow toCol capturedPiece in
    (* captures and the half-move clock *)
    o <- readGame this ;;
    (match capturedRef', capturedPiece with
     | Some cl, Some cp =>
         updCaptured (capturedRef o)
           (fun caps => pcSet caps (color cp) (pcGet caps (color cp) ++ [cl]))
     | _, _ => mret tt
     end) ;;;
    updGame this (fun o =>
      mkGameObject (boardRef o) (oCurrentPlayer o) (oGameState o)
        (historyRef o) (capturedRef o) (oLastMove o) (kingsRef o)
        (oEnPassantTarget o)
        (if isSome capturedPiece then 0
         else if PieceType_eqb (type piece) PAWN then 0
         else oHalfMoveClock o + 1)
        (oFullMoveNumber o)) ;;;
    (* move the piece *)
    hSetCell this toRow toCol (Some p) ;;;
    hSetCell this fromRow fromCol None ;;;
    updPiece p (fun v => moveTo v toRow toCol) ;;;
    (* king position *)
    whenM (PieceType_eqb (type piece) KING)
      (updKings (kingsRef o)
         (fun k => pcSet k (color piece) (toRow, toCol))) ;;;
    (* promotion *)
    whenM (PieceType_eqb (type piece) PAWN && ((toRow =? 0) || (toRow =? 7)))
      (updPiece p (fun v => setType v promotionPiece)) ;;;
    final <- readPiece p ;;
    (* castling *)
    whenM (PieceType_eqb (type final) KING && (Z.abs (toCol - fromCol) =? 2))
      (hHandleCastling this fromRow fromCol toRow toCol) ;;;
    (* en passant target, last move *)
    updGame this (fun o =>
      mkGameObject (boardRef o) (oCurrentPlayer o) (oGameState o)
        (historyRef o) (capturedRef o)
        (Some (mkLastMove (fromRow, fromCol) (toRow, toCol) (type final)))
        (kingsRef o)
        (if PieceType_eqb (type final) PAWN && (Z.abs (toRow - fromRow) =? 2)
         then Some (fromRow + (toRow - fromRow) / 2, fromCol) else None)
        (oHalfMoveClock o) (oFullMoveNumber o)) ;;;
    (* record the move *)
    updHistory (historyRef o) (fun l => l ++
      [mkMoveRecord moveNotation (fromRow, fromCol) (toRow, toCol)
         (type final)
         (match capturedPiece with
          | Some cp => Some (type cp)
          | None => None
          end)]) ;;;
    (* switch players *)
    updGame this (fun o =>
      let player := opposite (oCurrentPlayer o) in
      mkGameObject (boardRef o) player (oGameState o)
        (historyRef o) (capturedRef o) (oLastMove o) (kingsRef o)
        (oEnPassantTarget o) (oHalfMoveClock o)
        (if Color_eqb player WHITE
         then oFullMoveNumber o + 1 else oFullMoveNumber o)) ;;;
    hUpdateGameState this ;;;
    mret true
  end.

(** *** Constructors and clones *)

Definition allocCell (c : option ChessPiece) : M (option loc) :=
  match c with
  | Some v => p <- alloc (OPiece v) ;; mret (Some p)
  | None => mret None
  end.

Fixpoint allocRow (rw : list (option ChessPiece)) : M (list (option loc)) :=
  match rw with
  | [] => mret []
  | c :: rest =>
      x <- allocCell c ;; xs <- allocRow rest ;; mret (x :: xs)
  end.

Fixpoint allocRows (b : Board) : M (list (list (option loc))) :=
  match b with
  | [] => mret []
  | rw :: rest =>
      x <- allocRow rw ;; xs <- allocRows rest ;; mret (x :: xs)
  end.

(** [new ChessGame()]: the board arrays with their thirty-two pieces, the
    history array, the [capturedPieces] and [kingPositions] objects, and the
    game itself. *)
Definition hNewGame : M loc :=
  cells <- allocRows initializeBoard ;;
  b <- alloc (OBoard cells) ;;
  hist <- alloc (OHistory []) ;;
  caps <- alloc (OCaptured (mkPerColor [] [])) ;;
  kings <- alloc (OKings (mkPerColor (7, 4) (0, 4))) ;;
  alloc (OGame (mkGameObject b WHITE playing hist caps None kings None 0 1)).

(** The copy loop shared by the three [cloneGame] methods:
    [if (piece) clone.board[row][col] = piece.clone()]. *)
Fixpoint hCopyPieces (src dst : loc) (squares : list Square) : M unit :=
  match squares with
  | [] => mret tt
  | sq :: rest =>
      pl <- hCell src (fst sq) (snd sq) ;;
      (match pl with
       | Some p =>
           v <- readPiece p ;;
           q <- alloc (OPiece (clonePiece v)) ;;
           hSetCell dst (fst sq) (snd sq) (Some q)
       | None => mret tt
       end) ;;;
      hCopyPieces src dst rest
  end.

(** [ChessGame.cloneGame()].  The spread [[...this.capturedPieces.WHITE]]
    makes new arrays that hold the same piece objects. *)
Definition hCloneGame (this : loc) : M loc :=
  clone <- hNewGame ;;
  hCopyPieces this clone allSquares ;;;
  o <- readGame this ;;
  kings <- readKings (kingsRef o) ;;
  caps <- readCaptured (capturedRef o) ;;
  hist <- readHistory (historyRef o) ;;
  kings' <- alloc (OKings kings) ;;
  caps' <- alloc (OCaptured (mkPerColor (ofWhite caps) (ofBlack caps))) ;;
  hist' <- alloc (OHistory hist) ;;
  updGame clone (fun c =>
    mkGameObject (boardRef c) (oCurrentPlayer o) (oGameState o) hist' caps'
      (oLastMove o) kings' (oEnPassantTarget o) (oHalfMoveClock o)
      (oFullMoveNumber o)) ;;;
  mret clone.

(** [ChessAI.cloneGame(game)] and [EnhancedChessAI.cloneGame(game)] *)
Definition hAiCloneGame (game : loc) : M loc :=
  cloned <- hNewGame ;;
  hCopyPieces game cloned allSquares ;;;
  o <- readGame game ;;
  kings <- readKings (kingsRef o) ;;
  kings' <- alloc (OKings kings) ;;
  updGame cloned (fun c =>
    mkGameObject (boardRef c) (oCurrentPlayer o) (oGameState o)
      (historyRef c) (capturedRef c) (oLastMove c) kings'
      (oEnPassantTarget o) (oHalfMoveClock o) (oFullMoveNumber o)) ;;;
  mret cloned.

(** A sequence of [makeMove] calls on one game. *)
Fixpoint hPlayAll (this : loc) (moves : list (Square * Square * PieceType))
    : M (list bool) :=
  match moves with
  | [] => mret []
  | (from, to, promotion) :: rest =>
      ok <- hMakeMove this (fst from) (snd from) (fst to) (snd to) promotion ;;
      oks <- hPlayAll this rest ;;
      mret (ok :: oks)
  end.

End StoreMethods.

(** * Statement-level vocabulary *)

(** A pawn's two-square advance: the pawn leaves its starting row and lands
    two rows further on the same file. *)
Definition isDoubleAdvance (p : ChessPiece) (fromRow fromCol toRow toCol : Z)
    : Prop :=
  type p = PAWN
  /\ fromRow = startRow (color p)
  /\ toRow = fromRow + 2 * direction (color p)
  /\ toCol = fromCol.

(** The three inputs of the status computation, read off a game. *)
Definition inCheckNow (g : ChessGame) : bool := isInCheck g (currentPlayer g).
Definition canMove (g : ChessGame) : bool :=
  fst (hasLegalMoves g (currentPlayer g)).
Definition drawn (g : ChessGame) : bool :=
  (halfMoveClock g >=? 100) || isInsufficientMaterial g.

(** The status in the order the specification lists the cases: checkmate,
    stalemate, draw, check, playing. *)
Definition statusAsListed (inCheck hasMoves isDrawn : bool) : GameState :=
  if inCheck && negb hasMoves then checkmate
  else if negb inCheck && negb hasMoves then stalemate
  else if isDrawn then draw
  else if inCheck then check
  else playing.

(** The same cases with the draw test first. *)
Definition statusDrawFirst (inCheck hasMoves isDrawn : bool) : GameState :=
  if isDrawn then draw
  else if inCheck && negb hasMoves then checkmate
  else if negb inCheck && negb hasMoves then stalemate
  else if inCheck then check
  else playing.

(** ** Example positions *)

Definition place (b : Board) (p : ChessPiece) : Board :=
  setCell b (row p) (col p) (Some p).

Definition moved (t : PieceType) (c : Color) (r k : Z) : ChessPiece :=
  mkPiece t c r k true.

(** White: Kg1, Ra1.  Black: Kg8, pawns f7 g7 h7 on their starting squares.
    White to move after 99 half-moves without a capture or pawn move. *)
Definition backRankPosition : ChessGame :=
  mkGame
    (fold_left place
       [moved KING WHITE 7 6; moved ROOK WHITE 7 0; moved KING BLACK 0 6;
        newPiece PAWN BLACK 1 5; newPiece PAWN BLACK 1 6;
        newPiece PAWN BLACK 1 7] emptyBoard)
    WHITE playing [] (mkPerColor [] []) None
    (mkPerColor (7, 6) (0, 6)) None 99 60.

(** ... and the position after Ra1-a8. *)
Definition backRankMate : ChessGame :=
  snd (makeMove backRankPosition 7 0 0 0 QUEEN).

(** Replaying a list of moves with the default promotion piece. *)
Fixpoint playAll (g : ChessGame) (moves : list (Square * Square))
    : list bool * ChessGame :=
  match moves with
  | [] => ([], g)
  | (from, to) :: rest =>
      let '(ok, g1) := makeMove g (fst from) (snd from) (fst to) (snd to) QUEEN in
      let '(oks, g2) := playAll g1 rest in
      (ok :: oks, g2)
  end.

(** 1. h4 g5 2. e3 gxh4 3. Nf3 h3 4. Be2 h2: a black pawn stands on h2 next
    to White's unmoved king and rook, with f1 and g1 empty. *)
Definition pawnOnH2Line : list (Square * Square) :=
  [((6, 7), (4, 7)); ((1, 6), (3, 6)); ((6, 4), (5, 4)); ((3, 6), (4, 7));
   ((7, 6), (5, 5)); ((4, 7), (5, 7)); ((7, 5), (6, 4)); ((5, 7), (6, 7))].

Definition beforeCastling : ChessGame := snd (playAll newGame pawnOnH2Line).

(** 5. O-O *)
Definition afterCastling : ChessGame :=
  snd (makeMove beforeCastling 7 4 7 6 QUEEN).

(** 5... hxg1 *)
Definition afterKingCapture : ChessGame :=
  snd (makeMove afterCastling 6 7 7 6 QUEEN).

(** The squares of the board that hold a king of colour [c]. *)
Definition kingSquares (g : ChessGame) (c : Color) : list Square :=
  List.filter (fun sq =>
    match getPieceAt g (fst sq) (snd sq) with
    | Some p => PieceType_eqb (type p) KING && Color_eqb (color p) c
    | None => false
    end) allSquares.

(** [kingPositions[c]] is the one square that holds [c]'s king. *)
Definition kingCacheAgrees (g : ChessGame) : Prop :=
  forall c, kingSquares g c = [pcGet (kingPositions g) c].

(** Bare material in the words of the specification. *)
Definition isMinor (t : PieceType) : bool :=
  match t with BISHOP | KNIGHT => true | _ => false end.

Definition loneKing (l : list PieceType) : Prop := l = [KING].

Definition kingAndMinor (l : list PieceType) : Prop :=
  exists t, isMinor t = true /\ (l = [KING; t] \/ l = [t; KING]).

Definition bareMaterial (g : ChessGame) : Prop :=
  (loneKing (typesOf g WHITE) /\ loneKing (typesOf g BLACK))
  \/ (kingAndMinor (typesOf g WHITE) /\ loneKing (typesOf g BLACK))
  \/ (kingAndMinor (typesOf g BLACK) /\ loneKing (typesOf g WHITE)).

Definition oneKing (l : list PieceType) : Prop :=
  length (List.filter (fun t => PieceType_eqb t KING) l) = 1%nat.

(** Full minimax in the words of the specification: no pruning and no
    table, over the move generator, the child positions and the leaf
    evaluation of [minimax]. *)
Fixpoint fullMinimax (depth : nat) (g : ChessGame) (isMaximizing : bool)
    : Score :=
  match depth with
  | O => Fin (evaluatePosition g)
  | S depth' =>
    match gameState g with
    | playing =>
      match getAllPossibleMoves g with
      | [] => Fin (if isInCheck g (currentPlayer g) then -20000 else 0)
      | moves =>
          fold_left (fun best m =>
            let '(ok, child) := playOnClone g m in
            if ok then
              let score := fullMinimax depth' child (negb isMaximizing) in
              if isMaximizing then Score_max best score
              else Score_min best score
            else best)
            moves (if isMaximizing then NegInf else PosInf)
      end
    | _ => Fin (evaluatePosition g)
    end
  end.

(** ** Sample engines and oracles *)

Definition zeroZobrist : ZobristTable :=
  mkZobrist (fun _ _ => replicate 64 0) 0 (replicate 4 0) (replicate 8 0).

(** A stand-in for the recursive search where a closed instance needs one. *)
Definition idleSearch (ai : EnhancedChessAI) (g : ChessGame) (depth : Z)
    (alpha beta : Score) (isMaximizing : bool) : Score * SearchTables :=
  (Fin 0, tables ai).

Definition world0 : World := mkWorld 0 0.

(** A clock that reads [0] when the search starts and nine seconds later at
    every later read. *)
Definition slowClock (n : nat) : Z :=
  match n with O => 0 | S _ => 9000 end.

Definition steadyClock (n : nat) : Z := 0.

Definition drawLow (n : nat) : Q := (0 # 1)%Q.
Definition drawHigh (n : nat) : Q := (1 # 2)%Q.

(** The position after 1. c4. *)
Definition afterC4 : ChessGame := snd (makeMove newGame 6 2 4 2 QUEEN).

(** The opening book has something to say about the game's history. *)
Definition bookApplies (ai : EnhancedChessAI) (g : ChessGame) : bool :=
  useOpeningBook ai && (moveCount ai + 1 <=? 10)
  && match bookLookup (openingBook ai) (historyKey g) with
     | Some (_ :: _) => true
     | _ => false
     end.


(** ** Vocabulary for the store

    [h0] is the store at the moment a game is cloned and [c] the clone.
    The invariant says that the store still holds every object of [h0]
    unchanged, and that the clone, the objects its fields refer to and the
    pieces on its board were all created later. *)

Definition freshRefs (h0 : Heap) (cells : list (list (option loc))) : Prop :=
  forall rw p, rw ∈ cells -> Some p ∈ rw -> p ∉ dom h0.

Definition freshObject (h0 : Heap) (o : GameObject) : Prop :=
  (boardRef o ∉ dom h0) /\ (historyRef o ∉ dom h0)
  /\ (capturedRef o ∉ dom h0) /\ (kingsRef o ∉ dom h0).

Definition Inv (h0 : Heap) (c : loc) (h : Heap) : Prop :=
  h0 ⊆ h
  /\ exists o cells,
       h !! c = Some (OGame o) /\ (c ∉ dom h0) /\ freshObject h0 o
       /\ h !! boardRef o = Some (OBoard cells) /\ freshRefs h0 cells.

(** A method body keeps the invariant and returns a value satisfying [Q]. *)
Definition triple (h0 : Heap) (c : loc) {A} (m : M A) (Q : A -> Prop) : Prop :=
  forall h a h', Inv h0 c h -> m h = Some (a, h') -> Inv h0 c h' /\ Q a.

(** A method body that only reads. *)
Definition pureM {A} (m : M A) : Prop :=
  forall h a h', m h = Some (a, h') -> h' = h.

Definition freshOpt (h0 : Heap) (v : option loc) : Prop :=
  forall p, v = Some p -> p ∉ dom h0.

(** The two ways of cloning a game. *)
Definition isClone (clone : loc -> M loc) : Prop :=
  clone = hCloneGame \/ clone = hAiCloneGame.

(** A store holding a new game on which 1. e4 has been played, and the
    reference to that game. *)
Definition sampleStore : option (loc * Heap) :=
  mbind hNewGame
    (fun g => mbind (hMakeMove g 6 4 4 4 QUEEN) (fun _ => mret g)) ∅.

Definition sampleHeap : Heap :=
  match sampleStore with Some (_, h) => h | None => ∅ end.
Definition sampleGame : loc :=
  match sampleStore with Some (g, _) => g | None => 1%positive end.

Definition sampleMoves : list (Square * Square * PieceType) :=
  [((1, 4), (3, 4), QUEEN); ((7, 6), (5, 5), QUEEN); ((1, 3), (3, 3), QUEEN);
   ((4, 4), (3, 3), QUEEN)].

Definition afterE4 : ChessGame := snd (makeMove newGame 6 4 4 4 QUEEN).

(** The sample game cloned with [ChessGame.cloneGame], and the clone played
    on. *)
Definition sampleCloneRun : option (loc * Heap) :=
  hCloneGame sampleGame sampleHeap.
Definition sampleClone : loc :=
  match sampleCloneRun with Some (c, _) => c | None => 1%positive end.
Definition sampleCloneHeap : Heap :=
  match sampleCloneRun with Some (_, h) => h | None => ∅ end.
Definition samplePlayRun : option (list bool * Heap) :=
  hPlayAll sampleClone sampleMoves sampleCloneHeap.
Definition sampleResults : list bool :=
  match samplePlayRun with Some (oks, _) => oks | None => [] end.
Definition sampleFinalHeap : Heap :=
  match samplePlayRun with Some (_, h) => h | None => ∅ end.

(** * Further vocabulary *)

(** ** Vocabulary for the move generators *)

(** The lines a long-range piece moves along, as unit steps. *)
Definition lineDirections (t : PieceType) : list (Z * Z) :=
  match t with
  | ROOK => [(0, 1); (0, -1); (1, 0); (-1, 0)]
  | BISHOP => [(1, 1); (1, -1); (-1, 1); (-1, -1)]
  | QUEEN => [(0, 1); (0, -1); (1, 0); (-1, 0);
              (1, 1); (1, -1); (-1, 1); (-1, -1)]
  | _ => []
  end.

(** The squares strictly between a piece and the [k]-th square along
    direction [d] are empty. *)
Definition clearPath (b : Board) (p : ChessPiece) (d : Z * Z) (k : Z) : Prop :=
  forall j, 1 <= j < k ->
    cell b (row p + fst d * j) (col p + snd d * j) = None.

(** The square is empty or holds a piece of the other colour. *)
Definition notOwn (b : Board) (p : ChessPiece) (r c : Z) : Prop :=
  match cell b r c with
  | Some q => color q <> color p
  | None => True
  end.

Definition holdsEnemy (b : Board) (p : ChessPiece) (r c : Z) : Prop :=
  exists q, cell b r c = Some q /\ color q <> color p.

(** ** Vocabulary for the rules engine *)

(** The en-passant target, when set, is an empty square. *)
Definition enPassantSquareEmpty (g : ChessGame) : Prop :=
  forall ep, enPassantTarget g = Some ep ->
    cell (board g) (fst ep) (snd ep) = None.

(** The move is a king's two-column step, which [makeMove] treats as
    castling. *)
Definition isCastlingStep (piece : ChessPiece) (fromCol toCol : Z) : bool :=
  PieceType_eqb (type piece) KING && (Z.abs (toCol - fromCol) =? 2).

(** The type a piece has after it landed on [toRow]: a pawn that reaches the
    first or last row takes the promotion type. *)
Definition typeAfterMove (piece : ChessPiece) (toRow : Z)
    (promotionPiece : PieceType) : PieceType :=
  if PieceType_eqb (type piece) PAWN && ((toRow =? 0) || (toRow =? 7))
  then promotionPiece else type piece.

(** The row on which a side's king and rooks start. *)
Definition homeRow (c : Color) : Z :=
  match c with WHITE => 7 | BLACK => 0 end.

(** Two boards that agree, square by square, on whether the square is
    occupied and by which colour. *)
Definition sameColours (b b' : Board) : Prop :=
  forall r c, option_map color (cell b r c) = option_map color (cell b' r c).

(** The square [kingPositions] records for the side to move holds a piece. *)
Definition kingSquareOccupied (g : ChessGame) : Prop :=
  cell (board g) (fst (pcGet (kingPositions g) (currentPlayer g)))
       (snd (pcGet (kingPositions g) (currentPlayer g))) <> None.

(** ** Vocabulary for the engines *)

(** No element of the list is outscored by a later one. *)
Fixpoint descending {A} (score : A -> Z) (l : list A) : Prop :=
  match l with
  | [] => True
  | x :: rest => Forall (fun y => score y <= score x) rest
                 /\ descending score rest
  end.

(** 1. e4 a6 2. e5 d5: White can take the a6 pawn with the bishop and the
    d5 pawn en passant. *)
Definition enPassantChance : ChessGame :=
  snd (playAll newGame
         [((6, 4), (4, 4)); ((1, 0), (2, 0)); ((4, 4), (3, 4));
          ((1, 3), (3, 3))]).

(** ** Vocabulary for the basic engine's table *)

(** How a slot of the transposition table may change during a search of
    depth [depth]: it keeps its entry, or it takes an entry of a depth that
    is at most [depth] and larger than the depth of the entry it had. *)
Definition deepened (depth : nat) (old new : option SearchResult) : Prop :=
  new = old
  \/ exists e d1,
       new = Some e /\ resDepth e = Some d1 /\ (d1 <= depth)%nat
       /\ forall e0 d0, old = Some e0 -> resDepth e0 = Some d0 -> (d0 < d1)%nat.


(** Two squares contribute the same two letters to [getBoardHash]. *)
Definition sameLetters (o o' : option ChessPiece) : Prop :=
  match o, o' with
  | None, None => True
  | Some p, Some q =>
      color p = color q /\ typeInitial (type p) = typeInitial (type q)
  | _, _ => False
  end.

(** ** chess-ai.js: [getBestMove] *)

(** The moves [getBestMove] collects when the side to move is in check:
    for every piece of that side and every legal target, the move is kept
    if it succeeds on a clone of the game and the clone's [isInCheck] for
    that side is then false. *)
Definition checkEscapes (g : ChessGame) : list Move :=
  let aiColor := currentPlayer g in
  flat_map (fun piece =>
    flat_map (fun sq =>
      let '(ok, gameClone) :=
        makeMove (cloneGame g) (row piece) (col piece) (fst sq) (snd sq)
                 QUEEN in
      if ok && negb (isInCheck gameClone aiColor) then
        [mkMove (row piece, col piece) sq (type piece)
           (match getPieceAt g (fst sq) (snd sq) with
            | Some capturedPiece => Some (type capturedPiece)
            | None => None
            end)]
      else [])
      (fst (getLegalMoves g (Some piece))))
    (getPieces g aiColor).

(** [ChessAI.getBestMove(game)] for an engine of the given difficulty.  The
    two clock reads only feed the log.  As [evaluatePosition] above, this
    covers difficulty 3 and above. *)
Definition basicGetBestMove (now : nat -> Z) (random : nat -> Q) (w : World)
    (difficulty : Z) (g : ChessGame) : option Move * World * ChessAI :=
  let ai := freshAI in
  let '(_, w1) := dateNow now w in
  let aiColor := currentPlayer g in
  let escape :=
    if isInCheck g aiColor then
      let allMoves := checkEscapes g in
      if (0 <? Z.of_nat (length allMoves)) then
        let '(u, w2) := mathRandom random w1 in
        Some (allMoves !! floorTimes u (length allMoves), w2, ai)
      else None
    else None in
  match escape with
  | Some answer => answer
  | None =>
      let '(result, ai1) :=
        minimax (basicDepthFromDifficulty difficulty) ai g NegInf PosInf true in
      let '(_, w2) := dateNow now w1 in
      (resMove result, w2, ai1)
  end.

(** 1. e4 f5 2. Qh5+: Black is in check and can answer with g6. *)
Definition queenCheck : ChessGame :=
  snd (playAll newGame
         [((6, 4), (4, 4)); ((1, 5), (3, 5)); ((7, 3), (3, 7))]).

(** ** Vocabulary for counting pieces *)

(** Whether a square's content is a piece of colour [k], as a number. *)
Definition ofColour (k : Color) (o : option ChessPiece) : nat :=
  match o with
  | Some p => if Color_eqb (color p) k then 1%nat else 0%nat
  | None => 0%nat
  end.

(** The number of pieces of colour [k] on a board. *)
Definition countOnBoard (b : Board) (k : Color) : nat :=
  sum_list (map (fun sq => ofColour k (cell b (fst sq) (snd sq))) allSquares).

(** When an en-passant target is set, the pawn that can be taken stands
    right behind it: the square one row further, seen from the side to
    move, holds a piece of the other colour. *)
Definition enPassantPawnBehind (g : ChessGame) : Prop :=
  forall r c, enPassantTarget g = Some (r, c) ->
    exists q, cell (board g) (r - direction (currentPlayer g)) c = Some q
              /\ color q = opposite (currentPlayer g).

(** 1. e4 d5: White can take on d5, and d6 is the en-passant target. *)
Definition centreTension : ChessGame :=
  snd (playAll newGame [((6, 4), (4, 4)); ((1, 3), (3, 3))]).

(** ** chess-logic.js: [cloneBoard] *)

(** [cloneBoard()]: unlike [cloneGame], the copy starts from an array of
    [null]s. *)
Definition cloneBoard (g : ChessGame) : Board :=
  fold_left (fun b sq =>
    match cell (board g) (fst sq) (snd sq) with
    | Some piece => setCell b (fst sq) (snd sq) (Some (clonePiece piece))
    | None => b
    end) allSquares emptyBoard.

(** ** chess-ai-enhanced.js: the capture list of the quiescence search *)

(** [getCaptureMoves(game)].  The fields [capturedValue] and
    [attackerValue] it adds to each move are [PIECE_VALUES] of [captured]
    and of [piece]; they are worked out where they are used. *)
Definition getCaptureMoves (g : ChessGame) : list Move :=
  flat_map (fun piece =>
    flat_map (fun sq =>
      match getPieceAt g (fst sq) (snd sq) with
      | Some capturedPiece =>
          [mkMove (row piece, col piece) sq (type piece)
                  (Some (type capturedPiece))]
      | None => []
      end)
      (fst (getLegalMoves g (Some piece))))
    (getPieces g (currentPlayer g)).

(** The sort key of [orderCapturesByMVVLVA]:
    [capturedValue - attackerValue / 10], an integer since every piece value
    is a multiple of ten.  It is used on capture moves only. *)
Definition mvvLvaScore (m : Move) : Z :=
  (match mvCaptured m with Some t => PIECE_VALUES t | None => 0 end)
  - PIECE_VALUES (mvPiece m) / 10.

(** [orderCapturesByMVVLVA(moves)] *)
Definition orderCapturesByMVVLVA (moves : list Move) : list Move :=
  sortByScore mvvLvaScore moves.

(** ** Vocabulary for the opening book *)

(** A move as the history key and the book write it: the name of the
    from-square followed by the name of the to-square. *)
Definition moveName (m : Square * Square) : string :=
  squareName (fst (fst m)) (snd (fst m))
  +:+ squareName (fst (snd m)) (snd (snd m)).

(** Both squares of a move lie on the board. *)
Definition moveOnBoard (m : Square * Square) : Prop :=
  onBoard (fst (fst m)) (snd (fst m)) = true
  /\ onBoard (fst (snd m)) (snd (snd m)) = true.

(** The moves of a line of the book, read off its key. *)
Definition bookLines : list (list (Square * Square)) :=
  [ [((6, 4), (4, 4)); ((1, 4), (3, 4)); ((7, 6), (5, 5)); ((0, 1), (2, 2));
     ((7, 5), (4, 2))];
    [((6, 4), (4, 4)); ((1, 2), (3, 2))];
    [((6, 4), (4, 4)); ((1, 4), (2, 4))];
    [((6, 3), (4, 3)); ((1, 3), (3, 3)); ((6, 2), (4, 2))];
    [((6, 3), (4, 3)); ((0, 6), (2, 5)); ((6, 2), (4, 2)); ((1, 6), (2, 6))];
    [((6, 4), (4, 4)); ((1, 4), (3, 4)); ((7, 6), (5, 5)); ((0, 1), (2, 2));
     ((7, 5), (3, 1))];
    [((6, 2), (4, 2))];
    [((6, 4), (4, 4)); ((1, 2), (2, 2))] ].

(** * Properties *)

(** ** Board algebra *)

Section BoardFacts.
Implicit Types (b : Board) (r c : Z) (v : option ChessPiece).

Lemma boardShapeb_spec b : boardShapeb b = true <-> boardShape b.
Proof.
  unfold boardShapeb, boardShape.
  rewrite andb_true_iff, Nat.eqb_eq, forallb_forall.
  split; intros [H1 H2]; split; auto; intros rw Hin.
  - apply Nat.eqb_eq, H2. by apply list_elem_of_In.
  - apply Nat.eqb_eq, H2. by apply list_elem_of_In.
Qed.

Lemma onBoard_spec r c : onBoard r c = true <-> 0 <= r < 8 /\ 0 <= c < 8.
Proof. unfold onBoard. rewrite !andb_true_iff. lia. Qed.

Lemma elem_allSquares r c : (r, c) ∈ allSquares <-> 0 <= r < 8 /\ 0 <= c < 8.
Proof.
  unfold allSquares. rewrite list_elem_of_In, in_flat_map. split.
  - intros (x & Hx & Hin). apply in_map_iff in Hin as (y & Heq & Hy).
    inversion Heq; subst.
    apply list_elem_of_In, elem_of_seqZ in Hx.
    apply list_elem_of_In, elem_of_seqZ in Hy. lia.
  - intros [Hr Hc]. exists r. split.
    + apply list_elem_of_In, elem_of_seqZ. lia.
    + apply in_map_iff. exists c. split; [done|].
      apply list_elem_of_In, elem_of_seqZ. lia.
Qed.

Lemma cell_Some_onBoard b r c p :
  boardShape b -> cell b r c = Some p -> onBoard r c = true.
Proof.
  intros [Hlen Hrows] Hc. unfold cell in Hc.
  destruct (0 <=? r) eqn:Hr, (0 <=? c) eqn:Hcc; simpl in Hc; try done.
  destruct (b !! Z.to_nat r) as [rw|] eqn:Hrw; [|done].
  destruct (rw !! Z.to_nat c) as [x|] eqn:Hx; [|done].
  apply lookup_lt_Some in Hx.
  pose proof (lookup_lt_Some _ _ _ Hrw) as Hlt.
  rewrite (Hrows rw) in Hx by (eapply list_elem_of_lookup_2; eauto).
  apply onBoard_spec. lia.
Qed.

Lemma setCell_shape b r c v : boardShape b -> boardShape (setCell b r c v).
Proof.
  intros [Hlen Hrows]. unfold setCell.
  destruct ((0 <=? r) && (0 <=? c)); [|done].
  split; [by rewrite length_alter|].
  intros rw Hin. apply list_elem_of_lookup in Hin as [i Hi].
  destruct (decide (Z.to_nat r = i)) as [Heq|Hne].
  - subst i. rewrite list_lookup_alter_eq in Hi.
    destruct (b !! Z.to_nat r) as [rw0|] eqn:Hrw0; simplify_eq/=.
    rewrite length_insert. eapply Hrows, list_elem_of_lookup_2; eauto.
  - rewrite list_lookup_alter_ne in Hi by done.
    eapply Hrows, list_elem_of_lookup_2; eauto.
Qed.

Lemma cell_setCell b r c v r' c' :
  boardShape b ->
  cell (setCell b r c v) r' c' =
    if decide (r = r' /\ c = c' /\ onBoard r c = true) then v
    else cell b r' c'.
Proof.
  intros [Hlen Hrows]. unfold setCell, cell.
  case_decide as Hd.
  - destruct Hd as (<- & <- & Hon). apply onBoard_spec in Hon.
    replace (0 <=? r) with true by lia. replace (0 <=? c) with true by lia.
    simpl. rewrite list_lookup_alter_eq.
    destruct (b !! Z.to_nat r) as [rw|] eqn:Hrw.
    + simpl. rewrite list_lookup_insert_eq; [done|].
      rewrite (Hrows rw) by (eapply list_elem_of_lookup_2; eauto). lia.
    + apply lookup_ge_None in Hrw. lia.
  - destruct (0 <=? r) eqn:Hr, (0 <=? c) eqn:Hc; simpl; try done.
    destruct (0 <=? r') eqn:Hr', (0 <=? c') eqn:Hc'; simpl; try done.
    destruct (decide (Z.to_nat r = Z.to_nat r')) as [Heq|Hne].
    + rewrite <- Heq, list_lookup_alter_eq.
      destruct (b !! Z.to_nat r) as [rw|] eqn:Hrw; simpl; [|done].
      destruct (decide (Z.to_nat c = Z.to_nat c')) as [Heq'|Hne'].
      * assert (r = r') by lia. assert (c = c') by lia. subst.
        rewrite list_insert_ge; [done|].
        rewrite (Hrows rw) by (eapply list_elem_of_lookup_2; eauto).
        apply lookup_lt_Some in Hrw.
        destruct (decide (c' < 8)); [|lia].
        exfalso. apply Hd. repeat split. apply onBoard_spec. lia.
      * by rewrite list_lookup_insert_ne.
    + by rewrite list_lookup_alter_ne.
Qed.

Lemma board_ext b b' :
  boardShape b -> boardShape b' ->
  (forall r c, onBoard r c = true -> cell b r c = cell b' r c) ->
  b = b'.
Proof.
  intros [Hlen Hrows] [Hlen' Hrows'] Hcell.
  apply list_eq_same_length with 8%nat; [done..|].
  intros i rw rw' Hi Hrw Hrw'.
  apply list_eq_same_length with 8%nat.
  - eapply Hrows', list_elem_of_lookup_2; eauto.
  - eapply Hrows, list_elem_of_lookup_2; eauto.
  - intros j x y Hj Hx Hy.
    specialize (Hcell (Z.of_nat i) (Z.of_nat j)).
    unfold cell in Hcell.
    replace (0 <=? Z.of_nat i) with true in Hcell by lia.
    replace (0 <=? Z.of_nat j) with true in Hcell by lia.
    simpl in Hcell. rewrite !Nat2Z.id, Hrw, Hrw', Hx, Hy in Hcell.
    apply Hcell, onBoard_spec. lia.
Qed.

Lemma setCell_same b r c :
  boardShape b -> setCell b r c (cell b r c) = b.
Proof.
  intros Hs. apply board_ext; [by apply setCell_shape|done|].
  intros r' c' _. rewrite cell_setCell by done.
  case_decide as Hd; [|done]. by destruct Hd as (<- & <- & _).
Qed.
End BoardFacts.

(** ** The speculative move of [isLegalMove] is undone exactly *)

Section Restore.
Implicit Types (g : ChessGame) (b : Board).

Lemma getPieceAt_cell g r c p :
  getPieceAt g r c = Some p -> cell (board g) r c = Some p.
Proof.
  unfold getPieceAt. by destruct ((r <? 0) || (r >=? 8) || (c <? 0) || (c >=? 8)).
Qed.

Lemma setPos_back p r c : setPos (setPos p r c) (row p) (col p) = p.
Proof. by destruct p. Qed.

Lemma isLegalMove_restores g fromRow fromCol toRow toCol :
  boardShape (board g) ->
  snd (isLegalMove g fromRow fromCol toRow toCol) = g.
Proof.
  intros Hs. unfold isLegalMove.
  destruct (getPieceAt g fromRow fromCol) as [piece|] eqn:Hp; [|done].
  apply getPieceAt_cell in Hp.
  repeat (match goal with |- context [if ?x then _ else _] =>
            match x with
            | negb _ => destruct x; [done|]
            | _ && (Z.abs _ =? 2) => destruct x; [done|]
            end end).
  cbn [snd]. rewrite setPos_back.
  set (ep := PieceType_eqb (type piece) PAWN && isEnPassantSquare g toRow toCol).
  set (cr := captureRowOf (color piece) toRow).
  assert (cr <> toRow) as Hcr by (unfold cr, captureRowOf; destruct (color piece); lia).
  destruct g as [b cp gs mh caps lm kp ept hm fm]. cbn in *.
  unfold withKingPositions, withBoard. cbn. f_equal.
  apply board_ext; [|done|].
  { destruct (if ep then cell b cr toCol else None); destruct ep;
      repeat apply setCell_shape; done. }
  intros r c _.
  destruct ep.
  - destruct (cell b cr toCol) as [pawn|] eqn:Hpawn;
      rewrite ?cell_setCell by (repeat apply setCell_shape; done);
      repeat case_decide; destruct_and?; subst; try congruence; try lia.
  - rewrite ?cell_setCell by (repeat apply setCell_shape; done);
      repeat case_decide; destruct_and?; subst; try congruence; try lia.
Qed.

Lemma filterLegal_restores g fromRow fromCol moves :
  boardShape (board g) ->
  snd (filterLegal g fromRow fromCol moves) = g.
Proof.
  intros Hs. induction moves as [|[toRow toCol] rest IH]; [done|].
  cbn [filterLegal].
  pose proof (isLegalMove_restores g fromRow fromCol toRow toCol Hs) as Hr.
  destruct (isLegalMove g fromRow fromCol toRow toCol) as [ok g1].
  cbn in Hr. subst g1.
  destruct (filterLegal g fromRow fromCol rest) as [l g2]. done.
Qed.

Lemma getLegalMoves_restores g piece :
  boardShape (board g) -> snd (getLegalMoves g piece) = g.
Proof.
  intros Hs. destruct piece as [p|]; [|done].
  by apply filterLegal_restores.
Qed.

Lemma hasLegalMovesFrom_restores g c squares :
  boardShape (board g) -> snd (hasLegalMovesFrom g c squares) = g.
Proof.
  intros Hs. induction squares as [|sq rest IH]; [done|].
  cbn [hasLegalMovesFrom].
  destruct (getPieceAt g (fst sq) (snd sq)) as [piece|]; [|done].
  destruct (Color_eqb (color piece) c); [|done].
  pose proof (getLegalMoves_restores g (Some piece) Hs) as Hr.
  destruct (getLegalMoves g (Some piece)) as [l g1].
  cbn in Hr. subst g1.
  by destruct (0 <? Z.of_nat (length l)).
Qed.

Lemma hasLegalMoves_restores g c :
  boardShape (board g) -> snd (hasLegalMoves g c) = g.
Proof. apply hasLegalMovesFrom_restores. Qed.
End Restore.

(** ** What a well-formed game provides *)

Section WellFormed.
Implicit Types (g : ChessGame) (b : Board).

Lemma piecesPlacedb_spec b :
  boardShape b -> piecesPlacedb b = true -> piecesPlaced b.
Proof.
  intros Hs Hf r c p Hc. unfold piecesPlacedb in Hf.
  rewrite forallb_forall in Hf.
  pose proof (cell_Some_onBoard _ _ _ _ Hs Hc) as Hon.
  apply onBoard_spec in Hon.
  specialize (Hf (r, c)). cbn in Hf. rewrite Hc in Hf.
  assert ((row p =? r) && (col p =? c) = true) as Hrc.
  { apply Hf, list_elem_of_In, elem_allSquares. lia. }
  apply andb_true_iff in Hrc. lia.
Qed.

Lemma wellFormed_shape g : wellFormed g = true -> boardShape (board g).
Proof.
  unfold wellFormed. rewrite !andb_true_iff.
  intros [[H _] _]. by apply boardShapeb_spec.
Qed.

Lemma wellFormed_placed g : wellFormed g = true -> piecesPlaced (board g).
Proof.
  intros Hwf. pose proof (wellFormed_shape g Hwf) as Hs.
  unfold wellFormed in Hwf. rewrite !andb_true_iff in Hwf.
  destruct Hwf as [[_ H] _]. by apply piecesPlacedb_spec.
Qed.

Lemma wellFormed_enPassant g r c :
  wellFormed g = true -> enPassantTarget g = Some (r, c) ->
  onBoard r c = true.
Proof.
  unfold wellFormed. rewrite !andb_true_iff.
  intros [_ H] Hep. by rewrite Hep in H.
Qed.

Lemma getPieceAt_placed g r c p :
  wellFormed g = true -> getPieceAt g r c = Some p ->
  row p = r /\ col p = c.
Proof.
  intros Hwf Hp. eapply wellFormed_placed; [done|].
  by apply getPieceAt_cell.
Qed.
End WellFormed.

(** ** Rejected moves *)

Lemma makeMove_rejected g fromRow fromCol toRow toCol promotionPiece :
  boardShape (board g) ->
  getPieceAt g fromRow fromCol = None
  \/ fst (isLegalMove g fromRow fromCol toRow toCol) = false ->
  makeMove g fromRow fromCol toRow toCol promotionPiece = (false, g).
Proof.
  intros Hs Hrej. unfold makeMove.
  destruct (getPieceAt g fromRow fromCol) as [piece|] eqn:Hp; [|done].
  destruct Hrej as [?|Hrej]; [done|].
  pose proof (isLegalMove_restores g fromRow fromCol toRow toCol Hs) as Hr.
  destruct (isLegalMove g fromRow fromCol toRow toCol) as [legal g1].
  cbn in *. by subst.
Qed.

(** C2.  On a well-formed game, when the from-square is empty or the move is
    not legal, [makeMove] returns [false] and the game it leaves behind is the
    game it was given, field for field; and the speculative play-and-revert
    of [isLegalMove] hands back the very same game for every pair of
    squares, legal or not. *)
Theorem makeMove_illegal_leaves_state_unchanged
    g fromRow fromCol toRow toCol promotionPiece :
  wellFormed g = true ->
  getPieceAt g fromRow fromCol = None
  \/ fst (isLegalMove g fromRow fromCol toRow toCol) = false ->
  makeMove g fromRow fromCol toRow toCol promotionPiece = (false, g)
  /\ (forall fr fc tr tc, snd (isLegalMove g fr fc tr tc) = g).
Proof.
  intros Hwf Hrej. apply wellFormed_shape in Hwf. split.
  - by apply makeMove_rejected.
  - intros. by apply isLegalMove_restores.
Qed.

Lemma makeMove_illegal_leaves_state_unchanged_witness :
  makeMove newGame 1 4 2 4 QUEEN = (false, newGame)
  /\ (forall fr fc tr tc, snd (isLegalMove newGame fr fc tr tc) = newGame).
Proof.
  apply (makeMove_illegal_leaves_state_unchanged newGame 1 4 2 4 QUEEN).
  - vm_compute. reflexivity.
  - right. vm_compute. reflexivity.
Defined.

(** ** Pieces of the side that is not to move *)

Lemma filterLegal_wrong_color g p moves :
  getPieceAt g (row p) (col p) = Some p ->
  color p <> currentPlayer g ->
  filterLegal g (row p) (col p) moves = ([], g).
Proof.
  intros Hp Hc. induction moves as [|[toRow toCol] rest IH]; [done|].
  cbn [filterLegal]. unfold isLegalMove at 1. rewrite Hp.
  assert (Color_eqb (color p) (currentPlayer g) = false) as ->.
  { destruct (color p), (currentPlayer g); done. }
  cbn. by rewrite IH.
Qed.

(** C10.  On a well-formed game, [getLegalMoves] of a piece standing on the
    board whose colour is not [currentPlayer] is the empty list (and the game
    is left as it was); [getLegalMoves(null)] is empty as well.  Such a piece
    may still have pseudo-legal moves: in the initial position Black's e-pawn
    has two. *)
Theorem getLegalMoves_other_side_is_empty g :
  wellFormed g = true ->
  (forall r c p,
      getPieceAt g r c = Some p -> color p <> currentPlayer g ->
      getLegalMoves g (Some p) = ([], g))
  /\ getLegalMoves g None = ([], g)
  /\ (getPieceAt newGame 1 4 = Some (newPiece PAWN BLACK 1 4)
      /\ getPossibleMoves (newPiece PAWN BLACK 1 4) (board newGame)
           (contextOf newGame (newPiece PAWN BLACK 1 4)) = [(2, 4); (3, 4)]
      /\ fst (getLegalMoves newGame (Some (newPiece PAWN BLACK 1 4))) = []).
Proof.
  intros Hwf. split; [|split; [done|]].
  - intros r c p Hp Hc. cbn [getLegalMoves].
    destruct (getPieceAt_placed g r c p Hwf Hp) as [<- <-].
    by apply filterLegal_wrong_color.
  - vm_compute. auto.
Qed.

Lemma getLegalMoves_other_side_is_empty_witness :
  (forall r c p,
      getPieceAt newGame r c = Some p -> color p <> currentPlayer newGame ->
      getLegalMoves newGame (Some p) = ([], newGame))
  /\ getLegalMoves newGame None = ([], newGame)
  /\ (getPieceAt newGame 1 4 = Some (newPiece PAWN BLACK 1 4)
      /\ getPossibleMoves (newPiece PAWN BLACK 1 4) (board newGame)
           (contextOf newGame (newPiece PAWN BLACK 1 4)) = [(2, 4); (3, 4)]
      /\ fst (getLegalMoves newGame (Some (newPiece PAWN BLACK 1 4))) = []).
Proof.
  apply (getLegalMoves_other_side_is_empty newGame).
  vm_compute. reflexivity.
Defined.

(** ** Anatomy of a successful [makeMove] *)

Section Success.
Implicit Types (g : ChessGame) (b : Board).

Lemma hasSquare_In moves r c : hasSquare moves r c = true <-> In (r, c) moves.
Proof.
  unfold hasSquare. rewrite existsb_exists. split.
  - intros ([x y] & Hin & Heq). cbn in Heq.
    apply andb_true_iff in Heq as [H1 H2].
    apply Z.eqb_eq in H1, H2. by subst.
  - intros Hin. exists (r, c). cbn. by rewrite !Z.eqb_refl.
Qed.

Lemma isLegalMove_true_inv g fromRow fromCol toRow toCol :
  fst (isLegalMove g fromRow fromCol toRow toCol) = true ->
  exists piece,
    getPieceAt g fromRow fromCol = Some piece
    /\ color piece = currentPlayer g
    /\ In (toRow, toCol)
          (getPossibleMoves piece (board g) (contextOf g piece)).
Proof.
  unfold isLegalMove.
  destruct (getPieceAt g fromRow fromCol) as [piece|]; [|done].
  destruct (Color_eqb (color piece) (currentPlayer g)) eqn:Hc; [|done].
  cbn [negb].
  destruct (hasSquare _ toRow toCol) eqn:Hm; [|done].
  intros _. exists piece. split; [done|]. split.
  - by destruct (color piece), (currentPlayer g).
  - by apply hasSquare_In.
Qed.

Lemma makeMove_true_inv g fromRow fromCol toRow toCol promotionPiece g' :
  boardShape (board g) ->
  makeMove g fromRow fromCol toRow toCol promotionPiece = (true, g') ->
  exists piece,
    getPieceAt g fromRow fromCol = Some piece
    /\ fst (isLegalMove g fromRow fromCol toRow toCol) = true
    /\ g' = updateGameState
              (applyMove g piece fromRow fromCol toRow toCol promotionPiece).
Proof.
  intros Hs. unfold makeMove.
  destruct (getPieceAt g fromRow fromCol) as [piece|]; [|done].
  pose proof (isLegalMove_restores g fromRow fromCol toRow toCol Hs) as Hr.
  destruct (isLegalMove g fromRow fromCol toRow toCol) as [legal g1].
  cbn in Hr. subst g1. destruct legal; [|done].
  cbn. intros [= <-]. by exists piece.
Qed.

Lemma handleCastling_shape g fromRow fromCol toRow toCol :
  boardShape (board g) ->
  boardShape (board (handleCastling g fromRow fromCol toRow toCol)).
Proof.
  intros Hs. unfold handleCastling.
  destruct (getPieceAt g fromRow _); [|done].
  cbn. by repeat apply setCell_shape.
Qed.

Lemma applyMove_shape g piece fromRow fromCol toRow toCol promotionPiece :
  boardShape (board g) ->
  boardShape
    (board (applyMove g piece fromRow fromCol toRow toCol promotionPiece)).
Proof.
  intros Hs. unfold applyMove. cbn [board].
  match goal with
  | |- context [if ?c then handleCastling ?x _ _ _ _ else _] =>
      destruct c; [apply handleCastling_shape|]; cbn [board];
      repeat apply setCell_shape;
      match goal with |- context [if ?e then _ else _] =>
        destruct e; repeat apply setCell_shape; done end
  end.
Qed.

(** [updateGameState] only writes the [gameState] field. *)
Lemma updateGameState_frame g :
  boardShape (board g) ->
  exists s, updateGameState g = withGameState g s.
Proof.
  intros Hs. unfold updateGameState.
  pose proof (hasLegalMoves_restores g (currentPlayer g) Hs) as Hr.
  destruct (hasLegalMoves g (currentPlayer g)) as [hm g1].
  cbn in Hr. subst g1.
  match goal with |- context [if ?c then _ else _] => destruct c end;
    eauto.
Qed.
End Success.

(** ** The en-passant target *)

Section EnPassant.
Implicit Types (g : ChessGame) (b : Board) (p : ChessPiece).

(** Every pawn move changes the row by one step, except the double advance
    from the starting row. *)
Lemma getPawnMoves_rows p b ep toRow toCol :
  In (toRow, toCol) (getPawnMoves p b ep) ->
  toRow = row p + direction (color p)
  \/ (row p = startRow (color p)
      /\ toRow = row p + 2 * direction (color p) /\ toCol = col p).
Proof.
  unfold getPawnMoves. rewrite !in_app_iff.
  intros [H|[H|[H|H]]].
  - destruct (_ && _ && isNone _); [|done].
    destruct H as [H|H]; [inversion H; auto|].
    destruct ((row p =? startRow (color p)) && _) eqn:Hd; [|done].
    apply andb_true_iff in Hd as [Hd _]. apply Z.eqb_eq in Hd.
    destruct H as [H|[]]. inversion H. right. repeat split; [done|lia].
  - destruct (_ && _ && _ && _); [|done].
    destruct (cell b _ _) as [t|]; [|done].
    destruct (negb _); [|done]. destruct H as [H|[]]. inversion H; auto.
  - destruct (_ && _ && _ && _); [|done].
    destruct (cell b _ _) as [t|]; [|done].
    destruct (negb _); [|done]. destruct H as [H|[]]. inversion H; auto.
  - destruct ep as [[targetRow targetCol]|]; [|done].
    destruct (_ && _ && (targetRow =? _)) eqn:Hd; [|done].
    destruct H as [H|[]]. inversion H; subst.
    rewrite !andb_true_iff in Hd. destruct Hd as [_ Hd].
    apply Z.eqb_eq in Hd. auto.
Qed.

Lemma direction_cases c : direction c = -1 \/ direction c = 1.
Proof. destruct c; auto. Qed.

Lemma startRow_cases c :
  (startRow c = 6 /\ direction c = -1) \/ (startRow c = 1 /\ direction c = 1).
Proof. destruct c; auto. Qed.

Lemma applyMove_enPassantTarget g piece fromRow fromCol toRow toCol promo :
  enPassantTarget (applyMove g piece fromRow fromCol toRow toCol promo) =
    if PieceType_eqb
         (if PieceType_eqb (type piece) PAWN
             && ((toRow =? 0) || (toRow =? 7))
          then promo else type piece) PAWN
       && (Z.abs (toRow - fromRow) =? 2)
    then Some (fromRow + (toRow - fromRow) / 2, fromCol) else None.
Proof.
  unfold applyMove. cbn [enPassantTarget moveTo type].
  by destruct (PieceType_eqb (type piece) PAWN && _).
Qed.

Lemma makeMove_enPassantTarget g p fromRow fromCol toRow toCol promo g' :
  wellFormed g = true ->
  getPieceAt g fromRow fromCol = Some p ->
  makeMove g fromRow fromCol toRow toCol promo = (true, g') ->
  (isDoubleAdvance p fromRow fromCol toRow toCol ->
   enPassantTarget g' = Some (fromRow + direction (color p), fromCol))
  /\ (~ isDoubleAdvance p fromRow fromCol toRow toCol ->
      enPassantTarget g' = None).
Proof.
  intros Hwf Hp Hmove.
  pose proof (wellFormed_shape g Hwf) as Hs.
  destruct (makeMove_true_inv _ _ _ _ _ _ _ Hs Hmove)
    as (piece & Hp' & Hlegal & ->).
  rewrite Hp in Hp'. injection Hp' as <-.
  destruct (isLegalMove_true_inv _ _ _ _ _ Hlegal) as (q & Hq & _ & Hin).
  rewrite Hp in Hq. injection Hq as <-.
  destruct (getPieceAt_placed g _ _ _ Hwf Hp) as [Hrow Hcol].
  destruct (updateGameState_frame
              (applyMove g p fromRow fromCol toRow toCol promo)) as [s ->];
    [by apply applyMove_shape|].
  change (enPassantTarget (withGameState ?x s)) with (enPassantTarget x).
  rewrite applyMove_enPassantTarget.
  unfold isDoubleAdvance.
  destruct (type p) eqn:Ht; cbn [PieceType_eqb andb];
    try (split; [intros (? & _); done | done]).
  (* a pawn *)
  unfold getPossibleMoves in Hin. rewrite Ht in Hin.
  apply getPawnMoves_rows in Hin. rewrite Hrow, Hcol in Hin.
  destruct (startRow_cases (color p)) as [[Hst Hdir]|[Hst Hdir]];
    rewrite Hst, Hdir in *.
  - destruct Hin as [->|(-> & -> & ->)].
    + replace (Z.abs (fromRow + -1 - fromRow) =? 2) with false by lia.
      rewrite andb_false_r. split; [lia|done].
    + cbn. split; [done|]. intros Hn. exfalso. apply Hn. done.
  - destruct Hin as [->|(-> & -> & ->)].
    + replace (Z.abs (fromRow + 1 - fromRow) =? 2) with false by lia.
      rewrite andb_false_r. split; [lia|done].
    + cbn. split; [done|]. intros Hn. exfalso. apply Hn. done.
Qed.
End EnPassant.

(** C8.  After a successful [makeMove] on a well-formed game,
    [enPassantTarget] is the square the pawn skipped when the move was a
    pawn's two-square advance from its starting row, and it is [null] after
    every other move.  From the initial position, e2-e4 (from (6,4) to (4,4))
    leaves [enPassantTarget = (5,4)]. *)
Theorem enPassantTarget_tracks_double_advance
    g p fromRow fromCol toRow toCol promotionPiece g' :
  wellFormed g = true ->
  getPieceAt g fromRow fromCol = Some p ->
  makeMove g fromRow fromCol toRow toCol promotionPiece = (true, g') ->
  (isDoubleAdvance p fromRow fromCol toRow toCol ->
   enPassantTarget g' = Some (fromRow + direction (color p), fromCol))
  /\ (~ isDoubleAdvance p fromRow fromCol toRow toCol ->
      enPassantTarget g' = None)
  /\ enPassantTarget (snd (makeMove newGame 6 4 4 4 QUEEN)) = Some (5, 4).
Proof.
  intros Hwf Hp Hmove.
  destruct (makeMove_enPassantTarget _ _ _ _ _ _ _ _ Hwf Hp Hmove) as [H1 H2].
  split; [done|]. split; [done|]. vm_compute. reflexivity.
Qed.

Lemma enPassantTarget_tracks_double_advance_witness :
  (isDoubleAdvance (newPiece PAWN WHITE 6 4) 6 4 4 4 ->
   enPassantTarget (snd (makeMove newGame 6 4 4 4 QUEEN))
   = Some (6 + direction WHITE, 4))
  /\ (~ isDoubleAdvance (newPiece PAWN WHITE 6 4) 6 4 4 4 ->
      enPassantTarget (snd (makeMove newGame 6 4 4 4 QUEEN)) = None)
  /\ enPassantTarget (snd (makeMove newGame 6 4 4 4 QUEEN)) = Some (5, 4).
Proof.
  apply (enPassantTarget_tracks_double_advance
           newGame (newPiece PAWN WHITE 6 4) 6 4 4 4 QUEEN).
  - vm_compute. reflexivity.
  - vm_compute. reflexivity.
  - vm_compute. reflexivity.
Defined.

(** ** The status written by [updateGameState] *)

Section Status.
Implicit Types (g : ChessGame) (s : GameState).

Lemma isLegalMove_fst_withGameState g s fromRow fromCol toRow toCol :
  fst (isLegalMove (withGameState g s) fromRow fromCol toRow toCol)
  = fst (isLegalMove g fromRow fromCol toRow toCol).
Proof.
  unfold isLegalMove.
  change (getPieceAt (withGameState g s) fromRow fromCol)
    with (getPieceAt g fromRow fromCol).
  destruct (getPieceAt g fromRow fromCol) as [piece|]; [|done].
  change (currentPlayer (withGameState g s)) with (currentPlayer g).
  destruct (negb (Color_eqb (color piece) (currentPlayer g))); [done|].
  change (contextOf (withGameState g s) piece) with (contextOf g piece).
  change (board (withGameState g s)) with (board g).
  destruct (negb (hasSquare _ toRow toCol)); [done|].
  destruct (PieceType_eqb (type piece) KING && _); [done|].
  reflexivity.
Qed.

Lemma filterLegal_fst_withGameState g s fromRow fromCol moves :
  boardShape (board g) ->
  fst (filterLegal (withGameState g s) fromRow fromCol moves)
  = fst (filterLegal g fromRow fromCol moves).
Proof.
  intros Hs. induction moves as [|[toRow toCol] rest IH]; [done|].
  cbn [filterLegal].
  pose proof (isLegalMove_restores g fromRow fromCol toRow toCol Hs) as Hr.
  pose proof (isLegalMove_restores (withGameState g s)
                fromRow fromCol toRow toCol Hs) as Hr'.
  pose proof (isLegalMove_fst_withGameState g s
                fromRow fromCol toRow toCol) as Hf.
  destruct (isLegalMove g fromRow fromCol toRow toCol) as [ok g1].
  destruct (isLegalMove (withGameState g s) fromRow fromCol toRow toCol)
    as [ok' g1'].
  cbn in Hr, Hr', Hf. subst.
  destruct (filterLegal g fromRow fromCol rest) as [l g2].
  destruct (filterLegal (withGameState g s) fromRow fromCol rest)
    as [l' g2'].
  cbn in *. by subst.
Qed.

Lemma hasLegalMovesFrom_fst_withGameState g s c squares :
  boardShape (board g) ->
  fst (hasLegalMovesFrom (withGameState g s) c squares)
  = fst (hasLegalMovesFrom g c squares).
Proof.
  intros Hs. induction squares as [|sq rest IH]; [done|].
  cbn [hasLegalMovesFrom].
  change (getPieceAt (withGameState g s) (fst sq) (snd sq))
    with (getPieceAt g (fst sq) (snd sq)).
  destruct (getPieceAt g (fst sq) (snd sq)) as [piece|]; [|done].
  destruct (Color_eqb (color piece) c); [|done].
  pose proof (getLegalMoves_restores g (Some piece) Hs) as Hr.
  pose proof (getLegalMoves_restores (withGameState g s) (Some piece) Hs)
    as Hr'.
  pose proof (filterLegal_fst_withGameState g s (row piece) (col piece)
                (getPossibleMoves piece (board g) (contextOf g piece)) Hs)
    as Hf.
  change (fst (getLegalMoves (withGameState g s) (Some piece))
          = fst (getLegalMoves g (Some piece))) in Hf.
  destruct (getLegalMoves g (Some piece)) as [l g1].
  destruct (getLegalMoves (withGameState g s) (Some piece)) as [l' g1'].
  cbn in Hr, Hr', Hf. subst.
  by destruct (0 <? Z.of_nat (length l)).
Qed.

Lemma canMove_withGameState g s :
  boardShape (board g) -> canMove (withGameState g s) = canMove g.
Proof. apply hasLegalMovesFrom_fst_withGameState. Qed.

Lemma updateGameState_status g :
  boardShape (board g) ->
  updateGameState g =
    withGameState g (statusDrawFirst (inCheckNow g) (canMove g) (drawn g)).
Proof.
  intros Hs. unfold updateGameState, canMove, inCheckNow.
  pose proof (hasLegalMoves_restores g (currentPlayer g) Hs) as Hr.
  destruct (hasLegalMoves g (currentPlayer g)) as [hm g1].
  cbn in Hr. subst g1. cbn [fst].
  change (halfMoveClock (withGameState g ?s)) with (halfMoveClock g).
  change (isInsufficientMaterial (withGameState g ?s))
    with (isInsufficientMaterial g).
  unfold statusDrawFirst, drawn.
  by destruct ((halfMoveClock g >=? 100) || isInsufficientMaterial g).
Qed.

Lemma makeMove_status g fromRow fromCol toRow toCol promo g' :
  wellFormed g = true ->
  makeMove g fromRow fromCol toRow toCol promo = (true, g') ->
  gameState g' = statusDrawFirst (inCheckNow g') (canMove g') (drawn g').
Proof.
  intros Hwf Hmove. pose proof (wellFormed_shape g Hwf) as Hs.
  destruct (makeMove_true_inv _ _ _ _ _ _ _ Hs Hmove) as (piece & _ & _ & ->).
  set (g0 := applyMove g piece fromRow fromCol toRow toCol promo).
  assert (boardShape (board g0)) as Hs0 by by apply applyMove_shape.
  rewrite updateGameState_status by done.
  rewrite canMove_withGameState by done.
  reflexivity.
Qed.
End Status.


(** ** Insufficient material *)

Local Ltac bare_yes :=
  first
    [ left; split; reflexivity
    | right; left; split; [eexists; split; [|left; reflexivity]; reflexivity
                          |reflexivity]
    | right; left; split; [eexists; split; [|right; reflexivity]; reflexivity
                          |reflexivity]
    | right; right; split; [eexists; split; [|left; reflexivity]; reflexivity
                           |reflexivity]
    | right; right; split; [eexists; split; [|right; reflexivity]; reflexivity
                           |reflexivity] ].

Local Ltac bare_no :=
  let H := fresh in
  intros H; exfalso;
  destruct H as [[? ?]|[[(? & ? & [?|?]) ?]|[(? & ? & [?|?]) ?]]];
  simplify_eq; done.

Lemma isInsufficientMaterial_bare g :
  oneKing (typesOf g WHITE) -> oneKing (typesOf g BLACK) ->
  isInsufficientMaterial g = true <-> bareMaterial g.
Proof.
  unfold isInsufficientMaterial, bareMaterial, loneKing, kingAndMinor, oneKing.
  cbn [existsb opposite].
  generalize (typesOf g WHITE) (typesOf g BLACK). intros w b Hw Hb.
  destruct w as [|w1 [|w2 [|w3 w]]], b as [|b1 [|b2 [|b3 b]]];
    try (cbn in Hw, Hb; discriminate);
    cbn [length Nat.eqb andb orb].
  - destruct w1, b1; cbn in Hw, Hb; try discriminate. split; [bare_yes|done].
  - destruct w1; cbn in Hw; try discriminate.
    destruct b1, b2; cbn in Hb |- *; try discriminate;
      (split; [intros; try discriminate; bare_yes | try done; bare_no]).
  - split; [discriminate|bare_no].
  - destruct b1; cbn in Hb; try discriminate.
    destruct w1, w2; cbn in Hw |- *; try discriminate;
      (split; [intros; try discriminate; bare_yes | try done; bare_no]).
  - split; [discriminate|bare_no].
  - split; [discriminate|bare_no].
  - split; [discriminate|bare_no].
  - split; [discriminate|bare_no].
  - split; [discriminate|bare_no].
Qed.

(** Whenever the draw test fires after an accepted move, the status is
    draw, whatever the first four branches of [updateGameState] had written:
    a side that is in check without a legal move is then not recorded as
    checkmated. *)
Lemma draw_overwrites_the_status g fromRow fromCol toRow toCol promotionPiece g' :
  wellFormed g = true ->
  makeMove g fromRow fromCol toRow toCol promotionPiece = (true, g') ->
  drawn g' = true ->
  gameState g' = draw.
Proof.
  intros Hwf Hmove Hd. rewrite (makeMove_status _ _ _ _ _ _ _ Hwf Hmove).
  unfold statusDrawFirst. by rewrite Hd.
Qed.

(** When the draw test does not fire, the status is the one the
    specification lists. *)
Lemma status_as_listed_unless_drawn g fromRow fromCol toRow toCol promotionPiece g' :
  wellFormed g = true ->
  makeMove g fromRow fromCol toRow toCol promotionPiece = (true, g') ->
  drawn g' = false ->
  gameState g'
  = statusAsListed (inCheckNow g') (canMove g') (drawn g').
Proof.
  intros Hwf Hmove Hd. rewrite (makeMove_status _ _ _ _ _ _ _ Hwf Hmove).
  unfold statusDrawFirst, statusAsListed. rewrite Hd.
  by destruct (inCheckNow g'), (canMove g').
Qed.

(** C3 (evaluation at the failing input).  White: Kg1, Ra1; Black: Kg8 and
    the pawns f7, g7, h7; 99 half-moves have passed without a capture or a
    pawn move.  [makeMove] accepts Ra1-a8.  Black is then in check without a
    legal move, which is the first case of the specification and the first
    branch of [updateGameState]; the half-move clock reads 100 and the
    material is not insufficient.  The status left behind is draw, not
    checkmate: the draw test at the end of [updateGameState] overwrites the
    checkmate found just before. *)
Theorem status_checkmate_does_not_take_precedence :
  wellFormed backRankPosition = true
  /\ halfMoveClock backRankPosition = 99
  /\ fst (makeMove backRankPosition 7 0 0 0 QUEEN) = true
  /\ inCheckNow backRankMate = true
  /\ canMove backRankMate = false
  /\ halfMoveClock backRankMate = 100
  /\ isInsufficientMaterial backRankMate = false
  /\ statusAsListed (inCheckNow backRankMate) (canMove backRankMate)
       (drawn backRankMate) = checkmate
  /\ gameState backRankMate = draw
  /\ gameState backRankMate
     <> statusAsListed (inCheckNow backRankMate) (canMove backRankMate)
          (drawn backRankMate).
Proof. vm_compute. repeat split; discriminate. Qed.

(** ** Castling next to an enemy pawn *)

(** C1 (evaluation at the failing input).  After 1. h4 g5 2. e3 gxh4 3. Nf3
    h3 4. Be2 h2, every move having been accepted by [makeMove], the black
    pawn on h2 is not reported as attacking the empty square g1, so
    [getLegalMoves] of the white king lists the castling square (7,6);
    [makeMove] plays it, and White's king then stands attacked. *)
Theorem castling_lands_king_in_check :
  fst (playAll newGame pawnOnH2Line)
  = [true; true; true; true; true; true; true; true]
  /\ wellFormed beforeCastling = true
  /\ currentPlayer beforeCastling = WHITE
  /\ getPieceAt beforeCastling 7 4 = Some (newPiece KING WHITE 7 4)
  /\ getPieceAt beforeCastling 6 7 = Some (moved PAWN BLACK 6 7)
  /\ isSquareUnderAttack beforeCastling 7 6 BLACK = false
  /\ canCastle beforeCastling WHITE true = true
  /\ fst (getLegalMoves beforeCastling (getPieceAt beforeCastling 7 4))
     = [(7, 5); (7, 6)]
  /\ fst (makeMove beforeCastling 7 4 7 6 QUEEN) = true
  /\ getPieceAt afterCastling 7 6 = Some (moved KING WHITE 7 6)
  /\ isInCheck afterCastling WHITE = true.
Proof. vm_compute. repeat split. Qed.

(** ** The cached king squares *)

(** C9 (evaluation at the failing input).  The cache agrees with the board in
    the initial position.  After White has castled next to the h2 pawn, Black
    plays hxg1: [makeMove] accepts the capture of the king, [kingPositions]
    still says (7,6) for White, that square now holds a black queen, and no
    white king is left on the board. *)
Theorem king_cache_departs_from_board :
  kingCacheAgrees newGame
  /\ currentPlayer afterCastling = BLACK
  /\ fst (makeMove afterCastling 6 7 7 6 QUEEN) = true
  /\ pcGet (kingPositions afterKingCapture) WHITE = (7, 6)
  /\ getPieceAt afterKingCapture 7 6 = Some (moved QUEEN BLACK 7 6)
  /\ kingSquares afterKingCapture WHITE = []
  /\ ~ kingCacheAgrees afterKingCapture.
Proof.
  split; [intros []; vm_compute; reflexivity|].
  repeat (split; [vm_compute; reflexivity|]).
  intros H. specialize (H WHITE). vm_compute in H. discriminate.
Qed.

(** ** The time budget of the enhanced engine *)

Section TimeBudget.
Variable alphaBeta :
  EnhancedChessAI -> ChessGame -> Z -> Score -> Score -> bool
  -> Score * SearchTables.
Variable now : nat -> Z.

(** The root loop only ever advances the clock counter, and leaves the
    start time and the budget alone. *)
Lemma rootLoop_clock g depth moves w ai alpha bestScore bestMove :
  let r := rootLoop alphaBeta now g depth moves w ai alpha bestScore bestMove in
  (clockReads w <= clockReads (snd (fst r)))%nat
  /\ startTime (snd r) = startTime ai
  /\ timeLimit (snd r) = timeLimit ai.
Proof.
  revert w ai alpha bestScore bestMove.
  induction moves as [|m rest IH]; intros w ai alpha bestScore bestMove;
    cbn [rootLoop]; [by auto|].
  destruct (negb (fst (playOnClone g m))); [apply IH|].
  cbn [dateNow].
  match goal with |- context [if ?c then _ else _] => destruct c end.
  - cbn. auto with lia.
  - match goal with |- context [rootLoop _ _ _ _ _ ?w' ?ai' ?a ?b ?c] =>
      specialize (IH w' ai' a b c) end.
    cbn in IH |- *. destruct IH as (? & ? & ?). auto with lia.
Qed.

Lemma alphaBetaRoot_clock w ai g depth :
  let r := alphaBetaRoot alphaBeta now w ai g depth in
  (clockReads w <= clockReads (snd (fst r)))%nat
  /\ startTime (snd r) = startTime ai
  /\ timeLimit (snd r) = timeLimit ai.
Proof.
  unfold alphaBetaRoot.
  destruct (orderMovesAdvanced ai (getAllPossibleMoves g) g depth)
    as [|first others]; [by cbn; auto|].
  pose proof (rootLoop_clock g depth (first :: others) w ai NegInf NegInf first)
    as H.
  destruct (rootLoop alphaBeta now g depth (first :: others) w ai
              NegInf NegInf first) as [[[s m] w1] ai1].
  exact H.
Qed.

Lemma getBestMove_budget_spent random w ai g :
  getAllPossibleMoves g <> [] ->
  bookApplies ai g = false ->
  (moveRandomness ai <= 0)%Q ->
  1 <= maxDepth ai ->
  (forall n, (clockReads w < n)%nat ->
             now n - now (clockReads w) > timeLimit ai) ->
  fst (fst (getBestMove alphaBeta now random w ai g)) = None.
Proof.
  intros _ Hbook Hrand Hdepth Hclock. unfold getBestMove. cbn [dateNow].
  set (ai1 := withSearchStart ai (now (clockReads w))).
  set (w1 := mkWorld (S (clockReads w)) (randomDraws w)).
  assert ((if useOpeningBook ai1 && (moveCount ai1 <=? 10)
           then getOpeningBookMove random w1 ai1 g else (None, w1))
          = (None, w1)) as ->.
  { unfold bookApplies in Hbook. cbn [ai1 withSearchStart useOpeningBook moveCount].
    destruct (useOpeningBook ai && (moveCount ai + 1 <=? 10)); [|done].
    unfold getOpeningBookMove. cbn in Hbook.
    change (openingBook ai1) with (openingBook ai).
    by destruct (bookLookup (openingBook ai) (historyKey g)) as [[|? ?]|]. }
  destruct (Qlt_le_dec 0 (moveRandomness ai1)) as [Hlt|_].
  { exfalso. cbn in Hlt. apply (Qlt_not_le _ _ Hlt Hrand). }
  unfold searchBestMove.
  set (ai2 := if 100000 <? Z.of_nat (size (eTranspositionTable (tables ai1)))
              then withClearedTable ai1 else ai1).
  assert (startTime ai2 = now (clockReads w) /\ timeLimit ai2 = timeLimit ai
          /\ maxDepth ai2 = maxDepth ai) as (Hst & Htl & Hmd).
  { unfold ai2. by destruct (100000 <? _). }
  rewrite Hmd. rewrite seqZ_cons by lia. cbn [deepen].
  pose proof (alphaBetaRoot_clock w1 ai2 g 1) as Hroot.
  destruct (alphaBetaRoot alphaBeta now w1 ai2 g 1) as [[[s mv] w2] ai3].
  cbn in Hroot. destruct Hroot as (Hreads & Hst3 & Htl3).
  cbn [dateNow]. rewrite Hst3, Htl3, Hst, Htl.
  specialize (Hclock (clockReads w2)).
  replace (now (clockReads w2) - now (clockReads w) >? timeLimit ai)
    with true by lia.
  reflexivity.
Qed.
End TimeBudget.

(** C4 (the code at the failing input, in general form).  Whenever the
    opening book and the random pick stay out of the way and every clock read
    after the first lies beyond the budget — the budget runs out during the
    depth-1 iteration — [getBestMove] returns [null], although the side to
    move has legal moves: the time test at the end of the iteration breaks out
    of the loop before the move found at depth 1 is recorded. *)
Theorem getBestMove_returns_null_when_budget_expires_at_depth_one
    alphaBeta now random w ai g :
  getAllPossibleMoves g <> [] ->
  bookApplies ai g = false ->
  (moveRandomness ai <= 0)%Q ->
  1 <= maxDepth ai ->
  (forall n, (clockReads w < n)%nat ->
             now n - now (clockReads w) > timeLimit ai) ->
  fst (fst (getBestMove alphaBeta now random w ai g)) = None.
Proof. apply getBestMove_budget_spent. Qed.

Lemma getBestMove_returns_null_when_budget_expires_at_depth_one_witness :
  fst (fst (getBestMove idleSearch slowClock drawLow world0
              (newEnhancedAI 5 zeroZobrist) newGame)) = None.
Proof.
  apply (getBestMove_returns_null_when_budget_expires_at_depth_one
           idleSearch slowClock drawLow world0
           (newEnhancedAI 5 zeroZobrist) newGame).
  - vm_compute. discriminate.
  - vm_compute. reflexivity.
  - vm_compute. discriminate.
  - vm_compute. discriminate.
  - intros [|n] Hn; [cbn in Hn; lia|]. vm_compute. reflexivity.
Defined.

(** ** Randomness at the Master level *)

Section Master.
Variable alphaBeta :
  EnhancedChessAI -> ChessGame -> Z -> Score -> Score -> bool
  -> Score * SearchTables.
Variable now : nat -> Z.

End Master.




(** ** Cloning in the object store *)

Section Monad.
Context {A B : Type}.

Lemma mbind_Some (m : M A) (k : A -> M B) h b h' :
  mbind m k h = Some (b, h') <->
  exists a h1, m h = Some (a, h1) /\ k a h1 = Some (b, h').
Proof.
  unfold mbind. destruct (m h) as [[a h1]|]; split.
  - intros H. by exists a, h1.
  - by intros (? & ? & [= <- <-] & ?).
  - done.
  - by intros (? & ? & ? & ?).
Qed.

Lemma pure_ret (a : A) : pureM (mret a).
Proof. by intros h a' h' [= _ <-]. Qed.

Lemma pure_bind (m : M A) (k : A -> M B) :
  pureM m -> (forall a, pureM (k a)) -> pureM (mbind m k).
Proof.
  intros Hm Hk h b h' (a & h1 & H1 & H2)%mbind_Some.
  apply Hm in H1. subst. by eapply Hk.
Qed.
End Monad.

Lemma pure_readPiece p : pureM (readPiece p).
Proof. intros h a h'. unfold readPiece. by destruct (h !! p) as [[]|]; intros [= _ <-]. Qed.
Lemma pure_readBoard p : pureM (readBoard p).
Proof. intros h a h'. unfold readBoard. by destruct (h !! p) as [[]|]; intros [= _ <-]. Qed.
Lemma pure_readKings p : pureM (readKings p).
Proof. intros h a h'. unfold readKings. by destruct (h !! p) as [[]|]; intros [= _ <-]. Qed.
Lemma pure_readCaptured p : pureM (readCaptured p).
Proof. intros h a h'. unfold readCaptured. by destruct (h !! p) as [[]|]; intros [= _ <-]. Qed.
Lemma pure_readHistory p : pureM (readHistory p).
Proof. intros h a h'. unfold readHistory. by destruct (h !! p) as [[]|]; intros [= _ <-]. Qed.
Lemma pure_readGame p : pureM (readGame p).
Proof. intros h a h'. unfold readGame. by destruct (h !! p) as [[]|]; intros [= _ <-]. Qed.
Lemma pure_snap g : pureM (snap g).
Proof. intros h a h'. unfold snap. by destruct (snapshot h g); intros [= _ <-]. Qed.

Lemma pure_hCell g r c : pureM (hCell g r c).
Proof.
  unfold hCell. apply pure_bind; [apply pure_readGame|]. intros o.
  apply pure_bind; [apply pure_readBoard|]. intros cells. apply pure_ret.
Qed.

Lemma pure_hGetPieceAt g r c : pureM (hGetPieceAt g r c).
Proof.
  unfold hGetPieceAt. destruct (_ || _); [apply pure_ret|apply pure_hCell].
Qed.

(** *** A snapshot only grows with the store *)

Section Monotone.
Variables h h' : Heap.
Hypothesis Hsub : h ⊆ h'.

Lemma derefCell_mono c v : derefCell h c = Some v -> derefCell h' c = Some v.
Proof.
  destruct c as [p|]; [|done]. cbn.
  destruct (h !! p) as [o|] eqn:Hp; [|done].
  by rewrite (lookup_weaken _ _ _ _ Hp Hsub).
Qed.

Lemma derefPiece_mono p v : derefPiece h p = Some v -> derefPiece h' p = Some v.
Proof.
  unfold derefPiece. destruct (h !! p) as [o|] eqn:Hp; [|done].
  by rewrite (lookup_weaken _ _ _ _ Hp Hsub).
Qed.

Lemma mapM_mono {X Y} (f f' : X -> option Y) l k :
  (forall x y, f x = Some y -> f' x = Some y) ->
  mapM f l = Some k -> mapM f' l = Some k.
Proof.
  intros Hf. rewrite !mapM_Some. intros H.
  induction H; constructor; auto.
Qed.

Lemma snapshot_mono g G : snapshot h g = Some G -> snapshot h' g = Some G.
Proof.
  unfold snapshot.
  destruct (h !! g) as [[| | | | |o]|] eqn:Hg; try done.
  rewrite (lookup_weaken _ _ _ _ Hg Hsub).
  destruct (h !! boardRef o) as [[|cells| | | |]|] eqn:Hb; try done.
  rewrite (lookup_weaken _ _ _ _ Hb Hsub).
  destruct (h !! historyRef o) as [[| | | |hist|]|] eqn:Hh; try done.
  rewrite (lookup_weaken _ _ _ _ Hh Hsub).
  destruct (h !! capturedRef o) as [[| | |caps| |]|] eqn:Hc; try done.
  rewrite (lookup_weaken _ _ _ _ Hc Hsub).
  destruct (h !! kingsRef o) as [[| |kings| | |]|] eqn:Hk; try done.
  rewrite (lookup_weaken _ _ _ _ Hk Hsub).
  destruct (mapM (mapM (derefCell h)) cells) as [b|] eqn:Hcells; [|done].
  destruct (mapM (derefPiece h) (ofWhite caps)) as [cw|] eqn:Hcw; [|done].
  destruct (mapM (derefPiece h) (ofBlack caps)) as [cb|] eqn:Hcb; [|done].
  rewrite (mapM_mono _ (mapM (derefCell h')) _ _
             (fun x y => mapM_mono _ _ x y derefCell_mono) Hcells).
  rewrite (mapM_mono _ _ _ _ derefPiece_mono Hcw).
  rewrite (mapM_mono _ _ _ _ derefPiece_mono Hcb).
  done.
Qed.
End Monotone.

(** *** Every write of a method lands on an object created after the clone *)

Section Frame.
Variable h0 : Heap.
Variable c : loc.

Local Abbreviation Inv := (Inv h0 c).
Local Abbreviation triple := (triple h0 c).

Lemma triple_ret {A} (a : A) (Q : A -> Prop) : Q a -> triple (mret a) Q.
Proof. by intros HQ h a' h' HI [= <- <-]. Qed.

Lemma triple_bind {A B} (m : M A) (k : A -> M B) (Q : A -> Prop) R :
  triple m Q -> (forall a, Q a -> triple (k a) R) -> triple (mbind m k) R.
Proof.
  intros Hm Hk h b h' HI (a & h1 & H1 & H2)%mbind_Some.
  destruct (Hm _ _ _ HI H1) as [HI1 HQ]. by eapply Hk.
Qed.

Lemma triple_weaken {A} (m : M A) (Q R : A -> Prop) :
  triple m Q -> (forall a, Q a -> R a) -> triple m R.
Proof. intros Hm HQR h a h' HI H. destruct (Hm _ _ _ HI H). auto. Qed.

Lemma triple_pure {A} (m : M A) : pureM m -> triple m (fun _ => True).
Proof. intros Hm h a h' HI H. apply Hm in H. by subst. Qed.

Lemma triple_whenM b m :
  triple m (fun _ => True) -> triple (whenM b m) (fun _ => True).
Proof. intros Hm. destruct b; [done|]. by apply triple_ret. Qed.

Lemma Inv_dom h l : Inv h -> l ∈ dom h0 -> l ∈ dom h.
Proof. intros [Hsub _]. by apply subseteq_dom. Qed.

(** A write at a location created after the clone, over an object that is
    neither the clone nor its board. *)
Lemma Inv_insert h l o' :
  Inv h -> l ∉ dom h0 -> l <> c ->
  (forall o cells, h !! c = Some (OGame o) ->
                   h !! boardRef o = Some (OBoard cells) -> l <> boardRef o) ->
  Inv (<[l := o']> h).
Proof.
  intros (Hsub & o & cells & Hc & Hcf & Hof & Hb & Hcells) Hl Hlc Hlb. split.
  - apply insert_subseteq_r; [|done]. by apply not_elem_of_dom.
  - exists o, cells. rewrite !lookup_insert_ne by eauto. done.
Qed.

Lemma triple_alloc o : triple (alloc o) (fun l => l ∉ dom h0).
Proof.
  intros h l h' HI [= <- <-].
  pose proof (is_fresh (dom h)) as Hfresh.
  assert (fresh (dom h) ∉ dom h0) as Hl.
  { intros Hin. by apply Hfresh, (Inv_dom h). }
  split; [|done]. apply Inv_insert; [done|done| |].
  - intros Heq. destruct HI as (_ & o1 & ? & Hc & _).
    apply Hfresh, elem_of_dom. rewrite Heq. eauto.
  - intros o1 cells _ Hb Heq. apply Hfresh, elem_of_dom. rewrite Heq. eauto.
Qed.

Lemma triple_readGame : triple (readGame c) (freshObject h0).
Proof.
  intros h o h' HI H. pose proof (pure_readGame _ _ _ _ H) as ->.
  split; [done|]. destruct HI as (_ & o1 & ? & Hc & _ & Hof & _).
  unfold readGame in H. rewrite Hc in H. by injection H as <-.
Qed.

Lemma refAt_elem cells r k p :
  refAt cells r k = Some p -> exists rw, rw ∈ cells /\ Some p ∈ rw.
Proof.
  unfold refAt. destruct (_ && _); [|done].
  destruct (cells !! Z.to_nat r) as [rw|] eqn:Hrw; [|done].
  destruct (rw !! Z.to_nat k) as [x|] eqn:Hx; [|done].
  intros ->. exists rw. split; eapply list_elem_of_lookup_2; eauto.
Qed.

Lemma triple_hCell r k : triple (hCell c r k) (freshOpt h0).
Proof.
  intros h v h' HI H. pose proof (pure_hCell _ _ _ _ _ _ H) as ->.
  split; [done|]. destruct HI as (_ & o & cells & Hc & _ & _ & Hb & Hcells).
  unfold hCell, mbind, readGame, readBoard, mret in H.
  rewrite Hc, Hb in H. injection H as <-.
  intros p (rw & ? & ?)%refAt_elem. by eapply Hcells.
Qed.

Lemma triple_hGetPieceAt r k : triple (hGetPieceAt c r k) (freshOpt h0).
Proof.
  unfold hGetPieceAt. destruct (_ || _); [|apply triple_hCell].
  by apply triple_ret.
Qed.

Lemma freshRefs_setRef cells r k v :
  freshRefs h0 cells -> freshOpt h0 v -> freshRefs h0 (setRef cells r k v).
Proof.
  intros Hcells Hv rw p Hrw Hp. unfold setRef in Hrw.
  destruct (_ && _); [|by eapply Hcells].
  apply list_elem_of_lookup in Hrw as [i Hi].
  destruct (decide (Z.to_nat r = i)) as [Heq|Hne].
  - subst i. rewrite list_lookup_alter_eq in Hi.
    destruct (cells !! Z.to_nat r) as [rw0|] eqn:Hrw0; simplify_eq/=.
    apply list_elem_of_lookup in Hp as [j Hj].
    destruct (decide (Z.to_nat k = j)) as [Heq|Hne].
    + subst j. destruct (decide (Z.to_nat k < length rw0)%nat).
      * rewrite list_lookup_insert_eq in Hj by lia. apply Hv. congruence.
      * rewrite list_insert_ge in Hj by lia.
        eapply Hcells; eapply list_elem_of_lookup_2; eauto.
    + rewrite list_lookup_insert_ne in Hj by done.
      eapply Hcells; eapply list_elem_of_lookup_2; eauto.
  - rewrite list_lookup_alter_ne in Hi by done.
    eapply Hcells; [eapply list_elem_of_lookup_2|]; eauto.
Qed.

Lemma triple_hSetCell r k v :
  freshOpt h0 v -> triple (hSetCell c r k v) (fun _ => True).
Proof.
  intros Hv h [] h' HI H. split; [|done].
  destruct HI as (Hsub & o & cells & Hc & Hcf & Hof & Hb & Hcells).
  unfold hSetCell, mbind, readGame, updBoard in H.
  rewrite Hc, Hb in H. injection H as <-.
  assert (boardRef o <> c) as Hne by (intros Heq; congruence).
  split.
  - apply insert_subseteq_r; [|done].
    destruct Hof as (? & _). by apply not_elem_of_dom.
  - exists o, (setRef cells r k v).
    rewrite lookup_insert_ne by done. rewrite lookup_insert_eq.
    do 4 (split; [done|]). by apply freshRefs_setRef.
Qed.

Lemma triple_updPiece p f :
  p ∉ dom h0 -> triple (updPiece p f) (fun _ => True).
Proof.
  intros Hp h [] h' HI H. split; [|done]. unfold updPiece in H.
  destruct (h !! p) as [[v| | | | |]|] eqn:Hv; try done. injection H as <-.
  apply Inv_insert; [done|done| |].
  - intros ->. destruct HI as (_ & ? & ? & Hc & _). congruence.
  - intros ? ? _ Hb ->. congruence.
Qed.

Lemma triple_updKings p f :
  p ∉ dom h0 -> triple (updKings p f) (fun _ => True).
Proof.
  intros Hp h [] h' HI H. split; [|done]. unfold updKings in H.
  destruct (h !! p) as [[| |v| | |]|] eqn:Hv; try done. injection H as <-.
  apply Inv_insert; [done|done| |].
  - intros ->. destruct HI as (_ & ? & ? & Hc & _). congruence.
  - intros ? ? _ Hb ->. congruence.
Qed.

Lemma triple_updCaptured p f :
  p ∉ dom h0 -> triple (updCaptured p f) (fun _ => True).
Proof.
  intros Hp h [] h' HI H. split; [|done]. unfold updCaptured in H.
  destruct (h !! p) as [[| | |v| |]|] eqn:Hv; try done. injection H as <-.
  apply Inv_insert; [done|done| |].
  - intros ->. destruct HI as (_ & ? & ? & Hc & _). congruence.
  - intros ? ? _ Hb ->. congruence.
Qed.

Lemma triple_updHistory p f :
  p ∉ dom h0 -> triple (updHistory p f) (fun _ => True).
Proof.
  intros Hp h [] h' HI H. split; [|done]. unfold updHistory in H.
  destruct (h !! p) as [[| | | |v|]|] eqn:Hv; try done. injection H as <-.
  apply Inv_insert; [done|done| |].
  - intros ->. destruct HI as (_ & ? & ? & Hc & _). congruence.
  - intros ? ? _ Hb ->. congruence.
Qed.

(** An assignment to fields of the clone that keeps its board and only
    installs references to objects created after the clone. *)
Lemma triple_updGame f :
  (forall o, freshObject h0 o ->
             freshObject h0 (f o) /\ boardRef (f o) = boardRef o) ->
  triple (updGame c f) (fun _ => True).
Proof.
  intros Hf h [] h' HI H. split; [|done].
  destruct HI as (Hsub & o & cells & Hc & Hcf & Hof & Hb & Hcells).
  unfold updGame in H. rewrite Hc in H. injection H as <-.
  destruct (Hf o Hof) as [Hof' Hbr].
  assert (boardRef o <> c) as Hne by (intros Heq; congruence).
  split.
  - apply insert_subseteq_r; [|done]. by apply not_elem_of_dom.
  - exists (f o), cells. rewrite lookup_insert_eq, Hbr.
    rewrite lookup_insert_ne by done. done.
Qed.
End Frame.

Section FrameMethods.
Variable h0 : Heap.
Variable c : loc.

Local Abbreviation holds := (triple h0 c).

Lemma freshOpt_None : freshOpt h0 None.
Proof. by intros p. Qed.

Lemma freshOpt_Some p : p ∉ dom h0 -> freshOpt h0 (Some p).
Proof. by intros Hp q [= <-]. Qed.

Lemma freshOpt_inv p : freshOpt h0 (Some p) -> p ∉ dom h0.
Proof. intros H. by apply H. Qed.

Local Ltac fresh_side :=
  lazymatch goal with
  | |- freshOpt _ None => apply freshOpt_None
  | |- freshOpt _ (Some _) =>
      apply freshOpt_Some; first [assumption | by apply freshOpt_inv]
  | |- freshOpt _ _ => assumption
  | |- _ ∉ dom _ =>
      first [ assumption
            | by apply freshOpt_inv
            | match goal with H : freshObject _ _ |- _ =>
                destruct H as (? & ? & ? & ?); assumption end ]
  end.

Local Ltac pure_side :=
  first [ apply pure_readPiece | apply pure_readBoard | apply pure_readKings
        | apply pure_readCaptured | apply pure_readHistory
        | apply pure_readGame | apply pure_snap | apply pure_hCell
        | apply pure_hGetPieceAt | apply pure_ret ].

Local Ltac prim :=
  first
    [ apply triple_readGame
    | apply triple_hCell
    | apply triple_hGetPieceAt
    | apply triple_alloc
    | apply triple_pure; pure_side
    | apply triple_hSetCell; fresh_side
    | apply triple_updPiece; fresh_side
    | apply triple_updKings; fresh_side
    | apply triple_updCaptured; fresh_side
    | apply triple_updHistory; fresh_side
    | apply triple_whenM; prim
    | by apply triple_ret ].

Local Ltac tstep :=
  cbv zeta;
  lazymatch goal with
  | |- triple _ _ (mbind _ _) _ =>
      eapply triple_bind; [prim | intros ? ?; cbv beta in *]
  | |- triple _ _ (mret _) _ => by apply triple_ret
  | |- triple _ _ (if ?b then _ else _) _ => destruct b
  end.

Lemma triple_keepRefs f :
  (forall o, boardRef (f o) = boardRef o /\ historyRef (f o) = historyRef o
             /\ capturedRef (f o) = capturedRef o
             /\ kingsRef (f o) = kingsRef o) ->
  holds (updGame c f) (fun _ => True).
Proof.
  intros Hf. apply triple_updGame. intros o (? & ? & ? & ?).
  unfold freshObject. destruct (Hf o) as (-> & -> & -> & ->). done.
Qed.

Lemma triple_hIsLegalMove fromRow fromCol toRow toCol :
  holds (hIsLegalMove c fromRow fromCol toRow toCol) (fun _ => True).
Proof.
  unfold hIsLegalMove. tstep. destruct a as [p|]; [|tstep].
  do 2 tstep. do 3 (tstep; [tstep|]).
  do 4 tstep.
  eapply triple_bind.
  { instantiate (1 := freshOpt h0). destruct (_ && _); [prim|].
    apply triple_ret, freshOpt_None. }
  intros ? ?. do 6 tstep.
  do 3 tstep.
  eapply triple_bind.
  { apply triple_updGame. intros o (? & ? & ? & ?). done. }
  intros ? ?. tstep. tstep.
Qed.

Lemma triple_hFilterLegal fromRow fromCol moves :
  holds (hFilterLegal c fromRow fromCol moves) (fun _ => True).
Proof.
  induction moves as [|[toRow toCol] rest IH]; cbn [hFilterLegal]; [tstep|].
  eapply triple_bind; [apply triple_hIsLegalMove|]. intros ok _.
  eapply triple_bind; [apply IH|]. intros l _. tstep.
Qed.

Lemma triple_hGetLegalMoves p :
  holds (hGetLegalMoves c p) (fun _ => True).
Proof. unfold hGetLegalMoves. do 2 tstep. apply triple_hFilterLegal. Qed.

Lemma triple_hHasLegalMovesFrom k squares :
  holds (hHasLegalMovesFrom c k squares) (fun _ => True).
Proof.
  induction squares as [|sq rest IH]; cbn [hHasLegalMovesFrom]; [tstep|].
  tstep. destruct a as [p|]; [|done]. tstep. tstep; [|done].
  eapply triple_bind; [apply triple_hGetLegalMoves|]. intros l _.
  tstep; [tstep|done].
Qed.

Lemma triple_hUpdateGameState :
  holds (hUpdateGameState c) (fun _ => True).
Proof.
  unfold hUpdateGameState. tstep.
  eapply triple_bind; [apply triple_hHasLegalMovesFrom|]. intros hm _.
  eapply triple_bind; [by apply triple_keepRefs|]. intros ? _.
  tstep. apply triple_whenM. by apply triple_keepRefs.
Qed.

Lemma triple_hHandleCastling fromRow fromCol toRow toCol :
  holds (hHandleCastling c fromRow fromCol toRow toCol) (fun _ => True).
Proof.
  unfold hHandleCastling. tstep. destruct a as [rook|]; [|tstep].
  do 2 tstep. prim.
Qed.

Lemma triple_hMakeMove fromRow fromCol toRow toCol promotionPiece :
  holds (hMakeMove c fromRow fromCol toRow toCol promotionPiece)
        (fun _ => True).
Proof.
  unfold hMakeMove. tstep. destruct a as [p|]; [|tstep].
  eapply triple_bind; [apply triple_hIsLegalMove|]. intros legal _.
  tstep; [tstep|]. do 3 tstep.
  eapply triple_bind.
  { instantiate (1 := freshOpt h0). destruct (_ && _ && _); [prim|].
    by apply triple_ret. }
  intros capt Hcapt. tstep.
  eapply triple_bind.
  { instantiate (1 := fun _ => True). unfold derefOpt.
    destruct capt; [|by apply triple_ret]. tstep. tstep. }
  intros cp _. tstep.
  eapply triple_bind.
  { instantiate (1 := fun _ => True).
    destruct capt, cp; try by apply triple_ret. prim. }
  intros ? _.
  eapply triple_bind; [by apply triple_keepRefs|]. intros ? _.
  do 6 tstep.
  eapply triple_bind.
  { apply triple_whenM, triple_hHandleCastling. }
  intros ? _.
  eapply triple_bind; [by apply triple_keepRefs|]. intros ? _.
  tstep.
  eapply triple_bind; [by apply triple_keepRefs|]. intros ? _.
  eapply triple_bind; [apply triple_hUpdateGameState|]. intros ? _.
  tstep.
Qed.

Lemma triple_hPlayAll moves : holds (hPlayAll c moves) (fun _ => True).
Proof.
  induction moves as [|[[from to] promotion] rest IH]; cbn [hPlayAll]; [tstep|].
  eapply triple_bind; [apply triple_hMakeMove|]. intros ok _.
  eapply triple_bind; [apply IH|]. intros oks _. tstep.
Qed.
End FrameMethods.

(** *** A clone is made of new objects *)

Lemma alloc_spec o h l h' :
  alloc o h = Some (l, h') -> (l ∉ dom h) /\ h' = <[l := o]> h /\ h ⊆ h'.
Proof.
  intros [= <- <-]. pose proof (is_fresh (dom h)) as Hf.
  split; [done|]. split; [done|].
  apply insert_subseteq. by apply not_elem_of_dom.
Qed.

Lemma allocRow_spec rw h cells h' :
  allocRow rw h = Some (cells, h') ->
  h ⊆ h' /\ forall p, Some p ∈ cells -> p ∉ dom h.
Proof.
  revert h cells h'. induction rw as [|x rest IH]; intros h cells h'.
  - intros [= <- <-]. split; [done|]. by intros p ?%elem_of_nil.
  - cbn [allocRow]. intros (v & h1 & Hv & H)%mbind_Some.
    apply mbind_Some in H as (vs & h2 & Hvs & [= <- <-]).
    apply IH in Hvs as [Hsub Hfresh].
    assert (h ⊆ h1 /\ forall p, v = Some p -> p ∉ dom h) as [Hsub1 Hv1].
    { destruct x as [piece|]; cbn [allocCell] in Hv.
      - apply mbind_Some in Hv as (l & h1' & Hl & [= <- <-]).
        apply alloc_spec in Hl as (? & _ & ?). split; [done|].
        by intros p [= <-].
      - injection Hv as <- <-. by split. }
    split; [by trans h1|].
    intros p [Heq|Hp%Hfresh]%elem_of_cons; [by apply Hv1|].
    intros Hin. apply Hp. by eapply subseteq_dom.
Qed.

Lemma allocRows_spec b h cells h' :
  allocRows b h = Some (cells, h') ->
  h ⊆ h' /\ forall rw p, rw ∈ cells -> Some p ∈ rw -> p ∉ dom h.
Proof.
  revert h cells h'. induction b as [|x rest IH]; intros h cells h'.
  - intros [= <- <-]. split; [done|]. by intros rw p ?%elem_of_nil.
  - cbn [allocRows]. intros (v & h1 & Hv & H)%mbind_Some.
    apply mbind_Some in H as (vs & h2 & Hvs & [= <- <-]).
    apply IH in Hvs as [Hsub Hfresh].
    apply allocRow_spec in Hv as [Hsub1 Hv1].
    split; [by trans h1|].
    intros rw p [->|Hrw]%elem_of_cons Hp; [by apply Hv1|].
    intros Hin. eapply Hfresh; [done..|]. by eapply subseteq_dom.
Qed.

Lemma hNewGame_Inv h0 h c h' :
  h0 ⊆ h -> hNewGame h = Some (c, h') -> Inv h0 c h'.
Proof.
  intros Hsub. unfold hNewGame.
  intros (cells & h1 & Hcells & H)%mbind_Some.
  apply mbind_Some in H as (b & h2 & Hb & H).
  apply mbind_Some in H as (hist & h3 & Hhist & H).
  apply mbind_Some in H as (caps & h4 & Hcaps & H).
  apply mbind_Some in H as (kings & h5 & Hkings & H).
  apply allocRows_spec in Hcells as [Hs1 Hfresh].
  apply alloc_spec in Hb as (Hb & -> & Hs2).
  apply alloc_spec in Hhist as (Hhist & -> & Hs3).
  apply alloc_spec in Hcaps as (Hcaps & -> & Hs4).
  apply alloc_spec in Hkings as (Hkings & -> & Hs5).
  apply alloc_spec in H as (Hc & -> & Hs6).
  pose proof (subseteq_dom _ _ Hsub) as Hd0.
  pose proof (subseteq_dom _ _ Hs1) as Hd1.
  pose proof (subseteq_dom _ _ Hs2) as Hd2.
  pose proof (subseteq_dom _ _ Hs3) as Hd3.
  pose proof (subseteq_dom _ _ Hs4) as Hd4.
  pose proof (subseteq_dom _ _ Hs5) as Hd5.
  rewrite !dom_insert_L in *.
  split; [by repeat (etrans; [|done])|].
  eexists _, cells. rewrite lookup_insert_eq.
  split; [done|]. split; [set_solver|]. split.
  { unfold freshObject. cbn. set_solver. }
  cbn [boardRef].
  split; [|intros rw p ? ?; by (assert (p ∉ dom h) by eauto; set_solver)].
  do 3 (eapply lookup_weaken; [|eassumption]).
  eapply lookup_weaken; [apply lookup_insert_eq|exact Hs3].
Qed.

Section CloneFrame.
Variable h0 : Heap.
Variable c : loc.

Local Abbreviation holds := (triple h0 c).

Lemma triple_hCopyPieces src squares :
  holds (hCopyPieces src c squares) (fun _ => True).
Proof.
  induction squares as [|sq rest IH]; cbn [hCopyPieces].
  { by apply triple_ret. }
  eapply triple_bind; [apply triple_pure, pure_hCell|]. intros pl _.
  eapply triple_bind; [|intros ? _; apply IH].
  instantiate (1 := fun _ => True).
  destruct pl as [p|]; [|by apply triple_ret].
  eapply triple_bind; [apply triple_pure, pure_readPiece|]. intros v _.
  eapply triple_bind; [apply triple_alloc|]. intros q Hq.
  by apply triple_hSetCell, freshOpt_Some.
Qed.

Lemma triple_cloneTail src :
  holds (mbind (hCopyPieces src c allSquares) (fun _ =>
         mbind (readGame src) (fun o =>
         mbind (readKings (kingsRef o)) (fun kings =>
         mbind (readCaptured (capturedRef o)) (fun caps =>
         mbind (readHistory (historyRef o)) (fun hist =>
         mbind (alloc (OKings kings)) (fun kings' =>
         mbind (alloc (OCaptured (mkPerColor (ofWhite caps) (ofBlack caps))))
           (fun caps' =>
         mbind (alloc (OHistory hist)) (fun hist' =>
         mbind (updGame c (fun k =>
           mkGameObject (boardRef k) (oCurrentPlayer o) (oGameState o) hist'
             caps' (oLastMove o) kings' (oEnPassantTarget o)
             (oHalfMoveClock o) (oFullMoveNumber o))) (fun _ =>
         mret c))))))))))
        (fun r => r = c).
Proof.
  eapply triple_bind; [apply triple_hCopyPieces|]. intros ? _.
  eapply triple_bind; [apply triple_pure, pure_readGame|]. intros o _.
  eapply triple_bind; [apply triple_pure, pure_readKings|]. intros kings _.
  eapply triple_bind; [apply triple_pure, pure_readCaptured|]. intros caps _.
  eapply triple_bind; [apply triple_pure, pure_readHistory|]. intros hist _.
  eapply triple_bind; [apply triple_alloc|]. intros kings' Hk.
  eapply triple_bind; [apply triple_alloc|]. intros caps' Hc.
  eapply triple_bind; [apply triple_alloc|]. intros hist' Hh.
  eapply triple_bind; [|intros ? _; by apply triple_ret].
  instantiate (1 := fun _ => True).
  apply triple_updGame. by intros k (? & ? & ? & ?).
Qed.

Lemma triple_aiCloneTail src :
  holds (mbind (hCopyPieces src c allSquares) (fun _ =>
         mbind (readGame src) (fun o =>
         mbind (readKings (kingsRef o)) (fun kings =>
         mbind (alloc (OKings kings)) (fun kings' =>
         mbind (updGame c (fun k =>
           mkGameObject (boardRef k) (oCurrentPlayer o) (oGameState o)
             (historyRef k) (capturedRef k) (oLastMove k) kings'
             (oEnPassantTarget o) (oHalfMoveClock o) (oFullMoveNumber o)))
           (fun _ => mret c))))))
        (fun r => r = c).
Proof.
  eapply triple_bind; [apply triple_hCopyPieces|]. intros ? _.
  eapply triple_bind; [apply triple_pure, pure_readGame|]. intros o _.
  eapply triple_bind; [apply triple_pure, pure_readKings|]. intros kings _.
  eapply triple_bind; [apply triple_alloc|]. intros kings' Hk.
  eapply triple_bind; [|intros ? _; by apply triple_ret].
  instantiate (1 := fun _ => True).
  apply triple_updGame. by intros k (? & ? & ? & ?).
Qed.
End CloneFrame.

Lemma hCloneGame_Inv h0 g c h1 :
  hCloneGame g h0 = Some (c, h1) -> Inv h0 c h1.
Proof.
  unfold hCloneGame. intros (c' & hA & Hnew & Htail)%mbind_Some.
  apply (hNewGame_Inv h0) in Hnew; [|done].
  destruct (triple_cloneTail h0 c' g _ _ _ Hnew Htail) as [HI ->]. done.
Qed.

Lemma hAiCloneGame_Inv h0 g c h1 :
  hAiCloneGame g h0 = Some (c, h1) -> Inv h0 c h1.
Proof.
  unfold hAiCloneGame. intros (c' & hA & Hnew & Htail)%mbind_Some.
  apply (hNewGame_Inv h0) in Hnew; [|done].
  destruct (triple_aiCloneTail h0 c' g _ _ _ Hnew Htail) as [HI ->]. done.
Qed.

(** C5.  In the object store, take a game [g] whose observable state is [G],
    clone it with [ChessGame.cloneGame] or with the [cloneGame] of the search
    engines, and apply any sequence of [makeMove] calls (any squares, any
    promotion pieces, accepted or rejected) to the clone: reading [g]
    afterwards gives [G] again — board occupancy and piece fields,
    [currentPlayer], [kingPositions], [enPassantTarget], the two clocks,
    [moveHistory], [capturedPieces], [lastMove] and the status. *)
Theorem clone_moves_leave_original_unchanged
    clone h0 g G c h1 moves oks h2 :
  isClone clone ->
  snapshot h0 g = Some G ->
  clone g h0 = Some (c, h1) ->
  hPlayAll c moves h1 = Some (oks, h2) ->
  snapshot h1 g = Some G /\ snapshot h2 g = Some G.
Proof.
  intros Hclone HG Hc Hplay.
  assert (Inv h0 c h1) as HI.
  { destruct Hclone as [-> | ->];
      [by eapply hCloneGame_Inv | by eapply hAiCloneGame_Inv]. }
  destruct (triple_hPlayAll h0 c moves _ _ _ HI Hplay) as [[Hsub _] _].
  destruct HI as [Hsub1 _].
  split; by eapply snapshot_mono.
Qed.

Lemma clone_moves_leave_original_unchanged_witness :
  snapshot sampleCloneHeap sampleGame = Some afterE4
  /\ snapshot sampleFinalHeap sampleGame = Some afterE4.
Proof.
  apply (clone_moves_leave_original_unchanged hCloneGame sampleHeap sampleGame
           afterE4 sampleClone sampleCloneHeap sampleMoves sampleResults
           sampleFinalHeap).
  - by left.
  - vm_compute. reflexivity.
  - vm_compute. reflexivity.
  - vm_compute. reflexivity.
Defined.

(** On the sample run the store and the record embedding tell the same
    story: the four moves are accepted and the clone ends in the game that
    [makeMove] computes on records. *)
Lemma store_agrees_with_records_on_sample :
  sampleResults = [true; true; true; true]
  /\ snapshot sampleCloneHeap sampleClone = Some (cloneGame afterE4)
  /\ snapshot sampleFinalHeap sampleClone
     = Some (snd (playAll (cloneGame afterE4)
                    (map (fun m => (fst (fst m), snd (fst m))) sampleMoves))).
Proof. vm_compute. repeat split. Qed.

(** * Further properties of the code *)

Section Generators.
Implicit Types (p : ChessPiece) (b : Board) (r c : Z).

Lemma Color_eqb_true a k : Color_eqb a k = true <-> a = k.
Proof. by destruct a, k. Qed.

Lemma Color_eqb_false a k : Color_eqb a k = false <-> a <> k.
Proof. by destruct a, k. Qed.

Lemma PieceType_eqb_true a t : PieceType_eqb a t = true <-> a = t.
Proof. by destruct a, t. Qed.

Lemma in_slide b p dr dc n i r c :
  In (r, c) (slide b p dr dc n i) <->
  exists k, i <= k < i + Z.of_nat n
    /\ r = row p + dr * k /\ c = col p + dc * k
    /\ (forall j, i <= j <= k ->
          onBoard (row p + dr * j) (col p + dc * j) = true)
    /\ (forall j, i <= j < k ->
          cell b (row p + dr * j) (col p + dc * j) = None)
    /\ notOwn b p r c.
Proof.
  revert i. induction n as [|n IH]; intros i.
  { cbn. split; [done|]. intros (k & ? & _). lia. }
  cbn [slide].
  destruct (onBoard (row p + dr * i) (col p + dc * i)) eqn:Hon; cbn [negb].
  2:{ split; [done|]. intros (k & Hk & _ & _ & Hall & _).
      rewrite Hall in Hon by lia. done. }
  destruct (cell b (row p + dr * i) (col p + dc * i)) as [q|] eqn:Hc.
  - destruct (Color_eqb (color q) (color p)) eqn:Hq; cbn [negb].
    + split; [done|]. intros (k & Hk & -> & -> & _ & Hnone & Hno).
      destruct (decide (k = i)) as [->|Hne].
      * unfold notOwn in Hno. rewrite Hc in Hno.
        by apply Color_eqb_true in Hq.
      * rewrite Hnone in Hc by lia. done.
    + apply Color_eqb_false in Hq. split.
      * intros [[= <- <-]|[]]. exists i. unfold notOwn. rewrite Hc.
        split; [lia|]. split; [done|]. split; [done|].
        split; [intros j Hj; by replace j with i by lia|].
        split; [intros j Hj; lia|done].
      * intros (k & Hk & -> & -> & _ & Hnone & _).
        destruct (decide (k = i)) as [->|Hne]; [by left|].
        rewrite Hnone in Hc by lia. done.
  - cbn [In]. rewrite IH. split.
    + intros [[= <- <-]|(k & Hk & -> & -> & Hon' & Hnone & Hno)].
      * exists i. unfold notOwn. rewrite Hc.
        split; [lia|]. split; [done|]. split; [done|].
        split; [intros j Hj; by replace j with i by lia|].
        split; [intros j Hj; lia|done].
      * exists k. split; [lia|]. split; [done|]. split; [done|].
        split; [|split; [|done]].
        -- intros j Hj. destruct (decide (j = i)) as [->|]; [done|].
           apply Hon'. lia.
        -- intros j Hj. destruct (decide (j = i)) as [->|]; [done|].
           apply Hnone. lia.
    + intros (k & Hk & -> & -> & Hon' & Hnone & Hno).
      destruct (decide (k = i)) as [->|Hne]; [by left|].
      right. exists k. split; [lia|]. split; [done|]. split; [done|].
      split; [|split; [|done]].
      * intros j Hj. apply Hon'. lia.
      * intros j Hj. apply Hnone. lia.
Qed.

Lemma in_slideAll b p dirs r c :
  In (r, c) (slideAll b p dirs) <->
  exists d, In d dirs /\ In (r, c) (slide b p (fst d) (snd d) 7 1).
Proof. unfold slideAll. by rewrite in_flat_map. Qed.

Lemma in_stepMoves b p offsets r c :
  In (r, c) (stepMoves b p offsets) <->
  exists o, In o offsets /\ r = row p + fst o /\ c = col p + snd o
    /\ onBoard r c = true /\ notOwn b p r c.
Proof.
  unfold stepMoves. rewrite in_flat_map. unfold notOwn.
  split; intros (o & Ho & H); exists o; (split; [done|]).
  - destruct (onBoard _ _) eqn:Hon; [|done].
    destruct (cell b _ _) as [q|] eqn:Hc.
    + destruct (Color_eqb (color q) (color p)) eqn:Hq; cbn [negb] in H;
        [done|]. destruct H as [[= <- <-]|[]].
      rewrite Hc. apply Color_eqb_false in Hq. done.
    + destruct H as [[= <- <-]|[]]. by rewrite Hc.
  - destruct H as (-> & -> & Hon & Hno). rewrite Hon.
    destruct (cell b _ _) as [q|]; [|by left].
    apply Color_eqb_false in Hno. rewrite Hno. by left.
Qed.

Lemma sliding_dispatch p b ctx :
  type p = ROOK \/ type p = BISHOP \/ type p = QUEEN ->
  forall sq, In sq (getPossibleMoves p b ctx) <->
             In sq (slideAll b p (lineDirections (type p))).
Proof.
  intros Ht sq. unfold getPossibleMoves.
  destruct Ht as [->|[->| ->]]; cbn [lineDirections]; try done.
  unfold getQueenMoves, getRookMoves, getBishopMoves, slideAll.
  by rewrite <- flat_map_app.
Qed.

End Generators.

Lemma in_sliding_moves p b ctx r c :
  onBoard (row p) (col p) = true ->
  type p = ROOK \/ type p = BISHOP \/ type p = QUEEN ->
  (In (r, c) (getPossibleMoves p b ctx) <->
   onBoard r c = true /\ notOwn b p r c
   /\ exists d k, In d (lineDirections (type p)) /\ 1 <= k
        /\ r = row p + fst d * k /\ c = col p + snd d * k
        /\ clearPath b p d k).
Proof.
  intros Hp Ht. rewrite (sliding_dispatch p b ctx Ht), in_slideAll.
  apply onBoard_spec in Hp. split.
  - intros (d & Hd & Hin). apply in_slide in Hin
      as (k & Hk & -> & -> & Hon & Hnone & Hno).
    split; [apply Hon; lia|]. split; [done|].
    exists d, k. repeat split; try done; try lia.
  - intros (Hon & Hno & d & k & Hd & Hk & -> & -> & Hclear).
    exists d. split; [done|]. apply in_slide. exists k.
    apply onBoard_spec in Hon.
    assert (In d (lineDirections QUEEN)) as Hq.
    { destruct Ht as [Ht|[Ht|Ht]]; rewrite Ht in Hd; cbn in Hd |- *;
        intuition. }
    assert (k <= 7 /\ forall j, 1 <= j <= k ->
              onBoard (row p + fst d * j) (col p + snd d * j) = true)
      as [Hk7 Hall].
    { cbn in Hq.
      repeat (destruct Hq as [<-|Hq]; [cbn [fst snd] in *;
        (split; [lia|intros j Hj; apply onBoard_spec; lia])|]).
      done. }
    repeat split; try done; try lia.
Qed.

(** Rooks, bishops and queens reach exactly the squares of their lines up
    to the first occupied square, that square included when it holds a piece
    of the other colour: they never jump and never leave the board. *)
Theorem sliding_moves_follow_clear_lines p b ctx r c :
  onBoard (row p) (col p) = true ->
  type p = ROOK \/ type p = BISHOP \/ type p = QUEEN ->
  (In (r, c) (getPossibleMoves p b ctx) <->
   onBoard r c = true /\ notOwn b p r c
   /\ exists d k, In d (lineDirections (type p)) /\ 1 <= k
        /\ r = row p + fst d * k /\ c = col p + snd d * k
        /\ clearPath b p d k).
Proof. apply in_sliding_moves. Qed.

Lemma sliding_moves_follow_clear_lines_witness :
  In (2, 0) (getPossibleMoves (mkPiece ROOK WHITE 5 0 true)
               (setCell emptyBoard 5 0 (Some (mkPiece ROOK WHITE 5 0 true)))
               emptyContext) <->
  onBoard 2 0 = true
  /\ notOwn (setCell emptyBoard 5 0 (Some (mkPiece ROOK WHITE 5 0 true)))
            (mkPiece ROOK WHITE 5 0 true) 2 0
  /\ exists d k, In d (lineDirections ROOK) /\ 1 <= k
       /\ 2 = 5 + fst d * k /\ 0 = 0 + snd d * k
       /\ clearPath (setCell emptyBoard 5 0 (Some (mkPiece ROOK WHITE 5 0 true)))
                    (mkPiece ROOK WHITE 5 0 true) d k.
Proof.
  apply (sliding_moves_follow_clear_lines (mkPiece ROOK WHITE 5 0 true)
           (setCell emptyBoard 5 0 (Some (mkPiece ROOK WHITE 5 0 true)))
           emptyContext 2 0).
  - reflexivity.
  - left. reflexivity.
Defined.

Lemma in_knight_moves p b ctx r c :
  type p = KNIGHT ->
  (In (r, c) (getPossibleMoves p b ctx) <->
   onBoard r c = true /\ notOwn b p r c
   /\ ((Z.abs (r - row p) = 1 /\ Z.abs (c - col p) = 2)
       \/ (Z.abs (r - row p) = 2 /\ Z.abs (c - col p) = 1))).
Proof.
  intros Ht. unfold getPossibleMoves. rewrite Ht.
  unfold getKnightMoves. rewrite in_stepMoves. split.
  - intros (o & Ho & -> & -> & Hon & Hno). split; [done|]. split; [done|].
    cbn in Ho.
    repeat (destruct Ho as [<-|Ho]; [cbn [fst snd]; lia|]). done.
  - intros (Hon & Hno & Hgeo).
    exists (r - row p, c - col p). cbn [fst snd].
    split; [|repeat split; try done; lia].
    cbn.
    assert (forall x y : Z, (x, y) = (r - row p, c - col p)
              <-> x = r - row p /\ y = c - col p) as Hpair.
    { intros x y. split; [by intros [= -> ->]|by intros [-> ->]]. }
    rewrite !Hpair. lia.
Qed.

(** A knight reaches exactly the on-board squares one row and two columns,
    or two rows and one column, away that do not hold a piece of its own
    colour. *)
Theorem knight_moves_are_the_L_jumps p b ctx r c :
  type p = KNIGHT ->
  (In (r, c) (getPossibleMoves p b ctx) <->
   onBoard r c = true /\ notOwn b p r c
   /\ ((Z.abs (r - row p) = 1 /\ Z.abs (c - col p) = 2)
       \/ (Z.abs (r - row p) = 2 /\ Z.abs (c - col p) = 1))).
Proof. apply in_knight_moves. Qed.

Lemma knight_moves_are_the_L_jumps_witness :
  In (5, 2) (getPossibleMoves (newPiece KNIGHT WHITE 7 1) initializeBoard
               emptyContext) <->
  onBoard 5 2 = true /\ notOwn initializeBoard (newPiece KNIGHT WHITE 7 1) 5 2
  /\ ((Z.abs (5 - 7) = 1 /\ Z.abs (2 - 1) = 2)
      \/ (Z.abs (5 - 7) = 2 /\ Z.abs (2 - 1) = 1)).
Proof.
  apply (knight_moves_are_the_L_jumps (newPiece KNIGHT WHITE 7 1)
           initializeBoard emptyContext 5 2).
  reflexivity.
Defined.

Lemma in_king_moves p b ctx r c :
  type p = KING ->
  (In (r, c) (getPossibleMoves p b ctx) <->
   (onBoard r c = true /\ notOwn b p r c
    /\ Z.max (Z.abs (r - row p)) (Z.abs (c - col p)) = 1)
   \/ (hasMoved p = false /\ col p = 4 /\ r = row p
       /\ ((c = 6 /\ canCastleKingSide ctx = true)
           \/ (c = 2 /\ canCastleQueenSide ctx = true)))).
Proof.
  intros Ht. unfold getPossibleMoves. rewrite Ht.
  unfold getKingMoves. rewrite in_app_iff, in_stepMoves.
  match goal with |- (?A \/ ?B) <-> (?C \/ ?D) =>
    cut ((A <-> C) /\ (B <-> D)); [tauto|split] end.
  - split.
    + intros (o & Ho & -> & -> & Hon & Hno). split; [done|]. split; [done|].
      cbn in Ho.
      repeat (destruct Ho as [<-|Ho]; [cbn [fst snd]; lia|]). done.
    + intros (Hon & Hno & Hgeo).
      exists (r - row p, c - col p). cbn [fst snd].
      split; [|repeat split; try done; lia].
      cbn.
      assert (forall x y : Z, (x, y) = (r - row p, c - col p)
                <-> x = r - row p /\ y = c - col p) as Hpair.
      { intros x y. split; [by intros [= -> ->]|by intros [-> ->]]. }
      rewrite !Hpair. lia.
  - destruct (hasMoved p), (col p =? 4) eqn:Hc4; cbn [negb andb];
      try (split; [done|intros (? & ? & _); (done || lia)]).
    apply Z.eqb_eq in Hc4.
    rewrite in_app_iff.
    destruct (canCastleKingSide ctx), (canCastleQueenSide ctx); cbn [In];
      split; intros H;
      repeat match goal with
             | H : _ \/ _ |- _ => destruct H
             | H : _ /\ _ |- _ => destruct H
             | H : (_, _) = (_, _) |- _ => injection H as <- <-
             | H : False |- _ => destruct H
             end; subst; try done; try lia; auto 10.
Qed.

(** A king reaches exactly the neighbouring on-board squares that do not
    hold a piece of its own colour, plus, for an unmoved king on the e-file,
    the g- and c-file squares of its row when the context allows castling on
    that side. *)
Theorem king_moves_are_the_neighbours_and_castling p b ctx r c :
  type p = KING ->
  (In (r, c) (getPossibleMoves p b ctx) <->
   (onBoard r c = true /\ notOwn b p r c
    /\ Z.max (Z.abs (r - row p)) (Z.abs (c - col p)) = 1)
   \/ (hasMoved p = false /\ col p = 4 /\ r = row p
       /\ ((c = 6 /\ canCastleKingSide ctx = true)
           \/ (c = 2 /\ canCastleQueenSide ctx = true)))).
Proof. apply in_king_moves. Qed.

Lemma in_getPawnMoves p b ep r c :
  In (r, c) (getPawnMoves p b ep) <->
  (c = col p /\ r = row p + direction (color p) /\ 0 <= r < 8
   /\ cell b r c = None)
  \/ (c = col p /\ r = row p + 2 * direction (color p)
      /\ row p = startRow (color p)
      /\ cell b (row p + direction (color p)) c = None
      /\ cell b r c = None)
  \/ (Z.abs (c - col p) = 1 /\ r = row p + direction (color p)
      /\ onBoard r c = true /\ holdsEnemy b p r c)
  \/ (ep = Some (r, c) /\ row p = enPassantRow (color p)
      /\ Z.abs (c - col p) = 1 /\ r = row p + direction (color p)).
Proof.
  unfold getPawnMoves, holdsEnemy. cbv zeta.
  set (dir := direction (color p)).
  set (nr := row p + dir).
  assert (forall k, 
    In (r, c)
      (if (0 <=? col p + k) && (col p + k <? 8) && (0 <=? nr) && (nr <? 8)
       then match cell b nr (col p + k) with
            | Some targetPiece =>
                if negb (Color_eqb (color targetPiece) (color p))
                then [(nr, col p + k)] else []
            | None => []
            end
       else [])
    <-> (c = col p + k /\ r = nr /\ onBoard r c = true
         /\ exists q, cell b r c = Some q /\ color q <> color p)) as Hdiag.
  { intros k.
    destruct ((0 <=? col p + k) && (col p + k <? 8) && (0 <=? nr) && (nr <? 8))
      eqn:Hrange.
    - destruct (cell b nr (col p + k)) as [q|] eqn:Hq.
      + destruct (Color_eqb (color q) (color p)) eqn:Hcol; cbn [negb].
        * apply Color_eqb_true in Hcol. split; [done|].
          intros (-> & -> & _ & q' & Hq' & Hne). congruence.
        * apply Color_eqb_false in Hcol. split.
          -- intros [[= <- <-]|[]]. repeat split; try done.
             ++ unfold onBoard. rewrite !andb_true_iff in *. lia.
             ++ by exists q.
          -- intros (-> & -> & _). by left.
      + split; [done|]. intros (-> & -> & _ & q' & Hq' & _). congruence.
    - split; [done|]. intros (-> & -> & Hon & _).
      unfold onBoard in Hon. rewrite !andb_true_iff in Hon.
      apply not_true_iff_false in Hrange. apply Hrange.
      rewrite !andb_true_iff. lia. }
  rewrite !in_app_iff, (Hdiag (-1)), (Hdiag 1).
  assert (dir = -1 \/ dir = 1) as Hdir by (unfold dir; destruct (color p); auto).
  split.
  - intros [Hf|[Hd|[Hd|He]]].
    + destruct ((0 <=? nr) && (nr <? 8) && isNone (cell b nr (col p))) eqn:H1;
        [|done].
      rewrite !andb_true_iff in H1. destruct H1 as [[Hr1 Hr2] Hn].
      destruct (cell b nr (col p)) eqn:Hc1; [done|].
      destruct Hf as [[= <- <-]|Hf]; [left; repeat split; try done; lia|].
      destruct ((row p =? startRow (color p))
                && isNone (cell b (nr + dir) (col p))) eqn:H2; [|done].
      rewrite andb_true_iff in H2. destruct H2 as [Hs Hn2].
      destruct (cell b (nr + dir) (col p)) eqn:Hc2; [done|].
      destruct Hf as [[= <- <-]|[]]. right; left.
      replace (row p + 2 * dir) with (nr + dir) by (unfold nr; lia).
      repeat split; try done; unfold nr in *; try lia.
    + destruct Hd as (-> & -> & Hon & Hq). right; right; left.
      repeat split; try done; lia.
    + destruct Hd as (-> & -> & Hon & Hq). right; right; left.
      repeat split; try done; lia.
    + destruct ep as [[tr tc]|]; [|done].
      destruct ((row p =? enPassantRow (color p))
                && (Z.abs (tc - col p) =? 1) && (tr =? nr)) eqn:H3;
        [|done].
      rewrite !andb_true_iff in H3. destruct H3 as [[H3a H3b] H3c].
      destruct He as [[= <- <-]|[]]. right; right; right.
      unfold nr in *. repeat split; lia.
  - intros [(-> & Hr & Hrange & Hn)|[(-> & Hr & Hs & Hn1 & Hn2)|
             [(Habs & Hr & Hon & Hq)|(-> & Hs & Habs & Hr)]]].
    + left. fold nr in Hr. subst r.
      replace ((0 <=? nr) && (nr <? 8)) with true by lia.
      rewrite Hn. by left.
    + left. 
      assert (0 <= nr < 8) as Hnr.
      { unfold nr. rewrite Hs. unfold dir. destruct (color p); cbn; lia. }
      replace ((0 <=? nr) && (nr <? 8)) with true by lia.
      fold dir nr in Hn1. rewrite Hn1. cbn [isNone andb]. right.
      replace (row p =? startRow (color p)) with true by lia.
      replace (nr + dir) with r by (unfold nr; lia).
      rewrite Hn2. by left.
    + right. fold nr in Hr.
      destruct (decide (c = col p + -1)) as [->|Hne];
        [left; done|right; left; split; [lia|done]].
    + right; right; right.
      replace (row p =? enPassantRow (color p)) with true by lia.
      replace (Z.abs (c - col p) =? 1) with true by lia.
      replace (r =? nr) with true by (unfold nr; fold dir in Hr; lia).
      by left.
Qed.

(** A pawn's moves are: one row forward onto an empty square; two rows
    forward from its starting row through and onto empty squares; one row
    forward and one column aside onto a piece of the other colour; and the
    en-passant target, when the pawn stands on its en-passant row one column
    beside and one row behind it. *)
Theorem pawn_moves_are_pushes_and_diagonal_captures p b ep r c :
  In (r, c) (getPawnMoves p b ep) <->
  (c = col p /\ r = row p + direction (color p) /\ 0 <= r < 8
   /\ cell b r c = None)
  \/ (c = col p /\ r = row p + 2 * direction (color p)
      /\ row p = startRow (color p)
      /\ cell b (row p + direction (color p)) c = None
      /\ cell b r c = None)
  \/ (Z.abs (c - col p) = 1 /\ r = row p + direction (color p)
      /\ onBoard r c = true /\ holdsEnemy b p r c)
  \/ (ep = Some (r, c) /\ row p = enPassantRow (color p)
      /\ Z.abs (c - col p) = 1 /\ r = row p + direction (color p)).
Proof. apply in_getPawnMoves. Qed.

Lemma king_moves_are_the_neighbours_and_castling_witness :
  In (6, 4) (getPossibleMoves (newPiece KING WHITE 7 4)
               (setCell emptyBoard 7 4 (Some (newPiece KING WHITE 7 4)))
               emptyContext) <->
  (onBoard 6 4 = true
   /\ notOwn (setCell emptyBoard 7 4 (Some (newPiece KING WHITE 7 4)))
             (newPiece KING WHITE 7 4) 6 4
   /\ Z.max (Z.abs (6 - 7)) (Z.abs (4 - 4)) = 1)
  \/ (hasMoved (newPiece KING WHITE 7 4) = false /\ 4 = 4 /\ 6 = 7
      /\ ((4 = 6 /\ canCastleKingSide emptyContext = true)
          \/ (4 = 2 /\ canCastleQueenSide emptyContext = true))).
Proof.
  apply (king_moves_are_the_neighbours_and_castling (newPiece KING WHITE 7 4)
           (setCell emptyBoard 7 4 (Some (newPiece KING WHITE 7 4)))
           emptyContext 6 4).
  reflexivity.
Defined.

Section GeneratorFacts.
Implicit Types (p : ChessPiece) (b : Board) (r c : Z).

Lemma in_getPossibleMoves_cases p b ctx r c :
  onBoard (row p) (col p) = true ->
  In (r, c) (getPossibleMoves p b ctx) ->
  (onBoard r c = true /\ notOwn b p r c)
  \/ (type p = KING /\ hasMoved p = false /\ col p = 4 /\ r = row p
      /\ (c = 6 \/ c = 2))
  \/ (type p = PAWN /\ ctxEnPassantTarget ctx = Some (r, c)
      /\ Z.abs (c - col p) = 1 /\ r = row p + direction (color p)).
Proof.
  intros Hp Hin. destruct (type p) eqn:Ht.
  - unfold getPossibleMoves in Hin. rewrite Ht in Hin.
    apply in_getPawnMoves in Hin.
    apply onBoard_spec in Hp. unfold notOwn.
    destruct Hin as [(-> & -> & Hr & Hn)|[(-> & -> & Hs & Hn1 & Hn2)|
      [(Ha & -> & Hon & q & Hq & Hne)|(Hep & Hs & Ha & ->)]]].
    + left. rewrite Hn. split; [apply onBoard_spec; lia|done].
    + left. rewrite Hn2. split; [|done]. apply onBoard_spec.
      rewrite Hs. destruct (color p); cbn; lia.
    + left. rewrite Hq. done.
    + right; right. done.
  - apply in_knight_moves in Hin as (? & ? & _); auto.
  - apply in_sliding_moves in Hin as (? & ? & _); auto.
  - apply in_sliding_moves in Hin as (? & ? & _); auto.
  - apply in_sliding_moves in Hin as (? & ? & _); auto.
  - apply in_king_moves in Hin
      as [(? & ? & _)|(? & ? & ? & ?)]; auto.
    right; left. intuition.
Qed.

End GeneratorFacts.

Lemma possible_moves_onBoard p b ctx r c :
  onBoard (row p) (col p) = true ->
  (forall ep, ctxEnPassantTarget ctx = Some ep ->
     onBoard (fst ep) (snd ep) = true) ->
  In (r, c) (getPossibleMoves p b ctx) -> onBoard r c = true.
Proof.
  intros Hp Hep Hin.
  destruct (in_getPossibleMoves_cases p b ctx r c Hp Hin)
    as [[Hon _]|[(_ & _ & _ & -> & Hc)|(_ & He & _)]]; [done| |].
  - apply onBoard_spec in Hp. apply onBoard_spec. lia.
  - by apply (Hep (r, c)).
Qed.

(** Every square a move generator returns lies on the board, for a piece
    that stands on the board and an en-passant target that does. *)
Theorem possible_moves_stay_on_the_board p b ctx r c :
  onBoard (row p) (col p) = true ->
  (forall ep, ctxEnPassantTarget ctx = Some ep ->
     onBoard (fst ep) (snd ep) = true) ->
  In (r, c) (getPossibleMoves p b ctx) -> onBoard r c = true.
Proof. apply possible_moves_onBoard. Qed.

Lemma possible_moves_stay_on_the_board_witness :
  onBoard 4 4 = true.
Proof.
  apply (possible_moves_stay_on_the_board (newPiece PAWN WHITE 6 4)
           initializeBoard emptyContext 4 4).
  - reflexivity.
  - intros ep Hep. discriminate Hep.
  - vm_compute. right. left. reflexivity.
Defined.

Section RulesFacts.
Implicit Types (g : ChessGame) (b : Board) (p : ChessPiece).

Lemma getPieceAt_onBoard g r c p :
  getPieceAt g r c = Some p -> onBoard r c = true.
Proof.
  unfold getPieceAt.
  destruct ((r <? 0) || (r >=? 8) || (c <? 0) || (c >=? 8)) eqn:H; [done|].
  intros _. rewrite !orb_false_iff in H. apply onBoard_spec. lia.
Qed.

Lemma getPieceAt_on g r c :
  onBoard r c = true -> getPieceAt g r c = cell (board g) r c.
Proof.
  intros H. apply onBoard_spec in H. unfold getPieceAt.
  replace ((r <? 0) || (r >=? 8) || (c <? 0) || (c >=? 8)) with false by lia.
  done.
Qed.

Lemma piecesPlaced_setCell b r c v :
  boardShape b -> piecesPlaced b ->
  (forall q, v = Some q -> row q = r /\ col q = c) ->
  piecesPlaced (setCell b r c v).
Proof.
  intros Hs Hp Hv r' c' q. rewrite cell_setCell by done.
  case_decide as Hd; [|apply Hp].
  destruct Hd as (<- & <- & _). apply Hv.
Qed.

Lemma piecesPlacedb_intro b : piecesPlaced b -> piecesPlacedb b = true.
Proof.
  intros Hp. unfold piecesPlacedb. apply forallb_forall. intros [r c] _.
  cbn [fst snd]. destruct (cell b r c) as [q|] eqn:Hq; [|done].
  destruct (Hp r c q Hq) as [-> ->]. lia.
Qed.

Lemma wellFormed_intro g :
  boardShape (board g) -> piecesPlaced (board g) ->
  (forall ep, enPassantTarget g = Some ep -> onBoard (fst ep) (snd ep) = true) ->
  wellFormed g = true.
Proof.
  intros Hs Hp Hep. unfold wellFormed. rewrite !andb_true_iff.
  split; [split|].
  - by apply boardShapeb_spec.
  - by apply piecesPlacedb_intro.
  - destruct (enPassantTarget g) as [ep|]; [|done]. by apply Hep.
Qed.

(** What a legal move is, on a well-formed game. *)
Lemma legal_move_facts g fromRow fromCol toRow toCol :
  wellFormed g = true ->
  fst (isLegalMove g fromRow fromCol toRow toCol) = true ->
  exists piece,
    getPieceAt g fromRow fromCol = Some piece
    /\ cell (board g) fromRow fromCol = Some piece
    /\ row piece = fromRow /\ col piece = fromCol
    /\ color piece = currentPlayer g
    /\ onBoard fromRow fromCol = true /\ onBoard toRow toCol = true
    /\ In (toRow, toCol) (getPossibleMoves piece (board g) (contextOf g piece))
    /\ (fromRow, fromCol) <> (toRow, toCol)
    /\ (isCastlingStep piece fromCol toCol = true ->
          fromCol = 4 /\ toRow = fromRow /\ (toCol = 6 \/ toCol = 2))
    /\ (type piece = PAWN -> Z.abs (toCol - fromCol) <= 1
          /\ (toRow = fromRow + direction (color piece)
              \/ toRow = fromRow + 2 * direction (color piece)
                 /\ toCol = fromCol
                 /\ fromRow = startRow (color piece)
                 /\ cell (board g) (fromRow + direction (color piece)) fromCol
                    = None
                 /\ cell (board g) toRow toCol = None)).
Proof.
  intros Hwf Hl.
  destruct (isLegalMove_true_inv _ _ _ _ _ Hl) as (piece & Hp & Hc & Hin).
  exists piece.
  destruct (getPieceAt_placed _ _ _ _ Hwf Hp) as [Hr Hk].
  pose proof (getPieceAt_onBoard _ _ _ _ Hp) as Hon.
  pose proof (getPieceAt_cell _ _ _ _ Hp) as Hcell.
  assert (onBoard (row piece) (col piece) = true) as Hon' by by rewrite Hr, Hk.
  assert (onBoard toRow toCol = true) as Hto.
  { eapply possible_moves_onBoard; [exact Hon'| |exact Hin].
    intros [er ec] He. cbn in He. by eapply wellFormed_enPassant. }
  repeat (split; [done|]).
  destruct (in_getPossibleMoves_cases _ _ _ _ _ Hon' Hin)
    as [[_ Hno]|[(Ht & _ & Hc4 & Hrr & Hcc)|(Ht & _ & Ha & Hrr)]].
  - split; [|split].
    + intros [= <- <-]. unfold notOwn in Hno. rewrite Hcell in Hno. done.
    + unfold isCastlingStep. rewrite andb_true_iff.
      intros [Hking Habs]. apply PieceType_eqb_true in Hking.
      unfold getPossibleMoves in Hin. 
      assert (In (toRow, toCol) (getPossibleMoves piece (board g)
                (contextOf g piece))) as Hin' by done.
      apply in_king_moves in Hin' as [(_ & _ & Hm)|(_ & ? & ? & ?)];
        [lia|lia|done].
    + intros Ht.
      assert (In (toRow, toCol)
                (getPawnMoves piece (board g) (enPassantTarget g))) as Hin'.
      { unfold getPossibleMoves in Hin. by rewrite Ht in Hin. }
      apply in_getPawnMoves in Hin'.
      rewrite Hr, Hk in Hin'.
      destruct Hin' as [(-> & -> & _)|[(-> & -> & Hs & Hn1 & Hn2)|
        [(Habs & -> & _)|(_ & _ & Habs & ->)]]]; (split; [lia|]); auto.
      right. done.
  - rewrite Hr, Hk in *. split; [|split].
    + intros [= _ <-]. lia.
    + intros _. subst. done.
    + congruence.
  - rewrite Hr, Hk in *. split; [|split].
    + intros [= _ <-]. lia.
    + unfold isCastlingStep. rewrite Ht. done.
    + intros _. split; [lia|]. by left.
Qed.

Lemma handleCastling_fields g fromRow fromCol toRow toCol :
  exists b, handleCastling g fromRow fromCol toRow toCol = withBoard g b.
Proof.
  unfold handleCastling. destruct (getPieceAt g _ _); eauto.
  exists (board g). by destruct g.
Qed.

End RulesFacts.

Section ApplyMove.
Implicit Types (g : ChessGame) (b : Board) (p : ChessPiece).

Local Ltac shape_side :=
  repeat first [done | apply setCell_shape | apply handleCastling_shape
               | match goal with |- boardShape (if ?c then _ else _) =>
                   destruct c end].

Lemma handleCastling_placed g fromRow fromCol toRow toCol :
  boardShape (board g) -> piecesPlaced (board g) ->
  piecesPlaced (board (handleCastling g fromRow fromCol toRow toCol)).
Proof.
  intros Hs Hp. unfold handleCastling.
  destruct (getPieceAt g fromRow _) as [rook|]; [|done]. cbn [board withBoard].
  apply piecesPlaced_setCell; [shape_side| |done].
  apply piecesPlaced_setCell; [done|done|].
  by intros q [= <-].
Qed.

Lemma applyMove_placed g piece fromRow fromCol toRow toCol promotionPiece :
  boardShape (board g) -> piecesPlaced (board g) ->
  piecesPlaced
    (board (applyMove g piece fromRow fromCol toRow toCol promotionPiece)).
Proof.
  intros Hs Hp. unfold applyMove. cbn [board].
  match goal with
  | |- context [if ?c then handleCastling ?x _ _ _ _ else _] =>
      assert (boardShape (board x) /\ piecesPlaced (board x)) as [Hs1 Hp1];
        [|destruct c; [by apply handleCastling_placed|done]]
  end.
  cbn [board]. split; [shape_side|].
  apply piecesPlaced_setCell; [shape_side| |done].
  apply piecesPlaced_setCell; [shape_side| |].
  - match goal with |- context [if ?e then _ else _] => destruct e end;
      [apply piecesPlaced_setCell|]; done.
  - intros q [= <-].
    match goal with |- context [if ?e then _ else _] => destruct e end; done.
Qed.

Lemma applyMove_enPassantTarget_eq g piece fromRow fromCol toRow toCol promo :
  enPassantTarget (applyMove g piece fromRow fromCol toRow toCol promo) =
  if PieceType_eqb (typeAfterMove piece toRow promo) PAWN
     && (Z.abs (toRow - fromRow) =? 2)
  then Some (fromRow + (toRow - fromRow) / 2, fromCol) else None.
Proof.
  unfold applyMove, typeAfterMove. cbn [enPassantTarget moveTo type setType].
  by destruct (PieceType_eqb (type piece) PAWN
               && ((toRow =? 0) || (toRow =? 7))).
Qed.

Lemma applyMove_board_cell g piece fromRow fromCol toRow toCol promo r c :
  boardShape (board g) ->
  onBoard fromRow fromCol = true -> onBoard toRow toCol = true ->
  (fromRow, fromCol) <> (toRow, toCol) ->
  (isCastlingStep piece fromCol toCol = true ->
     fromCol = 4 /\ toRow = fromRow /\ (toCol = 6 \/ toCol = 2)) ->
  (type piece = PAWN -> Z.abs (toCol - fromCol) <= 1) ->
  (r = fromRow /\ c = fromCol ->
     cell (board (applyMove g piece fromRow fromCol toRow toCol promo)) r c
     = None)
  /\ (r = toRow /\ c = toCol ->
     cell (board (applyMove g piece fromRow fromCol toRow toCol promo)) r c
     = Some (setType (moveTo piece toRow toCol)
               (typeAfterMove piece toRow promo))).
Proof.
  intros Hs Hfrom Hto Hne Hcastle Hpawn.
  assert (setType (moveTo piece toRow toCol) (typeAfterMove piece toRow promo)
          = if PieceType_eqb (type (moveTo piece toRow toCol)) PAWN
               && ((toRow =? 0) || (toRow =? 7))
            then setType (moveTo piece toRow toCol) promo
            else moveTo piece toRow toCol) as Hfinal.
  { unfold typeAfterMove. cbn [moveTo type].
    by destruct (PieceType_eqb (type piece) PAWN && ((toRow =? 0) || (toRow =? 7))). }
  rewrite Hfinal. clear Hfinal.
  unfold applyMove. cbn [board].
  set (final := if PieceType_eqb (type (moveTo piece toRow toCol)) PAWN
                   && ((toRow =? 0) || (toRow =? 7))
                then setType (moveTo piece toRow toCol) promo
                else moveTo piece toRow toCol).
  match goal with
  | |- context [setCell (setCell ?x toRow toCol (Some final)) fromRow fromCol None] =>
      set (b1 := x)
  end.
  assert (boardShape b1) as Hs1 by (unfold b1; shape_side).
  assert (cell (setCell (setCell b1 toRow toCol (Some final)) fromRow fromCol None)
            fromRow fromCol = None
          /\ cell (setCell (setCell b1 toRow toCol (Some final)) fromRow fromCol None)
            toRow toCol = Some final) as [Hc1 Hc2].
  { rewrite !cell_setCell by shape_side. split.
    - by rewrite decide_True.
    - rewrite decide_False by (intros (-> & -> & _); done).
      by rewrite decide_True. }
  destruct (PieceType_eqb (type final) KING && (Z.abs (toCol - fromCol) =? 2))
    eqn:Hk.
  - assert (isCastlingStep piece fromCol toCol = true) as Hic.
    { unfold isCastlingStep. rewrite andb_true_iff in Hk |- *.
      destruct Hk as [Hk1 Hk2]. split; [|done].
      unfold final in Hk1. cbn [moveTo type] in Hk1.
      destruct (PieceType_eqb (type piece) PAWN) eqn:Hpp; [|done].
      apply PieceType_eqb_true in Hpp. specialize (Hpawn Hpp). lia. }
    destruct (Hcastle Hic) as (-> & -> & Hcc).
    unfold handleCastling. cbn [board].
    match goal with |- context [getPieceAt ?x _ _] =>
      destruct (getPieceAt x fromRow (if toCol >? 4 then 7 else 0)) as [rook|]
    end; cbn [board withBoard]; [|split; intros [-> ->]; done].
    rewrite !cell_setCell by shape_side.
    destruct Hcc as [-> | ->].
    + change (6 >? 4) with true. cbv iota.
      split; intros [-> ->];
        repeat first
          [ rewrite decide_False by (intros (? & ? & ?); lia)
          | rewrite decide_True by (repeat split; (done || lia)) ]; done.
    + change (2 >? 4) with false. cbv iota.
      split; intros [-> ->];
        repeat first
          [ rewrite decide_False by (intros (? & ? & ?); lia)
          | rewrite decide_True by (repeat split; (done || lia)) ]; done.
  - split; intros [-> ->]; done.
Qed.

End ApplyMove.

Section MakeMoveFacts.
Implicit Types (g : ChessGame) (b : Board) (p : ChessPiece).

Lemma makeMove_cases g fromRow fromCol toRow toCol promo :
  wellFormed g = true ->
  makeMove g fromRow fromCol toRow toCol promo = (false, g)
  \/ exists piece,
       getPieceAt g fromRow fromCol = Some piece
       /\ fst (isLegalMove g fromRow fromCol toRow toCol) = true
       /\ makeMove g fromRow fromCol toRow toCol promo =
          (true, updateGameState
                   (applyMove g piece fromRow fromCol toRow toCol promo)).
Proof.
  intros Hwf. pose proof (wellFormed_shape g Hwf) as Hs.
  destruct (makeMove g fromRow fromCol toRow toCol promo) as [[|] g'] eqn:Hm.
  - right. destruct (makeMove_true_inv _ _ _ _ _ _ _ Hs Hm)
      as (piece & Hp & Hl & ->). by exists piece.
  - left. f_equal.
    destruct (getPieceAt g fromRow fromCol) as [piece|] eqn:Hp.
    + destruct (fst (isLegalMove g fromRow fromCol toRow toCol)) eqn:Hl.
      * unfold makeMove in Hm. rewrite Hp in Hm.
        destruct (isLegalMove g fromRow fromCol toRow toCol) as [l g1].
        cbn in Hl. subst l. cbn in Hm. done.
      * rewrite makeMove_rejected in Hm by auto. by injection Hm.
    + rewrite makeMove_rejected in Hm by auto. by injection Hm.
Qed.

Lemma updateGameState_fields g :
  boardShape (board g) ->
  board (updateGameState g) = board g
  /\ currentPlayer (updateGameState g) = currentPlayer g
  /\ moveHistory (updateGameState g) = moveHistory g
  /\ capturedPieces (updateGameState g) = capturedPieces g
  /\ lastMove (updateGameState g) = lastMove g
  /\ kingPositions (updateGameState g) = kingPositions g
  /\ enPassantTarget (updateGameState g) = enPassantTarget g
  /\ halfMoveClock (updateGameState g) = halfMoveClock g
  /\ fullMoveNumber (updateGameState g) = fullMoveNumber g.
Proof.
  intros Hs. destruct (updateGameState_frame g Hs) as [s ->]. done.
Qed.

Lemma invariants_after_applyMove g piece fromRow fromCol toRow toCol promo :
  wellFormed g = true ->
  getPieceAt g fromRow fromCol = Some piece ->
  fst (isLegalMove g fromRow fromCol toRow toCol) = true ->
  let g1 := applyMove g piece fromRow fromCol toRow toCol promo in
  boardShape (board g1) /\ piecesPlaced (board g1)
  /\ (forall ep, enPassantTarget g1 = Some ep ->
        onBoard (fst ep) (snd ep) = true
        /\ cell (board g1) (fst ep) (snd ep) = None).
Proof.
  intros Hwf Hp Hl g1.
  pose proof (wellFormed_shape g Hwf) as Hs.
  pose proof (wellFormed_placed g Hwf) as Hpl.
  split; [by apply applyMove_shape|]. split; [by apply applyMove_placed|].
  intros ep Hep. unfold g1 in Hep. rewrite applyMove_enPassantTarget_eq in Hep.
  destruct (PieceType_eqb (typeAfterMove piece toRow promo) PAWN) eqn:Ht;
    [|done].
  destruct (Z.abs (toRow - fromRow) =? 2) eqn:H2; [|done].
  cbn in Hep. injection Hep as <-. cbn [fst snd].
  destruct (legal_move_facts _ _ _ _ _ Hwf Hl)
    as (piece' & Hp' & Hcell & Hr & Hk & Hcol & Hfrom & Hto & Hin & Hne
        & Hcastle & Hpawn).
  assert (piece' = piece) as -> by congruence.
  assert (type piece = PAWN) as Hpt.
  { unfold typeAfterMove in Ht.
    destruct (PieceType_eqb (type piece) PAWN) eqn:Hpp;
      [by apply PieceType_eqb_true in Hpp|]. cbn in Ht. congruence. }
  destruct (Hpawn Hpt) as [Habs [Hone|(Htwo & -> & Hstart & Hn1 & Hn2)]].
  { pose proof (direction_cases (color piece)). lia. }
  assert (fromRow + (toRow - fromRow) / 2 = fromRow + direction (color piece))
    as ->.
  { rewrite Htwo.
    replace (fromRow + 2 * direction (color piece) - fromRow)
      with (direction (color piece) * 2) by lia.
    by rewrite Z.div_mul. }
  apply onBoard_spec in Hfrom. apply onBoard_spec in Hto.
  pose proof (direction_cases (color piece)) as Hd.
  split; [apply onBoard_spec; lia|].
  unfold g1, applyMove. cbn [board].
  assert (isCastlingStep piece fromCol fromCol = false) as Hnc.
  { unfold isCastlingStep. rewrite Hpt. done. }
  match goal with
  | |- context [if ?c then handleCastling ?x _ _ _ _ else _] =>
      replace c with false
  end.
  2:{ symmetry. apply andb_false_iff. right. lia. }
  cbn [board]. rewrite !cell_setCell.
  - rewrite !decide_False by (intros (? & ? & ?); lia).
    match goal with |- context [if ?e then _ else _] => destruct e end;
      [|done].
    rewrite cell_setCell by done. by case_decide.
  - match goal with |- context [if ?e then _ else _] => destruct e end;
      [by apply setCell_shape|done].
  - apply setCell_shape.
    match goal with |- context [if ?e then _ else _] => destruct e end;
      [by apply setCell_shape|done].
Qed.

End MakeMoveFacts.

(** [makeMove], accepted or not, keeps a game well formed (an 8x8 board,
    every piece recording the square it stands on, the en-passant target on
    the board) and keeps the en-passant target an empty square. *)
Theorem makeMove_keeps_the_game_well_formed
    g fromRow fromCol toRow toCol promotionPiece :
  wellFormed g = true -> enPassantSquareEmpty g ->
  wellFormed (snd (makeMove g fromRow fromCol toRow toCol promotionPiece))
    = true
  /\ enPassantSquareEmpty
       (snd (makeMove g fromRow fromCol toRow toCol promotionPiece)).
Proof.
  intros Hwf Hep.
  destruct (makeMove_cases g fromRow fromCol toRow toCol promotionPiece Hwf)
    as [->|(piece & Hp & Hl & ->)]; [done|]. cbn [snd].
  destruct (invariants_after_applyMove _ _ _ _ _ _ promotionPiece Hwf Hp Hl)
    as (Hs1 & Hp1 & He1).
  destruct (updateGameState_fields _ Hs1) as (Hb & _ & _ & _ & _ & _ & He & _).
  split.
  - apply wellFormed_intro; rewrite ?Hb, ?He; try done.
    intros ep H. by apply He1.
  - intros ep H. rewrite Hb. rewrite He in H. by apply He1.
Qed.

Lemma makeMove_keeps_the_game_well_formed_witness :
  wellFormed (snd (makeMove newGame 6 4 4 4 QUEEN)) = true
  /\ enPassantSquareEmpty (snd (makeMove newGame 6 4 4 4 QUEEN)).
Proof.
  apply (makeMove_keeps_the_game_well_formed newGame 6 4 4 4 QUEEN).
  - vm_compute. reflexivity.
  - intros ep Hep. discriminate Hep.
Defined.

Section SuccessFacts.
Implicit Types (g : ChessGame) (b : Board) (p : ChessPiece).

Lemma makeMove_success_inv g fromRow fromCol toRow toCol promo g' piece :
  wellFormed g = true ->
  getPieceAt g fromRow fromCol = Some piece ->
  makeMove g fromRow fromCol toRow toCol promo = (true, g') ->
  fst (isLegalMove g fromRow fromCol toRow toCol) = true
  /\ g' = updateGameState
            (applyMove g piece fromRow fromCol toRow toCol promo)
  /\ boardShape
       (board (applyMove g piece fromRow fromCol toRow toCol promo)).
Proof.
  intros Hwf Hp Hm. pose proof (wellFormed_shape g Hwf) as Hs.
  destruct (makeMove_true_inv _ _ _ _ _ _ _ Hs Hm) as (piece' & Hp' & Hl & ->).
  assert (piece' = piece) as -> by congruence.
  split; [done|]. split; [done|]. by apply applyMove_shape.
Qed.

Lemma applyMove_scalars g piece fromRow fromCol toRow toCol promo :
  let g1 := applyMove g piece fromRow fromCol toRow toCol promo in
  currentPlayer g1 = opposite (currentPlayer g)
  /\ fullMoveNumber g1 =
       (if Color_eqb (currentPlayer g) BLACK
        then fullMoveNumber g + 1 else fullMoveNumber g)
  /\ lastMove g1 =
       Some (mkLastMove (fromRow, fromCol) (toRow, toCol)
               (typeAfterMove piece toRow promo))
  /\ kingPositions g1 =
       (if PieceType_eqb (type piece) KING
        then pcSet (kingPositions g) (color piece) (toRow, toCol)
        else kingPositions g)
  /\ exists rec,
       moveHistory g1 = moveHistory g ++ [rec]
       /\ moveFrom rec = (fromRow, fromCol) /\ moveTo_ rec = (toRow, toCol)
       /\ movePiece rec = typeAfterMove piece toRow promo
       /\ halfMoveClock g1 =
            (if PieceType_eqb (type piece) PAWN || isSome (captured rec)
             then 0 else halfMoveClock g + 1).
Proof.
  intros g1. unfold g1, applyMove, typeAfterMove.
  cbn [moveTo type setType color].
  set (cap := if PieceType_eqb (type piece) PAWN
                 && isNone (getPieceAt g toRow toCol)
                 && isEnPassantSquare g toRow toCol
              then cell (board g) (captureRowOf (color piece) toRow) toCol
              else getPieceAt g toRow toCol).
  match goal with
  | |- context [if ?c then handleCastling ?x _ _ _ _ else _] =>
      destruct (handleCastling_fields x fromRow fromCol toRow toCol)
        as [b' Hb']; destruct c; rewrite ?Hb'
  end; cbn -[Z.add];
    (split; [done|]); (split; [by destruct (currentPlayer g)|]);
    (split; [by destruct (PieceType_eqb (type piece) PAWN
                          && ((toRow =? 0) || (toRow =? 7)))|]);
    (split; [done|]);
    eexists; (split; [reflexivity|]); cbn -[Z.add];
    (split; [done|]); (split; [done|]);
    (split; [by destruct (PieceType_eqb (type piece) PAWN
                          && ((toRow =? 0) || (toRow =? 7)))|]);
    destruct cap, (PieceType_eqb (type piece) PAWN); done.
Qed.

End SuccessFacts.

(** After an accepted move the turn passes to the other side, the full-move
    number goes up exactly after a move of Black, one record with the two
    squares and the type of the piece as it now stands is appended to the
    history, and the half-move clock restarts at zero when a pawn moved or
    the record names a captured piece and advances by one otherwise. *)
Theorem makeMove_success_bookkeeping
    g fromRow fromCol toRow toCol promotionPiece g' piece :
  wellFormed g = true ->
  getPieceAt g fromRow fromCol = Some piece ->
  makeMove g fromRow fromCol toRow toCol promotionPiece = (true, g') ->
  currentPlayer g' = opposite (currentPlayer g)
  /\ fullMoveNumber g' =
       (if Color_eqb (currentPlayer g) BLACK
        then fullMoveNumber g + 1 else fullMoveNumber g)
  /\ lastMove g' =
       Some (mkLastMove (fromRow, fromCol) (toRow, toCol)
               (typeAfterMove piece toRow promotionPiece))
  /\ exists rec,
       moveHistory g' = moveHistory g ++ [rec]
       /\ moveFrom rec = (fromRow, fromCol) /\ moveTo_ rec = (toRow, toCol)
       /\ movePiece rec = typeAfterMove piece toRow promotionPiece
       /\ halfMoveClock g' =
            (if PieceType_eqb (type piece) PAWN || isSome (captured rec)
             then 0 else halfMoveClock g + 1).
Proof.
  intros Hwf Hp Hm.
  destruct (makeMove_success_inv _ _ _ _ _ _ _ _ Hwf Hp Hm) as (_ & -> & Hs1).
  destruct (updateGameState_fields _ Hs1)
    as (_ & -> & -> & _ & -> & _ & _ & -> & ->).
  destruct (applyMove_scalars g piece fromRow fromCol toRow toCol promotionPiece)
    as (H1 & H2 & H3 & _ & H5).
  done.
Qed.

Lemma makeMove_success_bookkeeping_witness :
  currentPlayer (snd (makeMove newGame 6 4 4 4 QUEEN)) = opposite WHITE
  /\ fullMoveNumber (snd (makeMove newGame 6 4 4 4 QUEEN)) = 1
  /\ lastMove (snd (makeMove newGame 6 4 4 4 QUEEN)) =
       Some (mkLastMove (6, 4) (4, 4) PAWN)
  /\ exists rec,
       moveHistory (snd (makeMove newGame 6 4 4 4 QUEEN)) = [] ++ [rec]
       /\ moveFrom rec = (6, 4) /\ moveTo_ rec = (4, 4)
       /\ movePiece rec = PAWN
       /\ halfMoveClock (snd (makeMove newGame 6 4 4 4 QUEEN)) =
            (if true || isSome (captured rec) then 0 else 0 + 1).
Proof.
  apply (makeMove_success_bookkeeping newGame 6 4 4 4 QUEEN
           (snd (makeMove newGame 6 4 4 4 QUEEN)) (newPiece PAWN WHITE 6 4)).
  - vm_compute. reflexivity.
  - vm_compute. reflexivity.
  - vm_compute. reflexivity.
Defined.

(** After an accepted move the from-square is empty and the to-square holds
    the moved piece, marked as moved and promoted when a pawn reached the
    first or last row; and unless the move was a king's two-column step,
    every other square keeps its content, save the square beside a pawn's
    from-square in the column it moved to (where en passant captures). *)
Theorem makeMove_success_moves_the_piece
    g fromRow fromCol toRow toCol promotionPiece g' piece :
  wellFormed g = true ->
  getPieceAt g fromRow fromCol = Some piece ->
  makeMove g fromRow fromCol toRow toCol promotionPiece = (true, g') ->
  cell (board g') fromRow fromCol = None
  /\ cell (board g') toRow toCol =
       Some (mkPiece (typeAfterMove piece toRow promotionPiece)
               (color piece) toRow toCol true)
  /\ (isCastlingStep piece fromCol toCol = false ->
      forall r c,
        (r, c) <> (fromRow, fromCol) -> (r, c) <> (toRow, toCol) ->
        ~ (type piece = PAWN /\ r = fromRow /\ c = toCol) ->
        cell (board g') r c = cell (board g) r c).
Proof.
  intros Hwf Hp Hm.
  destruct (makeMove_success_inv _ _ _ _ _ _ _ _ Hwf Hp Hm) as (Hl & -> & Hs1).
  destruct (updateGameState_fields _ Hs1) as (-> & _).
  pose proof (wellFormed_shape g Hwf) as Hs.
  destruct (legal_move_facts _ _ _ _ _ Hwf Hl)
    as (piece' & Hp' & Hcell & Hr & Hk & Hcol & Hfrom & Hto & Hin & Hne
        & Hcastle & Hpawn).
  assert (piece' = piece) as -> by congruence.
  destruct (applyMove_board_cell g piece fromRow fromCol toRow toCol
              promotionPiece fromRow fromCol Hs Hfrom Hto Hne Hcastle)
    as [H1 _]; [intros Ht; by destruct (Hpawn Ht)|].
  destruct (applyMove_board_cell g piece fromRow fromCol toRow toCol
              promotionPiece toRow toCol Hs Hfrom Hto Hne Hcastle)
    as [_ H2]; [intros Ht; by destruct (Hpawn Ht)|].
  split; [by apply H1|]. split; [by apply H2|].
  intros Hnc r c Hnf Hnt Hnp. unfold applyMove. cbn [board].
  match goal with
  | |- context [if ?c then handleCastling ?x _ _ _ _ else _] =>
      replace c with false
  end.
  2:{ symmetry. unfold isCastlingStep in Hnc. cbn [moveTo type setType].
      destruct (PieceType_eqb (type piece) PAWN) eqn:Hpp; cbn [andb];
        [|done].
      apply PieceType_eqb_true in Hpp. destruct (Hpawn Hpp) as [Habs _].
      apply andb_false_iff. right. lia. }
  cbn [board].
  assert (forall b0, boardShape b0 ->
            cell (setCell (setCell b0 toRow toCol
                    (Some (if PieceType_eqb (type (moveTo piece toRow toCol)) PAWN
                              && ((toRow =? 0) || (toRow =? 7))
                           then setType (moveTo piece toRow toCol) promotionPiece
                           else moveTo piece toRow toCol)))
                    fromRow fromCol None) r c = cell b0 r c) as Hframe.
  { intros b0 Hb0. rewrite !cell_setCell by (repeat apply setCell_shape; done).
    rewrite !decide_False; [done| |]; intros (<- & <- & _); done. }
  match goal with |- context [if ?e then setCell _ _ _ _ else _] =>
    destruct e eqn:Hep end; rewrite Hframe by (try apply setCell_shape; done);
    [|done].
  rewrite cell_setCell by done. case_decide as Hd; [|done].
  destruct Hd as (<- & <- & _).
  rewrite !andb_true_iff in Hep. destruct Hep as [[Hpp _] _].
  apply PieceType_eqb_true in Hpp.
  destruct (Hpawn Hpp) as [_ [Hone | (Htwo & Hcc & _ & Hn1 & _)]].
  - exfalso. apply Hnp. split; [done|]. split; [|done].
    rewrite Hone. unfold captureRowOf, direction. destruct (color piece); lia.
  - symmetry. rewrite <- Hn1. f_equal; [|done].
    rewrite Htwo. unfold captureRowOf, direction. destruct (color piece); lia.
Qed.

Lemma makeMove_success_moves_the_piece_witness :
  cell (board (snd (makeMove newGame 6 4 4 4 QUEEN))) 6 4 = None
  /\ cell (board (snd (makeMove newGame 6 4 4 4 QUEEN))) 4 4 =
       Some (mkPiece (typeAfterMove (newPiece PAWN WHITE 6 4) 4 QUEEN)
               (color (newPiece PAWN WHITE 6 4)) 4 4 true)
  /\ (isCastlingStep (newPiece PAWN WHITE 6 4) 4 4 = false ->
      forall r c,
        (r, c) <> (6, 4) -> (r, c) <> (4, 4) ->
        ~ (type (newPiece PAWN WHITE 6 4) = PAWN /\ r = 6 /\ c = 4) ->
        cell (board (snd (makeMove newGame 6 4 4 4 QUEEN))) r c
        = cell (board newGame) r c).
Proof.
  apply (makeMove_success_moves_the_piece newGame 6 4 4 4 QUEEN
           (snd (makeMove newGame 6 4 4 4 QUEEN)) (newPiece PAWN WHITE 6 4)).
  - vm_compute. reflexivity.
  - vm_compute. reflexivity.
  - vm_compute. reflexivity.
Defined.

Section Castling.
Implicit Types (g : ChessGame) (b : Board) (p : ChessPiece).

Lemma canCastle_true_inv g c kingSide :
  canCastle g c kingSide = true ->
  exists k rk,
    getPieceAt g (homeRow c) 4 = Some k
    /\ type k = KING /\ hasMoved k = false
    /\ getPieceAt g (homeRow c) (if kingSide then 7 else 0) = Some rk
    /\ type rk = ROOK /\ hasMoved rk = false
    /\ isInCheck g c = false.
Proof.
  unfold canCastle. fold (homeRow c).
  destruct (getPieceAt g (homeRow c) 4) as [k|]; [|done].
  destruct (getPieceAt g (homeRow c) (if kingSide then 7 else 0)) as [rk|];
    [|done].
  destruct (PieceType_eqb (type k) KING) eqn:Hk; [|done].
  destruct (hasMoved k) eqn:Hmk; [done|]. cbn [negb orb].
  destruct (PieceType_eqb (type rk) ROOK) eqn:Hrk; [|done].
  destruct (hasMoved rk) eqn:Hmrk; [done|]. cbn [negb orb].
  destruct (isInCheck g c) eqn:Hic; [done|].
  intros _. exists k, rk.
  apply PieceType_eqb_true in Hk. apply PieceType_eqb_true in Hrk. done.
Qed.

End Castling.

(** Castling carries the rook along: when a king standing on the e-file of
    its home row is moved two columns aside and the move is accepted, the
    corner of that side held an unmoved rook, and afterwards the corner is
    empty and that rook stands, marked as moved, on the square the king
    crossed. *)
Theorem castling_moves_the_rook_beside_the_king
    g fromRow toCol promotionPiece g' king :
  wellFormed g = true ->
  getPieceAt g fromRow 4 = Some king ->
  type king = KING -> fromRow = homeRow (color king) ->
  toCol = 6 \/ toCol = 2 ->
  makeMove g fromRow 4 fromRow toCol promotionPiece = (true, g') ->
  exists rook,
    cell (board g) fromRow (if toCol =? 6 then 7 else 0) = Some rook
    /\ type rook = ROOK /\ hasMoved rook = false
    /\ cell (board g') fromRow (if toCol =? 6 then 7 else 0) = None
    /\ cell (board g') fromRow (if toCol =? 6 then 5 else 3) =
         Some (mkPiece ROOK (color rook) fromRow (if toCol =? 6 then 5 else 3)
                 true).
Proof.
  intros Hwf Hp Hking Hhome Hto Hm.
  destruct (makeMove_success_inv _ _ _ _ _ _ _ _ Hwf Hp Hm) as (Hl & -> & Hs1).
  destruct (updateGameState_fields _ Hs1) as (-> & _).
  pose proof (wellFormed_shape g Hwf) as Hs.
  destruct (legal_move_facts _ _ _ _ _ Hwf Hl)
    as (piece' & Hp' & Hcell & Hr & Hk & Hcol & Hfrom & Hto' & Hin & Hne
        & Hcastle & Hpawn).
  assert (piece' = king) as -> by congruence.
  apply in_king_moves in Hin; [|done].
  destruct Hin as [(_ & _ & Hmax)|(Hunmoved & _ & _ & Hside)]; [lia|].
  assert (canCastle g (color king) (toCol =? 6) = true) as Hcan.
  { unfold contextOf in Hside. rewrite Hking in Hside.
    cbn [canCastleKingSide canCastleQueenSide PieceType_eqb] in Hside.
    destruct Hside as [[-> H]|[-> H]];
      [change (6 =? 6) with true|change (2 =? 6) with false]; exact H. }
  destruct (canCastle_true_inv _ _ _ Hcan)
    as (k & rk & _ & _ & _ & Hrk & Hrt & Hrm & _).
  rewrite <- Hhome in Hrk.
  assert ((if toCol =? 6 then 7 else 0) = if toCol >? 4 then 7 else 0) as Hcorner
    by (destruct Hto as [-> | ->]; done).
  assert ((if toCol =? 6 then 5 else 3) = if toCol >? 4 then 5 else 3) as Hbeside
    by (destruct Hto as [-> | ->]; done).
  pose proof (getPieceAt_cell _ _ _ _ Hrk) as Hrcell.
  pose proof (getPieceAt_onBoard _ _ _ _ Hrk) as Hron.
  exists rk. split; [done|]. split; [done|]. split; [done|].
  rewrite Hcorner, Hbeside in *.
  unfold applyMove. cbn [board].
  match goal with
  | |- context [if ?c then handleCastling ?x _ _ _ _ else _] =>
      replace c with true
  end.
  2:{ symmetry. cbn [moveTo type setType]. rewrite Hking.
      cbn [PieceType_eqb andb moveTo type]. rewrite Hking.
      destruct Hto as [-> | ->]; reflexivity. }
  unfold handleCastling.
  match goal with |- context [getPieceAt ?x fromRow ?k] =>
    assert (getPieceAt x fromRow k = Some rk) as Hrook
  end.
  { rewrite getPieceAt_on by done. cbn [board].
    rewrite !cell_setCell.
    - rewrite !decide_False; [| |].
      + rewrite Hking. cbn [PieceType_eqb andb]. done.
      + intros (_ & ? & _). destruct Hto as [-> | ->]; cbn in *; lia.
      + intros (_ & ? & _). destruct Hto as [-> | ->]; cbn in *; lia.
    - rewrite Hking. done.
    - apply setCell_shape. rewrite Hking. done. }
  rewrite Hrook. cbn [board withBoard].
  assert (forall b0 v1, boardShape b0 ->
    cell (setCell (setCell b0 fromRow (if toCol >? 4 then 5 else 3) v1)
            fromRow (if toCol >? 4 then 7 else 0) None)
         fromRow (if toCol >? 4 then 7 else 0) = None
    /\ cell (setCell (setCell b0 fromRow (if toCol >? 4 then 5 else 3) v1)
            fromRow (if toCol >? 4 then 7 else 0) None)
         fromRow (if toCol >? 4 then 5 else 3) = v1) as Hset.
  { intros b0 v1 Hb0. rewrite !cell_setCell by (repeat apply setCell_shape; done).
    apply onBoard_spec in Hron.
    split.
    - by rewrite decide_True by (repeat split; apply onBoard_spec; lia).
    - rewrite decide_False
        by (intros (_ & ? & _); destruct Hto as [-> | ->]; cbn in *; lia).
      rewrite decide_True; [done|].
      repeat split. apply onBoard_spec.
      destruct Hto as [-> | ->]; cbn in *; lia. }
  match goal with |- cell (setCell (setCell ?b0 _ _ ?v1) _ _ _) _ _ = _ /\ _ =>
    destruct (Hset b0 v1) as [H1 H2]
  end.
  { repeat apply setCell_shape. rewrite Hking. done. }
  split; [done|]. rewrite H2. unfold moveTo. rewrite Hrt. done.
Qed.

Lemma castling_moves_the_rook_beside_the_king_witness :
  exists rook,
    cell (board beforeCastling) 7 (if 6 =? 6 then 7 else 0) = Some rook
    /\ type rook = ROOK /\ hasMoved rook = false
    /\ cell (board afterCastling) 7 (if 6 =? 6 then 7 else 0) = None
    /\ cell (board afterCastling) 7 (if 6 =? 6 then 5 else 3) =
         Some (mkPiece ROOK (color rook) 7 (if 6 =? 6 then 5 else 3) true).
Proof.
  apply (castling_moves_the_rook_beside_the_king beforeCastling 7 6 QUEEN
           afterCastling (newPiece KING WHITE 7 4)).
  - vm_compute. reflexivity.
  - vm_compute. reflexivity.
  - reflexivity.
  - reflexivity.
  - left. reflexivity.
  - vm_compute. reflexivity.
Defined.

Section Queries.
Implicit Types (g : ChessGame) (b : Board) (p : ChessPiece).

Lemma in_filterLegal g fromRow fromCol moves toRow toCol :
  boardShape (board g) ->
  In (toRow, toCol) (fst (filterLegal g fromRow fromCol moves)) <->
  In (toRow, toCol) moves
  /\ fst (isLegalMove g fromRow fromCol toRow toCol) = true.
Proof.
  intros Hs. induction moves as [|[r c] rest IH]; [cbn; tauto|].
  cbn [filterLegal].
  pose proof (isLegalMove_restores g fromRow fromCol r c Hs) as Hr.
  destruct (isLegalMove g fromRow fromCol r c) as [ok g1] eqn:Hl.
  cbn in Hr. subst g1.
  destruct (filterLegal g fromRow fromCol rest) as [l g2]. cbn [fst] in *.
  destruct ok; cbn [In]; rewrite IH; split.
  - intros [[= <- <-]|[H1 H2]]; [rewrite Hl|]; auto.
  - intros [[H1|H1] H2]; auto.
  - intros [H1 H2]; auto.
  - intros [[[= <- <-]|H1] H2]; [|auto]. rewrite Hl in H2. done.
Qed.

Lemma in_getPieces g k p :
  In p (getPieces g k) <->
  exists r c, onBoard r c = true /\ getPieceAt g r c = Some p /\ color p = k.
Proof.
  unfold getPieces. rewrite in_flat_map. split.
  - intros ([r c] & Hsq & Hin). cbn [fst snd] in Hin.
    destruct (getPieceAt g r c) as [q|] eqn:Hq; [|done].
    destruct (Color_eqb (color q) k) eqn:Hk; [|done].
    destruct Hin as [<-|[]]. exists r, c.
    apply Color_eqb_true in Hk.
    split; [by eapply getPieceAt_onBoard|done].
  - intros (r & c & Hon & Hq & Hk). exists (r, c). split.
    + apply list_elem_of_In, elem_allSquares. by apply onBoard_spec.
    + cbn [fst snd]. rewrite Hq.
      apply Color_eqb_true in Hk. rewrite Hk. by left.
Qed.

Lemma in_getAllPossibleMoves g m :
  wellFormed g = true ->
  In m (getAllPossibleMoves g) <->
  exists piece,
    getPieceAt g (fst (mvFrom m)) (snd (mvFrom m)) = Some piece
    /\ fst (isLegalMove g (fst (mvFrom m)) (snd (mvFrom m))
              (fst (mvTo m)) (snd (mvTo m))) = true
    /\ mvPiece m = type piece
    /\ mvCaptured m =
         match getPieceAt g (fst (mvTo m)) (snd (mvTo m)) with
         | Some capturedPiece => Some (type capturedPiece)
         | None => None
         end.
Proof.
  intros Hwf. pose proof (wellFormed_shape g Hwf) as Hs.
  unfold getAllPossibleMoves. rewrite in_flat_map. split.
  - intros (piece & Hpc & Hin). apply in_map_iff in Hin as ([r c] & <- & Hin).
    apply in_getPieces in Hpc as (pr & pk & Hon & Hp & Hk).
    destruct (getPieceAt_placed _ _ _ _ Hwf Hp) as [Hr Hc].
    unfold getLegalMoves in Hin. apply in_filterLegal in Hin as [_ Hl]; [|done].
    rewrite Hr, Hc in *.
    exists piece. cbn [mvFrom mvTo mvPiece mvCaptured fst snd]. done.
  - intros (piece & Hp & Hl & Ht & Hc). exists piece.
    destruct (isLegalMove_true_inv _ _ _ _ _ Hl) as (piece' & Hp' & Hk & Hin).
    assert (piece' = piece) as -> by congruence.
    destruct (getPieceAt_placed _ _ _ _ Hwf Hp) as [Hr Hcl].
    split.
    + apply in_getPieces. exists (fst (mvFrom m)), (snd (mvFrom m)).
      split; [by eapply getPieceAt_onBoard|done].
    + apply in_map_iff. exists (mvTo m). split.
      * destruct m as [[fr fc] [tr tc] t cap]. cbn in *. congruence.
      * unfold getLegalMoves. destruct (mvTo m) as [tr tc] eqn:Hto.
        apply in_filterLegal; [done|]. rewrite Hr, Hcl. done.
Qed.

End Queries.

(** On a well-formed game the two legality queries hand the game back as
    they found it: every trial move [getLegalMoves] and [hasLegalMoves] make
    through [isLegalMove] is undone. *)
Theorem legality_queries_leave_the_game_unchanged g :
  wellFormed g = true ->
  (forall piece, snd (getLegalMoves g piece) = g)
  /\ (forall c, snd (hasLegalMoves g c) = g).
Proof.
  intros Hwf. apply wellFormed_shape in Hwf. split; intros.
  - by apply getLegalMoves_restores.
  - by apply hasLegalMoves_restores.
Qed.

Lemma legality_queries_leave_the_game_unchanged_witness :
  (forall piece, snd (getLegalMoves newGame piece) = newGame)
  /\ (forall c, snd (hasLegalMoves newGame c) = newGame).
Proof.
  apply (legality_queries_leave_the_game_unchanged newGame).
  vm_compute. reflexivity.
Defined.

(** The moves the engines generate are exactly the moves [makeMove]
    accepts: a pair of squares is accepted on a well-formed game if and only
    if [getAllPossibleMoves] lists a move with these two squares. *)
Theorem generated_moves_are_the_accepted_moves
    g fromRow fromCol toRow toCol promotionPiece :
  wellFormed g = true ->
  (fst (makeMove g fromRow fromCol toRow toCol promotionPiece) = true <->
   exists m, In m (getAllPossibleMoves g)
             /\ mvFrom m = (fromRow, fromCol) /\ mvTo m = (toRow, toCol)).
Proof.
  intros Hwf. split.
  - intros Hm.
    destruct (makeMove_cases g fromRow fromCol toRow toCol promotionPiece Hwf)
      as [Hrej|(piece & Hp & Hl & _)]; [rewrite Hrej in Hm; done|].
    exists (mkMove (fromRow, fromCol) (toRow, toCol) (type piece)
              (match getPieceAt g toRow toCol with
               | Some capturedPiece => Some (type capturedPiece)
               | None => None
               end)).
    split; [|done]. apply in_getAllPossibleMoves; [done|].
    exists piece. done.
  - intros (m & Hin & Hf & Ht).
    apply in_getAllPossibleMoves in Hin as (piece & Hp & Hl & _); [|done].
    rewrite Hf, Ht in *. cbn [fst snd] in *.
    destruct (makeMove_cases g fromRow fromCol toRow toCol promotionPiece Hwf)
      as [Hrej|(piece' & _ & _ & ->)]; [|done].
    exfalso. unfold makeMove in Hrej. rewrite Hp in Hrej.
    destruct (isLegalMove g fromRow fromCol toRow toCol) as [l g1].
    cbn in Hl. subst l. done.
Qed.

Lemma generated_moves_are_the_accepted_moves_witness :
  fst (makeMove newGame 6 4 4 4 QUEEN) = true <->
  exists m, In m (getAllPossibleMoves newGame)
            /\ mvFrom m = (6, 4) /\ mvTo m = (4, 4).
Proof.
  apply (generated_moves_are_the_accepted_moves newGame 6 4 4 4 QUEEN).
  vm_compute. reflexivity.
Defined.

Section CloneFacts.
Implicit Types (g : ChessGame) (b : Board) (p : ChessPiece).

Lemma clonePiece_id p : clonePiece p = p.
Proof. by destruct p. Qed.

Lemma overlay_shape g squares dst :
  boardShape dst ->
  boardShape
    (fold_left (fun b sq =>
       match cell (board g) (fst sq) (snd sq) with
       | Some piece => setCell b (fst sq) (snd sq) (Some (clonePiece piece))
       | None => b
       end) squares dst).
Proof.
  revert dst. induction squares as [|sq rest IH]; intros dst Hs; [done|].
  cbn [fold_left]. apply IH.
  destruct (cell (board g) (fst sq) (snd sq)); [by apply setCell_shape|done].
Qed.

Lemma overlay_cell g squares dst r c :
  boardShape dst -> onBoard r c = true ->
  cell (fold_left (fun b sq =>
          match cell (board g) (fst sq) (snd sq) with
          | Some piece => setCell b (fst sq) (snd sq) (Some (clonePiece piece))
          | None => b
          end) squares dst) r c =
  match cell (board g) r c with
  | Some p => if decide ((r, c) ∈ squares) then Some p else cell dst r c
  | None => cell dst r c
  end.
Proof.
  intros Hs Hon. revert dst Hs.
  induction squares as [|[r' c'] rest IH]; intros dst Hs.
  { cbn. destruct (cell (board g) r c); [|done].
    rewrite decide_False; [done|]. apply not_elem_of_nil. }
  cbn [fold_left fst snd]. rewrite IH.
  2:{ destruct (cell (board g) r' c'); [by apply setCell_shape|done]. }
  destruct (cell (board g) r c) as [p|] eqn:Hp.
  - destruct (decide ((r, c) ∈ rest)) as [Hin|Hnin].
    + rewrite decide_True by (apply elem_of_cons; by right). done.
    + destruct (decide ((r', c') = (r, c))) as [Heq|Hne].
      * injection Heq as -> ->.
        rewrite decide_True by (apply elem_of_cons; by left). rewrite Hp.
        rewrite cell_setCell by done. rewrite decide_True by done.
        by rewrite clonePiece_id.
      * rewrite decide_False.
        2:{ intros [Heq|?]%elem_of_cons; [|done]. by rewrite Heq in Hne. }
        destruct (cell (board g) r' c'); [|done].
        rewrite cell_setCell by done.
        rewrite decide_False; [done|]. intros (-> & -> & _). done.
  - destruct (cell (board g) r' c') as [q|] eqn:Hq; [|done].
    rewrite cell_setCell by done.
    rewrite decide_False; [done|]. intros (-> & -> & _). congruence.
Qed.

End CloneFacts.

(** [cloneGame] starts from a new game and copies only the squares that
    hold a piece: in the clone (of the rules engine and of both search
    engines alike) a square that is occupied in the original holds the same
    piece, and a square that is empty in the original holds whatever the
    initial position has there. *)
Theorem cloneGame_lays_the_pieces_over_the_initial_position g r c :
  boardShape (board g) -> onBoard r c = true ->
  cell (board (cloneGame g)) r c =
    match cell (board g) r c with
    | Some p => Some p
    | None => cell (board newGame) r c
    end
  /\ board (aiCloneGame g) = board (cloneGame g).
Proof.
  intros Hs Hon. split; [|unfold aiCloneGame, cloneGame; cbn [board]; reflexivity].
  unfold cloneGame, overlayBoard. cbn [board].
  rewrite overlay_cell; [|by apply boardShapeb_spec|done].
  destruct (cell (board g) r c); [|done].
  rewrite decide_True; [done|].
  apply elem_allSquares. by apply onBoard_spec.
Qed.

Lemma cloneGame_lays_the_pieces_over_the_initial_position_witness :
  cell (board (cloneGame (snd (makeMove newGame 6 4 4 4 QUEEN)))) 6 4 =
    match cell (board (snd (makeMove newGame 6 4 4 4 QUEEN))) 6 4 with
    | Some p => Some p
    | None => cell (board newGame) 6 4
    end
  /\ board (aiCloneGame (snd (makeMove newGame 6 4 4 4 QUEEN)))
     = board (cloneGame (snd (makeMove newGame 6 4 4 4 QUEEN))).
Proof.
  apply (cloneGame_lays_the_pieces_over_the_initial_position
           (snd (makeMove newGame 6 4 4 4 QUEEN)) 6 4).
  - apply boardShapeb_spec. vm_compute. reflexivity.
  - reflexivity.
Defined.

(** [updateGameState] writes the status and nothing else, and the status it
    writes does not depend on the status it finds: running it on a game
    whose status was changed, or running it twice, gives the same game. *)
Theorem updateGameState_only_rewrites_the_status g :
  boardShape (board g) ->
  (exists s, updateGameState g = withGameState g s)
  /\ (forall s0, updateGameState (withGameState g s0) = updateGameState g)
  /\ updateGameState (updateGameState g) = updateGameState g.
Proof.
  intros Hs.
  assert (forall s0, updateGameState (withGameState g s0) = updateGameState g)
    as Hindep.
  { intros s0. rewrite !updateGameState_status by done.
    rewrite canMove_withGameState by done. done. }
  split; [by apply updateGameState_frame|]. split; [done|].
  destruct (updateGameState_frame g Hs) as [s Heq].
  rewrite Heq at 1. rewrite Hindep. done.
Qed.

Lemma updateGameState_only_rewrites_the_status_witness :
  (exists s, updateGameState backRankMate = withGameState backRankMate s)
  /\ (forall s0, updateGameState (withGameState backRankMate s0)
                 = updateGameState backRankMate)
  /\ updateGameState (updateGameState backRankMate)
     = updateGameState backRankMate.
Proof.
  apply (updateGameState_only_rewrites_the_status backRankMate).
  apply boardShapeb_spec. vm_compute. reflexivity.
Defined.

Section Attacks.
Implicit Types (g : ChessGame) (b : Board) (p q : ChessPiece).

Lemma sameColours_cases b b' r c :
  sameColours b b' ->
  (cell b r c = None /\ cell b' r c = None)
  \/ exists q q', cell b r c = Some q /\ cell b' r c = Some q'
                  /\ color q = color q'.
Proof.
  intros H. specialize (H r c).
  destruct (cell b r c) as [q|], (cell b' r c) as [q'|]; cbn in H;
    try done; [right|left]; [|done].
  exists q, q'. by injection H.
Qed.

Local Ltac colour_cases H r c :=
  let Hcol := fresh "Hcol" in
  destruct (sameColours_cases _ _ r c H)
    as [[-> ->]|(?q & ?q' & -> & -> & Hcol)];
  cbv beta iota; cbn [isNone]; try rewrite Hcol.

Lemma getPawnMoves_sameColours p b b' ep :
  sameColours b b' -> getPawnMoves p b ep = getPawnMoves p b' ep.
Proof.
  intros H. unfold getPawnMoves. cbv zeta.
  set (nr := row p + direction (color p)).
  f_equal; [|f_equal; [|f_equal]].
  - colour_cases H nr (col p); [|by rewrite !andb_false_r].
    colour_cases H (nr + direction (color p)) (col p); done.
  - colour_cases H nr (col p + -1); done.
  - colour_cases H nr (col p + 1); done.
Qed.

Lemma slide_sameColours p b b' dr dc n i :
  sameColours b b' -> slide b p dr dc n i = slide b' p dr dc n i.
Proof.
  intros H. revert i. induction n as [|n IH]; intros i; [done|].
  cbn [slide]. destruct (onBoard _ _); [|done]. cbn [negb].
  colour_cases H (row p + dr * i) (col p + dc * i); [|done].
  by rewrite IH.
Qed.

Lemma slideAll_sameColours p b b' dirs :
  sameColours b b' -> slideAll b p dirs = slideAll b' p dirs.
Proof.
  intros H. unfold slideAll. induction dirs as [|d rest IH]; [done|].
  cbn [flat_map]. by rewrite IH, (slide_sameColours p b b').
Qed.

Lemma stepMoves_sameColours p b b' offsets :
  sameColours b b' -> stepMoves b p offsets = stepMoves b' p offsets.
Proof.
  intros H. unfold stepMoves. induction offsets as [|o rest IH]; [done|].
  cbn [flat_map]. rewrite IH. f_equal.
  destruct (onBoard _ _); [|done].
  colour_cases H (row p + fst o) (col p + snd o); done.
Qed.

Lemma getPossibleMoves_sameColours p b b' ctx :
  sameColours b b' -> getPossibleMoves p b ctx = getPossibleMoves p b' ctx.
Proof.
  intros H. unfold getPossibleMoves, getQueenMoves, getRookMoves,
    getBishopMoves, getKnightMoves, getKingMoves.
  destruct (type p);
    rewrite ?(getPawnMoves_sameColours p b b'),
            ?(slideAll_sameColours p b b'),
            ?(stepMoves_sameColours p b b') by done; done.
Qed.

(** The attack test only offers the en-passant target through the context;
    apart from that square the context does not matter to it. *)
Lemma attack_moves_context p b ep ep' r c :
  In (r, c) (getPossibleMoves p b (mkContext ep false false)) ->
  In (r, c) (getPossibleMoves p b (mkContext ep' false false))
  \/ ep = Some (r, c).
Proof.
  unfold getPossibleMoves. cbn [ctxEnPassantTarget canCastleKingSide
    canCastleQueenSide].
  destruct (type p); auto.
  rewrite !in_getPawnMoves. intros [H|[H|[H|H]]]; auto.
  right. by destruct H.
Qed.

Lemma isSquareUnderAttack_true g r c k :
  isSquareUnderAttack g r c k = true <->
  exists ar ac q,
    onBoard ar ac = true /\ cell (board g) ar ac = Some q /\ color q = k
    /\ In (r, c) (getPossibleMoves q (board g)
                    (mkContext (enPassantTarget g) false false)).
Proof.
  unfold isSquareUnderAttack. rewrite existsb_exists. split.
  - intros ([ar ac] & Hsq & H). cbn [fst snd] in H.
    destruct (cell (board g) ar ac) as [q|] eqn:Hq; [|done].
    apply andb_true_iff in H as [Hk Hm]. exists ar, ac, q.
    apply Color_eqb_true in Hk. apply hasSquare_In in Hm.
    apply list_elem_of_In, elem_allSquares, onBoard_spec in Hsq. done.
  - intros (ar & ac & q & Hon & Hq & Hk & Hin). exists (ar, ac). split.
    + apply list_elem_of_In, elem_allSquares. by apply onBoard_spec.
    + cbn [fst snd]. rewrite Hq. apply andb_true_iff. split.
      * by apply Color_eqb_true.
      * by apply hasSquare_In.
Qed.

Lemma isSquareUnderAttack_transfer g g' r c k :
  sameColours (board g) (board g') ->
  (forall ar ac q, cell (board g) ar ac = Some q -> color q = k ->
                   cell (board g') ar ac = Some q) ->
  enPassantTarget g <> Some (r, c) ->
  isSquareUnderAttack g r c k = true ->
  isSquareUnderAttack g' r c k = true.
Proof.
  intros Hsame Hatt Hep. rewrite !isSquareUnderAttack_true.
  intros (ar & ac & q & Hon & Hq & Hk & Hin).
  exists ar, ac, q. split; [done|]. split; [by apply Hatt|]. split; [done|].
  rewrite <- (getPossibleMoves_sameColours q (board g) (board g')) by done.
  destruct (attack_moves_context q (board g) _ (enPassantTarget g') r c Hin);
    done.
Qed.

Lemma isLegalMove_trial g fromRow fromCol toRow toCol piece :
  getPieceAt g fromRow fromCol = Some piece ->
  isCastlingStep piece fromCol toCol = false ->
  fst (isLegalMove g fromRow fromCol toRow toCol) = true ->
  isInCheck
    (withKingPositions
       (withBoard g
          (setCell
             (setCell
                (if PieceType_eqb (type piece) PAWN
                    && isEnPassantSquare g toRow toCol
                 then setCell (board g) (captureRowOf (color piece) toRow)
                        toCol None
                 else board g)
                toRow toCol (Some (setPos piece toRow toCol)))
             fromRow fromCol None))
       (if PieceType_eqb (type piece) KING
        then pcSet (kingPositions g) (color piece) (toRow, toCol)
        else kingPositions g))
    (color piece) = false.
Proof.
  intros Hp Hnc. unfold isLegalMove. rewrite Hp.
  destruct (negb (Color_eqb (color piece) (currentPlayer g))); [done|].
  destruct (negb (hasSquare _ toRow toCol)); [done|].
  unfold isCastlingStep in Hnc. rewrite Hnc. cbn [fst].
  by intros ?%negb_true_iff.
Qed.

End Attacks.

Section KingSafety.
Implicit Types (g : ChessGame) (b : Board) (p q : ChessPiece).

Lemma isInCheck_updateGameState g k :
  boardShape (board g) ->
  isInCheck (updateGameState g) k = isInCheck g k.
Proof.
  intros Hs. destruct (updateGameState_frame g Hs) as [s ->]. done.
Qed.

End KingSafety.

(** Except for a king's two-column step, an accepted move never leaves the
    mover's recorded king square attacked: on a well-formed game whose
    en-passant target is an empty square and whose king square for the side
    to move is occupied, [isInCheck] of the mover is false in the game
    [makeMove] leaves, promotion and en-passant captures included. *)
Theorem accepted_move_leaves_own_king_unattacked
    g fromRow fromCol toRow toCol promotionPiece g' piece :
  wellFormed g = true -> enPassantSquareEmpty g -> kingSquareOccupied g ->
  getPieceAt g fromRow fromCol = Some piece ->
  isCastlingStep piece fromCol toCol = false ->
  makeMove g fromRow fromCol toRow toCol promotionPiece = (true, g') ->
  isInCheck g' (currentPlayer g) = false.
Proof.
  intros Hwf Hepe Hking Hp Hnc Hm.
  destruct (makeMove_success_inv _ _ _ _ _ _ _ _ Hwf Hp Hm) as (Hl & -> & Hs1).
  rewrite isInCheck_updateGameState by done.
  pose proof (wellFormed_shape g Hwf) as Hs.
  destruct (legal_move_facts _ _ _ _ _ Hwf Hl)
    as (piece' & Hp' & Hcell & Hr & Hk & Hcol & Hfrom & Hto & Hin & Hne
        & Hcastle & Hpawn).
  assert (piece' = piece) as -> by congruence.
  pose proof (isLegalMove_trial _ _ _ _ _ _ Hp Hnc Hl) as Htrial.
  unfold kingSquareOccupied in Hking. rewrite <- Hcol in Hking |- *.
  destruct (isInCheck (applyMove g piece fromRow fromCol toRow toCol
                         promotionPiece) (color piece)) eqn:Hcheck;
    [|done].
  exfalso. revert Htrial Hcheck. unfold isInCheck.
  (* the two games record the same king squares *)
  destruct (applyMove_scalars g piece fromRow fromCol toRow toCol
              promotionPiece) as (_ & _ & _ & Hkings & _).
  rewrite Hkings. cbn [kingPositions withKingPositions].
  set (kings := if PieceType_eqb (type piece) KING
                then pcSet (kingPositions g) (color piece) (toRow, toCol)
                else kingPositions g).
  set (ksq := pcGet kings (color piece)).
  (* the board of the game that is left *)
  assert (isNone (getPieceAt g toRow toCol) && isEnPassantSquare g toRow toCol
          = isEnPassantSquare g toRow toCol) as Hepb.
  { destruct (isEnPassantSquare g toRow toCol) eqn:He;
      [|by rewrite andb_false_r].
    unfold isEnPassantSquare in He.
    destruct (enPassantTarget g) as [[er ec]|] eqn:Het; [|done].
    cbn [fst snd] in He. apply andb_true_iff in He as [He1 He2].
    apply Z.eqb_eq in He1. apply Z.eqb_eq in He2. subst.
    rewrite getPieceAt_on by done.
    pose proof (Hepe (er, ec) Het) as Hx. cbn [fst snd] in Hx.
    by rewrite Hx. }
  set (b1 := if PieceType_eqb (type piece) PAWN
                && isEnPassantSquare g toRow toCol
             then setCell (board g) (captureRowOf (color piece) toRow) toCol None
             else board g).
  assert (boardShape b1) as Hsb1.
  { unfold b1.
    match goal with |- context [if ?e then _ else _] => destruct e end;
      [by apply setCell_shape|done]. }
  set (final := if PieceType_eqb (type (moveTo piece toRow toCol)) PAWN
                   && ((toRow =? 0) || (toRow =? 7))
                then setType (moveTo piece toRow toCol) promotionPiece
                else moveTo piece toRow toCol).
  assert (board (applyMove g piece fromRow fromCol toRow toCol promotionPiece)
          = setCell (setCell b1 toRow toCol (Some final)) fromRow fromCol None)
    as Hboard.
  { unfold applyMove. cbn [board].
    match goal with
    | |- context [if ?c then handleCastling ?x _ _ _ _ else _] =>
        replace c with false
    end.
    2:{ symmetry. unfold isCastlingStep in Hnc. unfold final.
        cbn [moveTo type setType].
        destruct (PieceType_eqb (type piece) PAWN) eqn:Hpp;
          cbn [andb moveTo type]; [|done].
        apply PieceType_eqb_true in Hpp. destruct (Hpawn Hpp) as [Habs _].
        apply andb_false_iff. right. lia. }
    cbn [board]. fold final. rewrite <- andb_assoc, Hepb. done. }
  assert (color final = color piece) as Hfc.
  { unfold final.
    match goal with |- context [if ?e then _ else _] => destruct e end;
      cbn; done. }
  fold ksq. intros Htrial Hcheck.
  apply (isSquareUnderAttack_transfer _
           (withKingPositions
              (withBoard g
                 (setCell (setCell b1 toRow toCol (Some (setPos piece toRow toCol)))
                    fromRow fromCol None)) kings)) in Hcheck.
  - cbn [kingPositions withKingPositions withBoard] in Htrial.
    fold kings ksq in Htrial. congruence.
  - (* same colours on every square *)
    intros r c. rewrite Hboard. cbn [board withKingPositions withBoard].
    rewrite !cell_setCell by (repeat apply setCell_shape; done).
    repeat case_decide; try done. cbn. by rewrite Hfc.
  - (* the attackers are the same pieces *)
    intros ar ac q. rewrite Hboard. cbn [board withKingPositions withBoard].
    rewrite !cell_setCell by (repeat apply setCell_shape; done).
    repeat case_decide; try done.
    intros [= <-] Hq. rewrite Hfc in Hq.
    by destruct (color piece).
  - (* the new en-passant target is a square the pawn passed over, which
       was empty, while the king square is occupied *)
    intros Hep. rewrite applyMove_enPassantTarget_eq in Hep.
    destruct (PieceType_eqb (typeAfterMove piece toRow promotionPiece) PAWN)
      eqn:Ht; [|done].
    destruct (Z.abs (toRow - fromRow) =? 2) eqn:H2; [|done].
    cbn [andb] in Hep.
    assert (type piece = PAWN) as Hpt.
    { unfold typeAfterMove in Ht.
      destruct (PieceType_eqb (type piece) PAWN) eqn:Hpp;
        [by apply PieceType_eqb_true in Hpp|]. cbn in Ht. congruence. }
    assert (kings = kingPositions g) as Hkk.
    { unfold kings. by rewrite Hpt. }
    destruct (Hpawn Hpt) as [_ [Hone|(Htwo & -> & Hstart & Hn1 & Hn2)]].
    { pose proof (direction_cases (color piece)). lia. }
    assert (fromRow + (toRow - fromRow) / 2 = fromRow + direction (color piece))
      as Hmid.
    { rewrite Htwo.
      replace (fromRow + 2 * direction (color piece) - fromRow)
        with (direction (color piece) * 2) by lia.
      by rewrite Z.div_mul. }
    rewrite Hmid in Hep. injection Hep as Hk1 Hk2.
    apply Hking. unfold ksq in Hk1, Hk2. rewrite Hkk in Hk1, Hk2.
    rewrite <- Hk1, <- Hk2. exact Hn1.
Qed.

Lemma accepted_move_leaves_own_king_unattacked_witness :
  isInCheck (snd (makeMove newGame 6 4 4 4 QUEEN)) (currentPlayer newGame)
  = false.
Proof.
  apply (accepted_move_leaves_own_king_unattacked newGame 6 4 4 4 QUEEN
           (snd (makeMove newGame 6 4 4 4 QUEEN)) (newPiece PAWN WHITE 6 4)).
  - vm_compute. reflexivity.
  - intros ep Hep. discriminate Hep.
  - unfold kingSquareOccupied. vm_compute. discriminate.
  - reflexivity.
  - vm_compute. reflexivity.
  - vm_compute. reflexivity.
Defined.

Section Sorting.
Context {A : Type}.
Implicit Types (l : list (Z * A)) (x : Z * A).

Lemma insertByScore_Permutation x l : insertByScore x l ≡ₚ x :: l.
Proof.
  induction l as [|y rest IH]; [done|]. cbn [insertByScore].
  destruct (fst y <=? fst x); [done|].
  rewrite IH. apply Permutation_swap.
Qed.

Lemma insertByScore_descending x l :
  descending fst l -> descending fst (insertByScore x l).
Proof.
  induction l as [|y rest IH]; cbn [insertByScore descending].
  { intros _. split; [constructor|done]. }
  intros [Hall Hs].
  destruct (fst y <=? fst x) eqn:Hle.
  - apply Z.leb_le in Hle. cbn [descending]. split; [|done].
    constructor; [done|]. eapply Forall_impl; [exact Hall|]. cbn. lia.
  - apply Z.leb_gt in Hle. cbn [descending]. split; [|by apply IH].
    rewrite insertByScore_Permutation. constructor; [lia|done].
Qed.

Lemma sortByScore_Permutation (score : A -> Z) (moves : list A) :
  sortByScore score moves ≡ₚ moves.
Proof.
  unfold sortByScore.
  assert (fold_right insertByScore [] (map (fun a => (score a, a)) moves)
          ≡ₚ map (fun a => (score a, a)) moves) as ->.
  { induction moves as [|m rest IH]; [done|]. cbn [map fold_right].
    by rewrite insertByScore_Permutation, IH. }
  rewrite map_map. cbn. by rewrite map_id.
Qed.

Lemma sortByScore_keys (score : A -> Z) (moves : list A) :
  Forall (fun p => fst p = score (snd p))
    (fold_right insertByScore [] (map (fun a => (score a, a)) moves)).
Proof.
  induction moves as [|m rest IH]; [constructor|]. cbn [map fold_right].
  rewrite insertByScore_Permutation. by constructor.
Qed.

Lemma sortByScore_descending (score : A -> Z) (moves : list A) :
  descending score (sortByScore score moves).
Proof.
  unfold sortByScore.
  assert (descending fst
            (fold_right insertByScore []
               (map (fun a => (score a, a)) moves))) as Hs.
  { induction moves as [|m rest IH]; [done|]. cbn [map fold_right].
    apply insertByScore_descending, IH. }
  pose proof (sortByScore_keys score moves) as Hkeys.
  revert Hkeys Hs.
  generalize (fold_right insertByScore [] (map (fun a => (score a, a)) moves)).
  intros l Hkeys Hs. induction l as [|y rest IH]; [done|].
  apply Forall_cons in Hkeys as [Hy Hkeys]. destruct Hs as [Hall Hs].
  cbn [map descending]. split; [|by apply IH].
  apply Forall_map. apply Forall_forall. intros z Hz.
  rewrite Forall_forall in Hall, Hkeys.
  rewrite <- Hy, <- (Hkeys z Hz). by apply Hall.
Qed.

End Sorting.

Section OrderMoves.

Lemma centerDistance_bounds r c :
  onBoard r c = true -> 1 <= centerDistance r c <= 7.
Proof.
  intros H%onBoard_spec. unfold centerDistance.
  assert (2 <= Z.abs (7 - 2 * r) + Z.abs (7 - 2 * c) <= 14) by lia.
  split.
  - apply Z.div_le_lower_bound; lia.
  - apply Z.div_le_upper_bound; lia.
Qed.

Lemma PIECE_VALUES_bounds t : 100 <= PIECE_VALUES t <= 20000.
Proof. destruct t; cbn; lia. Qed.

Lemma orderScore_capture ai g depth m t :
  mvCaptured m = Some t -> onBoard (fst (mvTo m)) (snd (mvTo m)) = true ->
  1103 <= orderScore ai g depth m.
Proof.
  intros Hc Hon. unfold orderScore. rewrite Hc.
  pose proof (PIECE_VALUES_bounds t).
  pose proof (centerDistance_bounds _ _ Hon).
  destruct (playOnClone g m) as [ok gameClone].
  destruct (ok && isInCheck gameClone (opposite (currentPlayer gameClone)));
    destruct (killerMoves ai !! depth) as [killers|];
    try destruct (existsb _ killers); lia.
Qed.

Lemma orderScore_quiet ai g depth m :
  mvCaptured m = None -> onBoard (fst (mvTo m)) (snd (mvTo m)) = true ->
  orderScore ai g depth m <= 609.
Proof.
  intros Hc Hon. unfold orderScore. rewrite Hc.
  pose proof (centerDistance_bounds _ _ Hon).
  destruct (playOnClone g m) as [ok gameClone].
  destruct (ok && isInCheck gameClone (opposite (currentPlayer gameClone)));
    destruct (killerMoves ai !! depth) as [killers|];
    try destruct (existsb _ killers); lia.
Qed.

Lemma generated_move_onBoard g m :
  wellFormed g = true -> In m (getAllPossibleMoves g) ->
  onBoard (fst (mvTo m)) (snd (mvTo m)) = true.
Proof.
  intros Hwf Hin.
  apply (in_getAllPossibleMoves g m Hwf) in Hin as (piece & Hp & Hl & _).
  by destruct (legal_move_facts _ _ _ _ _ Hwf Hl)
    as (? & _ & _ & _ & _ & _ & _ & ? & _).
Qed.

End OrderMoves.

Lemma generated_move_captured g m :
  In m (getAllPossibleMoves g) ->
  mvCaptured m <> None
  <-> getPieceAt g (fst (mvTo m)) (snd (mvTo m)) <> None.
Proof.
  unfold getAllPossibleMoves. rewrite in_flat_map.
  intros (piece & _ & Hin). apply in_map_iff in Hin as (sq & <- & _).
  cbn [mvCaptured mvTo]. by destruct (getPieceAt g (fst sq) (snd sq)).
Qed.

(** [orderMoves] only reorders the generated moves, and however the check,
    killer and centre bonuses fall, it puts every move whose [captured]
    field is set before every move whose [captured] field is [null].  The
    field is set exactly when the destination square is occupied, so a
    capture en passant, which lands on an empty square, is ordered with the
    moves that capture nothing. *)
Theorem orderMoves_puts_moves_onto_occupied_squares_first ai g depth :
  wellFormed g = true ->
  orderMoves ai (getAllPossibleMoves g) g depth ≡ₚ getAllPossibleMoves g
  /\ (exists captures quiet,
        orderMoves ai (getAllPossibleMoves g) g depth = captures ++ quiet
        /\ Forall (fun m => mvCaptured m <> None) captures
        /\ Forall (fun m => mvCaptured m = None) quiet)
  /\ (forall m, In m (getAllPossibleMoves g) ->
        mvCaptured m <> None
        <-> getPieceAt g (fst (mvTo m)) (snd (mvTo m)) <> None).
Proof.
  intros Hwf. unfold orderMoves.
  split; [apply sortByScore_Permutation|].
  split; [|intros m; apply generated_move_captured].
  pose proof (sortByScore_descending (orderScore ai g depth)
                (getAllPossibleMoves g)) as Hs.
  pose proof (sortByScore_Permutation (orderScore ai g depth)
                (getAllPossibleMoves g)) as Hp.
  assert (Forall (fun m => onBoard (fst (mvTo m)) (snd (mvTo m)) = true)
            (sortByScore (orderScore ai g depth) (getAllPossibleMoves g)))
    as Hon.
  { rewrite Hp. apply Forall_forall. intros m Hm.
    apply (generated_move_onBoard g); [done|]. by apply list_elem_of_In. }
  revert Hs Hon.
  generalize (sortByScore (orderScore ai g depth) (getAllPossibleMoves g)).
  intros l Hs Hon.
  induction l as [|x rest IH].
  { exists [], []. repeat split; constructor. }
  apply Forall_cons in Hon as [Hx Hon]. destruct Hs as [Hall Hs].
  destruct (IH Hs Hon) as (front & back & -> & Hf & Hb).
  destruct (mvCaptured x) as [t|] eqn:Hc.
  - exists (x :: front), back. repeat split; [|done].
    constructor; [by rewrite Hc|done].
  - exists [], (x :: front ++ back). split; [done|]. split; [constructor|].
    constructor; [done|]. apply Forall_forall. intros y Hy.
    rewrite Forall_forall in Hall, Hon.
    specialize (Hall y Hy). specialize (Hon y Hy).
    destruct (mvCaptured y) as [t|] eqn:Hcy; [|done].
    pose proof (orderScore_capture ai g depth y t Hcy Hon).
    pose proof (orderScore_quiet ai g depth x Hc Hx). lia.
Qed.

Lemma orderMoves_puts_moves_onto_occupied_squares_first_witness :
  (orderMoves freshAI (getAllPossibleMoves enPassantChance) enPassantChance 1
     ≡ₚ getAllPossibleMoves enPassantChance
   /\ (exists captures quiet,
         orderMoves freshAI (getAllPossibleMoves enPassantChance)
                    enPassantChance 1
           = captures ++ quiet
         /\ Forall (fun m => mvCaptured m <> None) captures
         /\ Forall (fun m => mvCaptured m = None) quiet)
   /\ (forall m, In m (getAllPossibleMoves enPassantChance) ->
         mvCaptured m <> None
         <-> getPieceAt enPassantChance (fst (mvTo m)) (snd (mvTo m))
             <> None))
  /\ In (mkMove (7, 5) (2, 0) BISHOP (Some PAWN))
        (getAllPossibleMoves enPassantChance)
  /\ In (mkMove (3, 4) (2, 3) PAWN None)
        (getAllPossibleMoves enPassantChance)
  /\ fst (makeMove enPassantChance 3 4 2 3 QUEEN) = true
  /\ getPieceAt enPassantChance 3 3 = Some (mkPiece PAWN BLACK 3 3 true)
  /\ getPieceAt (snd (makeMove enPassantChance 3 4 2 3 QUEEN)) 3 3 = None.
Proof.
  split.
  - apply (orderMoves_puts_moves_onto_occupied_squares_first freshAI
             enPassantChance 1).
    vm_compute. reflexivity.
  - vm_compute. repeat split; auto 40.
Defined.

(** ** The status computation and the move generator *)

Section StatusAndGenerator.
Implicit Types (g : ChessGame) (p : ChessPiece).

Lemma hasLegalMovesFrom_true g c squares :
  boardShape (board g) ->
  fst (hasLegalMovesFrom g c squares) = true <->
  exists sq piece,
    In sq squares /\ getPieceAt g (fst sq) (snd sq) = Some piece
    /\ color piece = c /\ fst (getLegalMoves g (Some piece)) <> [].
Proof.
  intros Hs. induction squares as [|sq rest IH].
  { cbn. split; [done|]. by intros (? & ? & [] & _). }
  cbn [hasLegalMovesFrom].
  destruct (getPieceAt g (fst sq) (snd sq)) as [piece|] eqn:Hp.
  2:{ rewrite IH. split.
      - intros (sq' & q & Hin & Hq). exists sq', q. split; [by right|done].
      - intros (sq' & q & [<-|Hin] & Hq & Hrest); [congruence|].
        by exists sq', q. }
  destruct (Color_eqb (color piece) c) eqn:Hc.
  - apply Color_eqb_true in Hc.
    pose proof (getLegalMoves_restores g (Some piece) Hs) as Hr.
    destruct (getLegalMoves g (Some piece)) as [legalMoves g1] eqn:Hl.
    cbn [snd] in Hr. subst g1.
    destruct legalMoves as [|m ms].
    + cbn [length Z.of_nat Z.ltb Z.compare]. rewrite IH. split.
      * intros (sq' & q & Hin & Hq). exists sq', q. split; [by right|done].
      * intros (sq' & q & [<-|Hin] & Hq & Hcq & Hne).
        -- assert (q = piece) as -> by congruence.
           rewrite Hl in Hne. done.
        -- by exists sq', q.
    + replace (0 <? Z.of_nat (length (m :: ms))) with true
        by (symmetry; apply Z.ltb_lt; cbn [length]; lia).
      cbn [fst]. split; [intros _|done].
      exists sq, piece. rewrite Hl. cbn [fst]. repeat split; try done.
      by left.
  - apply Color_eqb_false in Hc. rewrite IH. split.
    + intros (sq' & q & Hin & Hq). exists sq', q. split; [by right|done].
    + intros (sq' & q & [<-|Hin] & Hq & Hcq & Hne); [congruence|].
      by exists sq', q.
Qed.

Lemma getAllPossibleMoves_nonempty g :
  getAllPossibleMoves g <> [] <->
  exists piece, In piece (getPieces g (currentPlayer g))
                /\ fst (getLegalMoves g (Some piece)) <> [].
Proof.
  unfold getAllPossibleMoves.
  induction (getPieces g (currentPlayer g)) as [|q rest IH].
  { cbn. split; [done|]. by intros (? & [] & _). }
  cbn [flat_map]. split.
  - intros Hne.
    destruct (fst (getLegalMoves g (Some q))) as [|sq sqs] eqn:Hl.
    + cbn [map app] in Hne. apply IH in Hne as (piece & Hin & Hp).
      exists piece. split; [by right|done].
    + exists q. split; [by left|]. by rewrite Hl.
  - intros (piece & [->|Hin] & Hp).
    + destruct (fst (getLegalMoves g (Some piece))) as [|sq sqs]; [done|].
      done.
    + intros Happ. apply app_eq_nil in Happ as [_ Happ].
      revert Happ. apply IH. by exists piece.
Qed.

Lemma hasLegalMoves_generator g :
  wellFormed g = true ->
  fst (hasLegalMoves g (currentPlayer g)) = true
  <-> getAllPossibleMoves g <> [].
Proof.
  intros Hwf. pose proof (wellFormed_shape g Hwf) as Hs.
  unfold hasLegalMoves. rewrite hasLegalMovesFrom_true by done.
  rewrite getAllPossibleMoves_nonempty. split.
  - intros ([r c] & piece & Hin & Hp & Hc & Hne). exists piece.
    split; [|done]. apply in_getPieces. exists r, c.
    split; [|done]. apply onBoard_spec, elem_allSquares.
    by apply list_elem_of_In.
  - intros (piece & Hin & Hne).
    apply in_getPieces in Hin as (r & c & Hon & Hp & Hc).
    exists (r, c), piece. repeat split; try done.
    by apply list_elem_of_In, elem_allSquares, onBoard_spec.
Qed.

Lemma hasLegalMoves_other_side g :
  wellFormed g = true ->
  fst (hasLegalMoves g (opposite (currentPlayer g))) = false.
Proof.
  intros Hwf. pose proof (wellFormed_shape g Hwf) as Hs.
  destruct (fst (hasLegalMoves g (opposite (currentPlayer g)))) eqn:Hh;
    [|done].
  exfalso. unfold hasLegalMoves in Hh.
  apply hasLegalMovesFrom_true in Hh as (sq & piece & _ & Hp & Hc & Hne);
    [|done].
  destruct (getPieceAt_placed g _ _ _ Hwf Hp) as [Hr Hk].
  apply Hne. cbn [getLegalMoves].
  rewrite filterLegal_wrong_color; [done| |].
  - by rewrite Hr, Hk.
  - rewrite Hc. by destruct (currentPlayer g).
Qed.

End StatusAndGenerator.

(** [hasLegalMoves], on which the status rests, and the engines' move
    generator agree: the side to move has a legal move exactly when
    [getAllPossibleMoves] is not empty, the other side never has one, and a
    status of checkmate or stalemate written by [updateGameState] means the
    generator returns no move. *)
Theorem status_check_agrees_with_move_generator g :
  wellFormed g = true ->
  (fst (hasLegalMoves g (currentPlayer g)) = true
   <-> getAllPossibleMoves g <> [])
  /\ fst (hasLegalMoves g (opposite (currentPlayer g))) = false
  /\ (gameState (updateGameState g) = checkmate
      \/ gameState (updateGameState g) = stalemate ->
      getAllPossibleMoves g = []).
Proof.
  intros Hwf. pose proof (wellFormed_shape g Hwf) as Hs.
  split; [by apply hasLegalMoves_generator|].
  split; [by apply hasLegalMoves_other_side|].
  rewrite updateGameState_status by done. cbn [gameState withGameState].
  intros Hst.
  destruct (getAllPossibleMoves g) as [|m ms] eqn:Hm; [done|].
  assert (canMove g = true) as Hc.
  { unfold canMove. apply hasLegalMoves_generator; [done|]. by rewrite Hm. }
  rewrite Hc in Hst. unfold statusDrawFirst in Hst.
  destruct (drawn g), (inCheckNow g); cbn in Hst; by destruct Hst.
Qed.

Lemma status_check_agrees_with_move_generator_witness :
  (fst (hasLegalMoves backRankMate (currentPlayer backRankMate)) = true
   <-> getAllPossibleMoves backRankMate <> [])
  /\ fst (hasLegalMoves backRankMate (opposite (currentPlayer backRankMate)))
     = false
  /\ (gameState (updateGameState backRankMate) = checkmate
      \/ gameState (updateGameState backRankMate) = stalemate ->
      getAllPossibleMoves backRankMate = []).
Proof.
  apply (status_check_agrees_with_move_generator backRankMate).
  vm_compute. reflexivity.
Defined.

(** ** The basic search and its table *)

Section BasicSearch.
Implicit Types (g : ChessGame) (ai : ChessAI) (m : Move).

Lemma minimax_eq depth ai g alpha beta isMaximizing :
  minimax depth ai g alpha beta isMaximizing =
  let boardHash := getBoardHash g in
  let lookup :=
    match transpositionTable ai !! boardHash with
    | Some ttEntry =>
        match resDepth ttEntry with
        | Some d => if (depth <=? d)%nat then Some ttEntry else None
        | None => None
        end
    | None => None
    end in
  match lookup with
  | Some ttEntry => (ttEntry, ai)
  | None =>
    match depth with
    | O => (mkResult (Fin (evaluatePosition g)) None None, ai)
    | S depth' =>
      match gameState g with
      | playing =>
        let moves := getAllPossibleMoves g in
        match moves with
        | [] =>
            (mkResult (Fin (if isInCheck g (currentPlayer g) then -20000 else 0))
                      None None, ai)
        | _ =>
            let ordered := orderMoves ai moves g depth in
            let '(bestScore, bestMove, ai1) :=
              minimaxLoop (minimax depth') g depth isMaximizing ordered ai
                          alpha beta (if isMaximizing then NegInf else PosInf)
                          None in
            let result := mkResult bestScore bestMove (Some depth) in
            (result,
             mkAI (<[boardHash := result]> (transpositionTable ai1))
                  (killerMoves ai1))
        end
      | _ => (mkResult (Fin (evaluatePosition g)) None None, ai)
      end
    end
  end.
Proof. destruct depth; reflexivity. Qed.

(** The ways a call of [minimax] can end. *)
Lemma minimax_cases depth ai g alpha beta isMaximizing :
  (exists e d, transpositionTable ai !! getBoardHash g = Some e
               /\ resDepth e = Some d /\ (depth <= d)%nat
               /\ minimax depth ai g alpha beta isMaximizing = (e, ai))
  \/ ((forall e d, transpositionTable ai !! getBoardHash g = Some e ->
                   resDepth e = Some d -> (d < depth)%nat)
      /\ ((exists s, minimax depth ai g alpha beta isMaximizing
                     = (mkResult s None None, ai))
          \/ exists depth' bestScore bestMove ai1,
               depth = S depth'
               /\ minimaxLoop (minimax depth') g depth isMaximizing
                    (orderMoves ai (getAllPossibleMoves g) g depth) ai
                    alpha beta (if isMaximizing then NegInf else PosInf) None
                  = (bestScore, bestMove, ai1)
               /\ minimax depth ai g alpha beta isMaximizing
                  = (mkResult bestScore bestMove (Some depth),
                     mkAI (<[getBoardHash g :=
                              mkResult bestScore bestMove (Some depth)]>
                             (transpositionTable ai1))
                          (killerMoves ai1)))).
Proof.
  rewrite minimax_eq. cbv zeta.
  destruct (transpositionTable ai !! getBoardHash g) as [e|] eqn:He.
  - destruct (resDepth e) as [d|] eqn:Hd.
    + destruct (depth <=? d)%nat eqn:Hle.
      * left. exists e, d. apply Nat.leb_le in Hle. done.
      * right. apply Nat.leb_gt in Hle. split.
        { intros e0 d0 [= <-] Hd0. rewrite Hd in Hd0.
          injection Hd0 as <-. lia. }
        destruct depth as [|depth']; [left; eauto|].
        destruct (gameState g); try (left; eauto; fail).
        destruct (getAllPossibleMoves g) as [|m ms] eqn:Hm; [left; eauto|].
        right.
        destruct (minimaxLoop _ _ _ _ _ _ _ _ _ _) as [[bs bm] ai1] eqn:Hl.
        exists depth', bs, bm, ai1. done.
    + right. split; [intros e0 d0 [= <-]; congruence|].
      destruct depth as [|depth']; [left; eauto|].
      destruct (gameState g); try (left; eauto; fail).
      destruct (getAllPossibleMoves g) as [|m ms] eqn:Hm; [left; eauto|].
      right.
      destruct (minimaxLoop _ _ _ _ _ _ _ _ _ _) as [[bs bm] ai1] eqn:Hl.
      exists depth', bs, bm, ai1. done.
  - right. split; [done|].
    destruct depth as [|depth']; [left; eauto|].
    destruct (gameState g); try (left; eauto; fail).
    destruct (getAllPossibleMoves g) as [|m ms] eqn:Hm; [left; eauto|].
    right.
    destruct (minimaxLoop _ _ _ _ _ _ _ _ _ _) as [[bs bm] ai1] eqn:Hl.
    exists depth', bs, bm, ai1. done.
Qed.

Lemma minimax_hit depth ai g alpha beta isMaximizing e d :
  transpositionTable ai !! getBoardHash g = Some e ->
  resDepth e = Some d -> (depth <= d)%nat ->
  minimax depth ai g alpha beta isMaximizing = (e, ai).
Proof.
  intros He Hd Hle. rewrite minimax_eq. cbv zeta. rewrite He, Hd.
  apply Nat.leb_le in Hle. by rewrite Hle.
Qed.

Lemma minimax_memo d d' ai g g' alpha beta im alpha' beta' im' r ai' :
  minimax d ai g alpha beta im = (r, ai') ->
  resDepth r <> None -> (d' <= d)%nat ->
  getBoardHash g' = getBoardHash g ->
  minimax d' ai' g' alpha' beta' im' = (r, ai').
Proof.
  intros Hm Hr Hle Hh.
  destruct (minimax_cases d ai g alpha beta im)
    as [(e & d0 & He & Hd & Hle0 & Heq)
       |(_ & [(s & Heq)|(dp & bs & bm & ai1 & -> & _ & Heq)])];
    rewrite Heq in Hm; injection Hm as <- <-.
  - apply (minimax_hit _ _ _ _ _ _ _ d0); [by rewrite Hh|done|lia].
  - done.
  - apply (minimax_hit _ _ _ _ _ _ _ (S dp)); [|done|done].
    cbn [transpositionTable]. rewrite Hh. apply lookup_insert_eq.
Qed.

(** A relation between the engine before and after that holds for the
    recursive calls and for [storeKiller] holds for the loop. *)
Lemma minimaxLoop_rel (R : ChessAI -> ChessAI -> Prop) search g depth im :
  (forall ai, R ai ai) ->
  (forall a b c, R a b -> R b c -> R a c) ->
  (forall ai m, R ai (storeKiller ai depth m)) ->
  (forall ai g' a b i, R ai (snd (search ai g' a b i))) ->
  forall moves ai alpha beta bs bm,
    R ai (snd (minimaxLoop search g depth im moves ai alpha beta bs bm)).
Proof.
  intros Hrefl Htrans Hkill Hsearch.
  induction moves as [|m rest IH]; intros ai alpha beta bs bm;
    [apply Hrefl|].
  cbn [minimaxLoop].
  destruct (playOnClone g m) as [ok gameClone].
  destruct (negb ok); [apply IH|].
  pose proof (Hsearch ai gameClone alpha beta (negb im)) as Hs.
  destruct (search ai gameClone alpha beta (negb im)) as [result ai1].
  cbn [snd] in Hs. cbv zeta.
  match goal with |- context [if Score_leb ?b ?a then _ else _] =>
    destruct (Score_leb b a) end.
  - cbn [snd]. eapply Htrans; [exact Hs|apply Hkill].
  - eapply Htrans; [exact Hs|apply IH].
Qed.

(** The move the loop ends with is the one it started with or one of the
    moves it ran over. *)
Lemma minimaxLoop_bestMove search g depth im moves :
  forall ai alpha beta bs bm m,
    snd (fst (minimaxLoop search g depth im moves ai alpha beta bs bm))
      = Some m ->
    bm = Some m \/ In m moves.
Proof.
  induction moves as [|x rest IH]; intros ai alpha beta bs bm m;
    [cbn; by left|].
  cbn [minimaxLoop].
  destruct (playOnClone g x) as [ok gameClone].
  destruct (negb ok).
  { intros H. apply IH in H as [H|H]; [by left|right; by right]. }
  destruct (search ai gameClone alpha beta (negb im)) as [result ai1].
  cbv zeta.
  match goal with |- context [if Score_leb ?b ?a then _ else _] =>
    destruct (Score_leb b a) end.
  - cbn [fst snd].
    match goal with |- context [if ?c then Some x else bm] =>
      destruct c end.
    + intros [= <-]. right. by left.
    + by left.
  - intros H. apply IH in H as [H|H]; [|right; by right].
    revert H.
    match goal with |- context [if ?c then Some x else bm] =>
      destruct c end.
    + intros [= <-]. right. by left.
    + by left.
Qed.

Lemma deepened_refl d o : deepened d o o.
Proof. by left. Qed.

Lemma deepened_trans d a b c :
  deepened d a b -> deepened d b c -> deepened d a c.
Proof.
  intros [->|(e1 & d1 & -> & Hd1 & Hle1 & Hlt1)]; [done|].
  intros [->|(e2 & d2 & -> & Hd2 & Hle2 & Hlt2)].
  - right. by exists e1, d1.
  - right. exists e2, d2. repeat split; try done.
    intros e0 d0 Ha Hd0.
    pose proof (Hlt1 e0 d0 Ha Hd0). pose proof (Hlt2 e1 d1 eq_refl Hd1). lia.
Qed.

Lemma deepened_mono d d' a b :
  (d <= d')%nat -> deepened d a b -> deepened d' a b.
Proof.
  intros Hle [->|(e1 & d1 & -> & Hd1 & Hle1 & Hlt1)]; [by left|].
  right. exists e1, d1. repeat split; try done. lia.
Qed.

Lemma storeKiller_table ai depth m :
  transpositionTable (storeKiller ai depth m) = transpositionTable ai.
Proof.
  unfold storeKiller.
  by destruct (mvCaptured m), (killerMoves ai !! depth).
Qed.

Lemma minimax_deepens depth :
  forall ai g alpha beta im h,
    deepened depth (transpositionTable ai !! h)
      (transpositionTable (snd (minimax depth ai g alpha beta im)) !! h).
Proof.
  induction depth as [|depth' IH]; intros ai g alpha beta im h.
  - destruct (minimax_cases 0 ai g alpha beta im)
      as [(e & d0 & _ & _ & _ & ->)
         |(_ & [(s & ->)|(dp & _ & _ & _ & Hd & _)])];
      [by left|by left|done].
  - destruct (minimax_cases (S depth') ai g alpha beta im)
      as [(e & d0 & _ & _ & _ & ->)
         |(Hold & [(s & ->)|(dp & bs & bm & ai1 & [= <-] & Hl & ->)])];
      [by left|by left|].
    cbn [snd transpositionTable].
    assert (forall k, deepened (S depth') (transpositionTable ai !! k)
                        (transpositionTable ai1 !! k)) as Hloop.
    { intros k.
      pose proof (minimaxLoop_rel
        (fun a b => deepened (S depth') (transpositionTable a !! k)
                      (transpositionTable b !! k))
        (minimax depth') g (S depth') im) as Hrel.
      cbv beta in Hrel.
      specialize (Hrel (fun a => deepened_refl _ _)
                       (fun a b c => deepened_trans _ _ _ _)).
      rewrite <- (f_equal snd Hl : _ = ai1). apply Hrel.
      - intros a m. rewrite storeKiller_table. by left.
      - intros a g' x y i. eapply deepened_mono; [|apply IH]. lia. }
    destruct (decide (h = getBoardHash g)) as [->|Hne].
    + rewrite lookup_insert_eq. right.
      eexists _, (S depth'). repeat split; [done|].
      exact Hold.
    + rewrite lookup_insert_ne by done. apply Hloop.
Qed.



(** A generated move is accepted by [makeMove] on the game itself. *)
Lemma generated_move_accepted g m promotionPiece :
  wellFormed g = true -> In m (getAllPossibleMoves g) ->
  fst (makeMove g (fst (mvFrom m)) (snd (mvFrom m))
                (fst (mvTo m)) (snd (mvTo m)) promotionPiece) = true.
Proof.
  intros Hwf Hin.
  apply (in_getAllPossibleMoves g m Hwf) in Hin as (piece & Hp & Hl & _).
  unfold makeMove. rewrite Hp.
  pose proof (isLegalMove_restores g (fst (mvFrom m)) (snd (mvFrom m))
                (fst (mvTo m)) (snd (mvTo m)) (wellFormed_shape g Hwf)) as Hr.
  destruct (isLegalMove g (fst (mvFrom m)) (snd (mvFrom m))
              (fst (mvTo m)) (snd (mvTo m))) as [ok g1].
  cbn [fst] in Hl. subst ok. done.
Qed.

Lemma minimax_move_generated depth ai g alpha beta im r ai' m :
  transpositionTable ai !! getBoardHash g = None ->
  minimax depth ai g alpha beta im = (r, ai') ->
  resMove r = Some m ->
  In m (getAllPossibleMoves g).
Proof.
  intros Hnone Hm Hr.
  destruct (minimax_cases depth ai g alpha beta im)
    as [(e & d0 & He & _)
       |(_ & [(s & Heq)|(dp & bs & bm & ai1 & -> & Hl & Heq)])];
    [congruence| |]; rewrite Heq in Hm; injection Hm as <- <-; [done|].
  cbn [resMove] in Hr. subst bm.
  pose proof (minimaxLoop_bestMove (minimax dp) g (S dp) im
    (orderMoves ai (getAllPossibleMoves g) g (S dp)) ai alpha beta
    (if im then NegInf else PosInf) None m) as Hb.
  rewrite Hl in Hb. destruct (Hb eq_refl) as [|Hin]; [done|].
  apply list_elem_of_In. apply list_elem_of_In in Hin.
  unfold orderMoves in Hin.
  by rewrite sortByScore_Permutation in Hin.
Qed.

End BasicSearch.

(** Once [minimax] has returned a result that carries a depth (a table
    entry or the outcome of a search), asking again at that depth or a
    smaller one, for the same position or for any position with the same
    [getBoardHash], returns the very same result and leaves the engine as it
    is, whatever window and whichever side the second call is given. *)
Theorem minimax_repeats_its_stored_result
    d d' ai g g' alpha beta im alpha' beta' im' r ai' :
  minimax d ai g alpha beta im = (r, ai') ->
  resDepth r <> None -> (d' <= d)%nat ->
  getBoardHash g' = getBoardHash g ->
  minimax d' ai' g' alpha' beta' im' = (r, ai').
Proof. apply minimax_memo. Qed.

Lemma minimax_repeats_its_stored_result_witness :
  minimax 1 (snd (minimax 1 freshAI newGame NegInf PosInf true)) newGame
          (Fin 0) (Fin 1) false
  = (fst (minimax 1 freshAI newGame NegInf PosInf true),
     snd (minimax 1 freshAI newGame NegInf PosInf true)).
Proof.
  apply (minimax_repeats_its_stored_result 1 1 freshAI newGame newGame
           NegInf PosInf true (Fin 0) (Fin 1) false).
  - by destruct (minimax 1 freshAI newGame NegInf PosInf true).
  - vm_compute. discriminate.
  - lia.
  - reflexivity.
Defined.

(** A search never drops a table entry and never replaces one by a
    shallower one: after [minimax] at depth [depth] every slot of the
    transposition table holds the entry it held before, or an entry of a
    strictly larger depth that is at most [depth]. *)
Theorem minimax_only_deepens_the_table depth ai g alpha beta im h :
  deepened depth (transpositionTable ai !! h)
    (transpositionTable (snd (minimax depth ai g alpha beta im)) !! h).
Proof. apply minimax_deepens. Qed.



(** When the table has no entry for the position, the move [minimax]
    returns, if it returns one, is one of the generated moves, and
    [makeMove] accepts it on the game. *)
Theorem minimax_proposes_only_legal_moves
    depth ai g alpha beta im r ai' m promotionPiece :
  wellFormed g = true ->
  transpositionTable ai !! getBoardHash g = None ->
  minimax depth ai g alpha beta im = (r, ai') ->
  resMove r = Some m ->
  In m (getAllPossibleMoves g)
  /\ fst (makeMove g (fst (mvFrom m)) (snd (mvFrom m))
                   (fst (mvTo m)) (snd (mvTo m)) promotionPiece) = true.
Proof.
  intros Hwf Hnone Hm Hr.
  assert (In m (getAllPossibleMoves g)) as Hin
    by by eapply minimax_move_generated.
  split; [done|]. by apply generated_move_accepted.
Qed.

Lemma minimax_proposes_only_legal_moves_witness :
  In (mkMove (7, 1) (5, 2) KNIGHT None) (getAllPossibleMoves newGame)
  /\ fst (makeMove newGame 7 1 5 2 QUEEN) = true.
Proof.
  apply (minimax_proposes_only_legal_moves 1 freshAI newGame NegInf PosInf
           true (fst (minimax 1 freshAI newGame NegInf PosInf true))
           (snd (minimax 1 freshAI newGame NegInf PosInf true))
           (mkMove (7, 1) (5, 2) KNIGHT None) QUEEN).
  - vm_compute. reflexivity.
  - reflexivity.
  - by destruct (minimax 1 freshAI newGame NegInf PosInf true).
  - vm_compute. reflexivity.
Defined.

(** ** The position key of the basic engine *)

Section BoardHash.
Implicit Types (g : ChessGame) (p q : ChessPiece).

Lemma hash_piece_piece k t k' t' acc acc' :
  colorInitial k +:+ typeInitial t +:+ acc
  = colorInitial k' +:+ typeInitial t' +:+ acc'
  <-> k = k' /\ typeInitial t = typeInitial t' /\ acc = acc'.
Proof.
  split.
  - destruct k, k', t, t'; cbn; intros [=]; by subst.
  - intros (-> & Ht & ->). by rewrite Ht.
Qed.

Lemma hash_piece_empty k t acc acc' :
  colorInitial k +:+ typeInitial t +:+ acc <> "--" +:+ acc'.
Proof. by destruct k, t. Qed.

Lemma hash_empty_empty (acc acc' : string) :
  "--" +:+ acc = "--" +:+ acc' <-> acc = acc'.
Proof. split; [by intros [=]|by intros ->]. Qed.

Lemma hash_fold g g' (tail tail' : string) squares :
  fold_right (fun sq acc =>
    match getPieceAt g (fst sq) (snd sq) with
    | Some piece => colorInitial (color piece) +:+ typeInitial (type piece) +:+ acc
    | None => "--" +:+ acc
    end) tail squares
  = fold_right (fun sq acc =>
    match getPieceAt g' (fst sq) (snd sq) with
    | Some piece => colorInitial (color piece) +:+ typeInitial (type piece) +:+ acc
    | None => "--" +:+ acc
    end) tail' squares
  <-> tail = tail'
      /\ forall sq, In sq squares ->
           sameLetters (getPieceAt g (fst sq) (snd sq))
                       (getPieceAt g' (fst sq) (snd sq)).
Proof.
  induction squares as [|sq rest IH]; [cbn; split; [by intros ->|by intros [-> _]]|].
  cbn [fold_right].
  destruct (getPieceAt g (fst sq) (snd sq)) as [p|] eqn:Hp,
           (getPieceAt g' (fst sq) (snd sq)) as [q|] eqn:Hq.
  - rewrite hash_piece_piece, IH. split.
    + intros (Hc & Ht & Htail & Hrest). split; [done|].
      intros sq' [<-|Hin]; [by rewrite Hp, Hq|by apply Hrest].
    + intros (Htail & Hall).
      pose proof (Hall sq (or_introl eq_refl)) as Hsq.
      rewrite Hp, Hq in Hsq. destruct Hsq as [Hc Ht].
      repeat split; try done. intros sq' Hin. apply Hall. by right.
  - split.
    + intros H. by apply hash_piece_empty in H.
    + intros (_ & Hall). pose proof (Hall sq (or_introl eq_refl)) as Hsq.
      by rewrite Hp, Hq in Hsq.
  - split.
    + intros H. symmetry in H. by apply hash_piece_empty in H.
    + intros (_ & Hall). pose proof (Hall sq (or_introl eq_refl)) as Hsq.
      by rewrite Hp, Hq in Hsq.
  - rewrite hash_empty_empty, IH. split.
    + intros (Htail & Hrest). split; [done|].
      intros sq' [<-|Hin]; [by rewrite Hp, Hq|by apply Hrest].
    + intros (Htail & Hall). split; [done|].
      intros sq' Hin. apply Hall. by right.
Qed.

Lemma getBoardHash_eq g g' :
  getBoardHash g = getBoardHash g'
  <-> currentPlayer g = currentPlayer g'
      /\ forall r c, onBoard r c = true ->
           sameLetters (getPieceAt g r c) (getPieceAt g' r c).
Proof.
  unfold getBoardHash. rewrite hash_fold. split.
  - intros (Hc & Hall). split.
    + by destruct (currentPlayer g), (currentPlayer g').
    + intros r c Hon. apply (Hall (r, c)).
      by apply list_elem_of_In, elem_allSquares, onBoard_spec.
  - intros (Hc & Hall). split; [by rewrite Hc|].
    intros [r c] Hin. apply Hall.
    by apply onBoard_spec, elem_allSquares, list_elem_of_In.
Qed.

End BoardHash.

(** The position key of the basic engine records the side to move and, for
    every square, the colour and the first letter of the type of the piece
    on it, and nothing else: two games get the same key exactly when they
    agree on these.  Castling rights, the en-passant target and the
    difference between a knight and a king, whose types begin with the same
    letter, do not enter the key. *)
Theorem getBoardHash_sees_colours_and_first_letters g g' :
  (getBoardHash g = getBoardHash g'
   <-> currentPlayer g = currentPlayer g'
       /\ forall r c, onBoard r c = true ->
            sameLetters (getPieceAt g r c) (getPieceAt g' r c))
  /\ typeInitial KNIGHT = typeInitial KING.
Proof. split; [apply getBoardHash_eq|done]. Qed.

(** ** The basic engine's [getBestMove] *)

Section BasicBestMove.
Implicit Types (g : ChessGame) (m : Move).

Lemma checkEscapes_generated g m :
  In m (checkEscapes g) -> In m (getAllPossibleMoves g).
Proof.
  unfold checkEscapes, getAllPossibleMoves. cbv zeta.
  rewrite !in_flat_map. intros (piece & Hpiece & Hin).
  exists piece. split; [done|].
  apply in_flat_map in Hin as (sq & Hsq & Hin).
  apply in_map_iff. exists sq. split; [|done].
  destruct (makeMove (cloneGame g) (row piece) (col piece) (fst sq) (snd sq)
              QUEEN) as [ok gameClone].
  destruct (ok && negb (isInCheck gameClone (currentPlayer g)));
    [|done].
  by destruct Hin as [<-|[]].
Qed.

Lemma basicGetBestMove_generated now random w difficulty g m w' ai' :
  basicGetBestMove now random w difficulty g = (Some m, w', ai') ->
  In m (getAllPossibleMoves g).
Proof.
  unfold basicGetBestMove. cbv zeta.
  destruct (dateNow now w) as [t w1].
  assert (forall r ai1,
            minimax (basicDepthFromDifficulty difficulty) freshAI g NegInf
                    PosInf true = (r, ai1) ->
            resMove r = Some m -> In m (getAllPossibleMoves g)) as Hsearch.
  { intros r ai1 Hr Hm.
    by eapply (minimax_move_generated _ freshAI g). }
  destruct (isInCheck g (currentPlayer g)).
  - destruct (0 <? Z.of_nat (length (checkEscapes g))).
    + destruct (mathRandom random w1) as [u w2]. intros [= Hm _ _].
      apply checkEscapes_generated. apply list_elem_of_In.
      by eapply list_elem_of_lookup_2.
    + destruct (minimax _ _ _ _ _ _) as [r ai1] eqn:Hr.
      destruct (dateNow now w1) as [t2 w2]. intros [= Hm _ _].
      by eapply Hsearch.
  - destruct (minimax _ _ _ _ _ _) as [r ai1] eqn:Hr.
    destruct (dateNow now w1) as [t2 w2]. intros [= Hm _ _].
    by eapply Hsearch.
Qed.

End BasicBestMove.

(** Whatever the clock and the random draws, a move returned by the basic
    engine's [getBestMove] on a well-formed game is one of the generated
    moves, and [makeMove] accepts it on the game: the engine answers with a
    legal move or with none. *)
Theorem basic_getBestMove_answers_with_a_legal_move
    now random w difficulty g m w' ai' promotionPiece :
  wellFormed g = true -> 3 <= difficulty ->
  basicGetBestMove now random w difficulty g = (Some m, w', ai') ->
  In m (getAllPossibleMoves g)
  /\ fst (makeMove g (fst (mvFrom m)) (snd (mvFrom m))
                   (fst (mvTo m)) (snd (mvTo m)) promotionPiece) = true.
Proof.
  intros Hwf _ Hb.
  assert (In m (getAllPossibleMoves g)) as Hin
    by by eapply basicGetBestMove_generated.
  split; [done|]. by apply generated_move_accepted.
Qed.

Lemma basic_getBestMove_answers_with_a_legal_move_witness :
  In (mkMove (1, 6) (2, 6) PAWN None) (getAllPossibleMoves queenCheck)
  /\ fst (makeMove queenCheck 1 6 2 6 QUEEN) = true.
Proof.
  apply (basic_getBestMove_answers_with_a_legal_move steadyClock drawLow
           world0 3 queenCheck (mkMove (1, 6) (2, 6) PAWN None)
           (mkWorld 1 1) freshAI QUEEN).
  - vm_compute. reflexivity.
  - lia.
  - vm_compute. reflexivity.
Defined.

(** ** The enhanced engine's driver *)

Lemma floorTimes_lt (u : Q) (n : nat) :
  (0 <= u)%Q -> (u < 1)%Q -> (0 < n)%nat -> (floorTimes u n < n)%nat.
Proof.
  intros H0 H1 Hn. unfold floorTimes.
  assert (Qfloor (u * inject_Z (Z.of_nat n)) < Z.of_nat n); [|lia].
  rewrite Zlt_Qlt.
  eapply Qle_lt_trans; [apply Qfloor_le|].
  rewrite <- (Qmult_1_l (inject_Z (Z.of_nat n))) at 2.
  apply Qmult_lt_compat_r; [|done].
  change 0%Q with (inject_Z 0). rewrite <- Zlt_Qlt. lia.
Qed.

Section Driver.
Variable alphaBeta :
  EnhancedChessAI -> ChessGame -> Z -> Score -> Score -> bool
  -> Score * SearchTables.
Variable now : nat -> Z.
Variable random : nat -> Q.
Implicit Types (g : ChessGame) (m : Move) (ai : EnhancedChessAI) (w : World).


Lemma rootLoop_move g depth moves :
  forall w ai alpha bestScore bestMove,
    let r := rootLoop alphaBeta now g depth moves w ai alpha bestScore
                      bestMove in
    snd (fst (fst r)) = bestMove \/ In (snd (fst (fst r))) moves.
Proof.
  induction moves as [|x rest IH]; intros w ai alpha bestScore bestMove;
    cbn [rootLoop]; [by left|].
  destruct (negb (fst (playOnClone g x))).
  { destruct (IH w ai alpha bestScore bestMove) as [H|H];
      [by left|right; by right]. }
  cbn [dateNow]. cbv zeta.
  match goal with |- context [if _ >? _ then _ else _] =>
    match goal with |- context [if ?c then (_, _, _, _) else _] =>
      destruct c end end.
  - cbn [fst snd].
    match goal with |- context [if ?c then x else bestMove] =>
      destruct c end; [right; by left|by left].
  - match goal with |- context [rootLoop _ _ _ _ _ ?w' ?ai' ?a ?b ?c] =>
      destruct (IH w' ai' a b c) as [H|H] end; [|right; by right].
    cbv zeta in H. rewrite H.
    match goal with |- context [if ?c then x else bestMove] =>
      destruct c end; [right; by left|by left].
Qed.

Lemma orderMovesAdvanced_In ai g depth m moves :
  In m (orderMovesAdvanced ai moves g depth) <-> In m moves.
Proof.
  unfold orderMovesAdvanced. rewrite <- !list_elem_of_In.
  by rewrite sortByScore_Permutation.
Qed.

Lemma alphaBetaRoot_move w ai g depth :
  match snd (fst (fst (alphaBetaRoot alphaBeta now w ai g depth))) with
  | Some m => In m (getAllPossibleMoves g)
  | None => getAllPossibleMoves g = []
  end.
Proof.
  unfold alphaBetaRoot.
  destruct (orderMovesAdvanced ai (getAllPossibleMoves g) g depth)
    as [|first others] eqn:Ho.
  - cbn [fst snd].
    destruct (getAllPossibleMoves g) as [|m ms]; [done|].
    assert (In m (orderMovesAdvanced ai (m :: ms) g depth)) as Hin
      by (apply orderMovesAdvanced_In; by left).
    by rewrite Ho in Hin.
  - pose proof (rootLoop_move g depth (first :: others) w ai NegInf NegInf
                  first) as Hm.
    destruct (rootLoop alphaBeta now g depth (first :: others) w ai NegInf
                NegInf first) as [[[s mv] w1] ai1].
    cbn [fst snd] in Hm |- *.
    apply (orderMovesAdvanced_In ai g depth). rewrite Ho.
    destruct Hm as [->|Hm]; [by left|done].
Qed.

Lemma deepen_move g depths :
  forall w ai bestMove m,
    (forall m0, bestMove = Some m0 -> In m0 (getAllPossibleMoves g)) ->
    fst (fst (deepen alphaBeta now g depths w ai bestMove)) = Some m ->
    In m (getAllPossibleMoves g).
Proof.
  induction depths as [|depth rest IH]; intros w ai bestMove m Hb;
    cbn [deepen]; [cbn; apply Hb|].
  pose proof (alphaBetaRoot_move w ai g depth) as Hroot.
  destruct (alphaBetaRoot alphaBeta now w ai g depth) as [[[s mv] w1] ai1].
  cbn [fst snd] in Hroot. cbn [dateNow].
  match goal with |- context [if ?c then _ else _] => destruct c end;
    [cbn; apply Hb|].
  apply IH. intros m0. destruct mv as [mv|]; [by intros [= <-]|apply Hb].
Qed.

Lemma searchBestMove_move w ai g m :
  fst (fst (searchBestMove alphaBeta now w ai g)) = Some (FromSearch m) ->
  In m (getAllPossibleMoves g).
Proof.
  unfold searchBestMove. cbv zeta.
  match goal with |- context [deepen _ _ _ ?d ?w0 ?a None] =>
    pose proof (deepen_move g d w0 a None) as Hd;
    destruct (deepen alphaBeta now g d w0 a None) as [[bm w1] ai2] end.
  cbn [dateNow fst snd] in Hd |- *.
  destruct bm as [m0|]; [|done]. intros [= <-]. by apply Hd.
Qed.

Lemma getBestMove_move w ai g m :
  fst (fst (getBestMove alphaBeta now random w ai g)) = Some (FromSearch m) ->
  In m (getAllPossibleMoves g).
Proof.
  unfold getBestMove. cbn [dateNow]. cbv zeta.
  match goal with |- context [if ?c then getOpeningBookMove _ _ _ _ else _] =>
    destruct (if c then getOpeningBookMove random
                          (mkWorld (S (clockReads w)) (randomDraws w))
                          (withSearchStart ai (now (clockReads w))) g
              else (None, mkWorld (S (clockReads w)) (randomDraws w)))
      as [book w2] end.
  destruct book as [bookMove|]; [done|].
  destruct (Qlt_le_dec 0 _); [|apply searchBestMove_move].
  destruct (mathRandom random w2) as [u w3].
  destruct (Qlt_le_dec u _); [|apply searchBestMove_move].
  unfold randomPick.
  destruct (getAllPossibleMoves g) as [|m0 ms] eqn:Hm;
    [rewrite <- Hm; apply searchBestMove_move|].
  destruct (mathRandom random w3) as [u' w4]. cbn [fst snd].
  destruct ((m0 :: ms) !! _) as [mv|] eqn:Hl; [|done].
  intros [= <-]. apply list_elem_of_In. by eapply list_elem_of_lookup_2.
Qed.

(** With a clock that stays within the budget, the deepening loop ends with
    a move as soon as it runs once or starts with one. *)
Lemma deepen_answers g depths :
  forall w ai bestMove,
    (forall n, now n - startTime ai <= timeLimit ai) ->
    getAllPossibleMoves g <> [] ->
    depths <> [] \/ bestMove <> None ->
    fst (fst (deepen alphaBeta now g depths w ai bestMove)) <> None.
Proof.
  induction depths as [|depth rest IH]; intros w ai bestMove Hclock Hne Hor;
    cbn [deepen]; [cbn; by destruct Hor|].
  pose proof (alphaBetaRoot_move w ai g depth) as Hroot.
  pose proof (alphaBetaRoot_clock alphaBeta now w ai g depth) as Hc.
  destruct (alphaBetaRoot alphaBeta now w ai g depth) as [[[s mv] w1] ai1].
  cbn [fst snd] in Hroot, Hc. destruct Hc as (_ & Hst & Htl).
  cbn [dateNow].
  replace (now (clockReads w1) - startTime ai1 >? timeLimit ai1) with false
    by (symmetry; rewrite Hst, Htl; pose proof (Hclock (clockReads w1)); lia).
  apply IH.
  - intros n. rewrite Hst, Htl. apply Hclock.
  - done.
  - right. by destruct mv.
Qed.

Lemma searchBestMove_answers w ai g :
  (forall n, now n - startTime ai <= timeLimit ai) ->
  1 <= maxDepth ai ->
  getAllPossibleMoves g <> [] ->
  fst (fst (searchBestMove alphaBeta now w ai g)) <> None.
Proof.
  intros Hclock Hdepth Hne. unfold searchBestMove. cbv zeta.
  match goal with |- context [deepen _ _ _ ?d ?w0 ?a None] =>
    pose proof (deepen_answers g d w0 a None) as Hd;
    destruct (deepen alphaBeta now g d w0 a None) as [[bm w1] ai2] end.
  cbn [dateNow fst snd] in Hd |- *.
  destruct bm as [m0|]; [done|]. exfalso. apply Hd; try done.
  - intros n.
    by destruct (100000 <? Z.of_nat (size (eTranspositionTable (tables ai)))).
  - left.
    replace (maxDepth (if 100000 <? Z.of_nat (size (eTranspositionTable (tables ai)))
                       then withClearedTable ai else ai))
      with (maxDepth ai)
      by by destruct (100000 <? Z.of_nat (size (eTranspositionTable (tables ai)))).
    intros Hnil. apply (f_equal length) in Hnil.
    rewrite length_seqZ in Hnil. cbn in Hnil. lia.
Qed.

Lemma getBestMove_answers w ai g :
  (forall n, now n - now (clockReads w) <= timeLimit ai) ->
  (forall n, (0 <= random n)%Q /\ (random n < 1)%Q) ->
  1 <= maxDepth ai ->
  getAllPossibleMoves g <> [] ->
  fst (fst (getBestMove alphaBeta now random w ai g)) <> None.
Proof.
  intros Hclock Hrand Hdepth Hne.
  unfold getBestMove. cbn [dateNow]. cbv zeta.
  set (ai1 := withSearchStart ai (now (clockReads w))).
  assert (forall w0, fst (fst (searchBestMove alphaBeta now w0 ai1 g)) <> None)
    as Hsearch.
  { intros w0. by apply searchBestMove_answers. }
  match goal with |- context [if ?c then getOpeningBookMove _ _ _ _ else _] =>
    destruct (if c then getOpeningBookMove random
                          (mkWorld (S (clockReads w)) (randomDraws w)) ai1 g
              else (None, mkWorld (S (clockReads w)) (randomDraws w)))
      as [book w2] end.
  destruct book as [bookMove|]; [done|].
  destruct (Qlt_le_dec 0 _); [|apply Hsearch].
  destruct (mathRandom random w2) as [u w3].
  destruct (Qlt_le_dec u _); [|apply Hsearch].
  unfold randomPick.
  destruct (getAllPossibleMoves g) as [|m0 ms] eqn:Hm; [done|].
  unfold mathRandom. cbn [fst snd].
  destruct (Hrand (randomDraws w3)) as [H0 H1].
  pose proof (floorTimes_lt (random (randomDraws w3))
                (Nat.min (length (m0 :: ms)) 3) H0 H1) as Hlt.
  destruct ((m0 :: ms) !! _) as [mv|] eqn:Hl; [done|].
  apply lookup_ge_None in Hl. cbn [length] in Hl, Hlt. lia.
Qed.

End Driver.

(** Whatever the recursive search, the clock and the random draws are, a
    move that the enhanced engine's [getBestMove] returns from its search or
    from its random pick is one of the generated moves, and [makeMove]
    accepts it on the game. *)
Theorem enhanced_getBestMove_searches_only_legal_moves
    alphaBeta now random w ai g m promotionPiece :
  wellFormed g = true ->
  fst (fst (getBestMove alphaBeta now random w ai g)) = Some (FromSearch m) ->
  In m (getAllPossibleMoves g)
  /\ fst (makeMove g (fst (mvFrom m)) (snd (mvFrom m))
                   (fst (mvTo m)) (snd (mvTo m)) promotionPiece) = true.
Proof.
  intros Hwf Hb.
  assert (In m (getAllPossibleMoves g)) as Hin
    by by eapply getBestMove_move.
  split; [done|]. by apply generated_move_accepted.
Qed.

(** When no clock reading lies further from the first one than the time
    limit, the random draws lie in [0, 1) and [maxDepth] is at least 1,
    [getBestMove] returns a move whenever the side to move has one. *)
Theorem enhanced_getBestMove_answers_within_budget
    alphaBeta now random w ai g :
  (forall n, now n - now (clockReads w) <= timeLimit ai) ->
  (forall n, (0 <= random n)%Q /\ (random n < 1)%Q) ->
  1 <= maxDepth ai ->
  getAllPossibleMoves g <> [] ->
  fst (fst (getBestMove alphaBeta now random w ai g)) <> None.
Proof. apply getBestMove_answers. Qed.

Lemma enhanced_getBestMove_searches_only_legal_moves_witness :
  In (mkMove (6, 0) (4, 0) PAWN None) (getAllPossibleMoves newGame)
  /\ fst (makeMove newGame 6 0 4 0 QUEEN) = true.
Proof.
  apply (enhanced_getBestMove_searches_only_legal_moves idleSearch
           steadyClock drawHigh world0 (newEnhancedAI 1 zeroZobrist) newGame
           (mkMove (6, 0) (4, 0) PAWN None) QUEEN).
  - vm_compute. reflexivity.
  - vm_compute. reflexivity.
Defined.

Lemma enhanced_getBestMove_answers_within_budget_witness :
  fst (fst (getBestMove idleSearch steadyClock drawLow world0
              (newEnhancedAI 1 zeroZobrist) newGame)) <> None.
Proof.
  apply (enhanced_getBestMove_answers_within_budget idleSearch steadyClock
           drawLow world0 (newEnhancedAI 1 zeroZobrist) newGame).
  - intros n. vm_compute. discriminate.
  - intros n. split; vm_compute; [discriminate|reflexivity].
  - vm_compute. discriminate.
  - vm_compute. discriminate.
Defined.

(** ** Reading the opening book *)

Lemma squareName_decodes r c (rest : string) :
  onBoard r c = true ->
  charCodeAt (squareName r c +:+ rest) 0 - 97 = c
  /\ 8 - digitAt (squareName r c +:+ rest) 1 = r
  /\ exists a b, squareName r c +:+ rest = String a (String b rest).
Proof.
  intros Hon. apply onBoard_spec in Hon as [Hr Hc].
  assert (r = 0 \/ r = 1 \/ r = 2 \/ r = 3 \/ r = 4 \/ r = 5 \/ r = 6 \/ r = 7)
    as Hrs by lia.
  assert (c = 0 \/ c = 1 \/ c = 2 \/ c = 3 \/ c = 4 \/ c = 5 \/ c = 6 \/ c = 7)
    as Hcs by lia.
  repeat (destruct Hrs as [->|Hrs]); try subst r;
    repeat (destruct Hcs as [->|Hcs]); try subst c;
    (split; [reflexivity|split; [reflexivity|eexists _, _; reflexivity]]).
Qed.

Lemma book_reply_decoded random w ai g replies r c r' c' :
  onBoard r c = true -> onBoard r' c' = true ->
  bookLookup (openingBook ai) (historyKey g) = Some replies ->
  replies !! floorTimes (random (randomDraws w)) (length replies)
    = Some (squareName r c +:+ squareName r' c') ->
  getOpeningBookMove random w ai g
  = (Some (mkBookReply (r, c) (r', c')
             (match getPieceAt g r c with
              | Some p => Some (type p)
              | None => None
              end)),
     mkWorld (clockReads w) (S (randomDraws w))).
Proof.
  intros Hon Hon' Hbook Hreply. unfold getOpeningBookMove. rewrite Hbook.
  destruct replies as [|first others]; [done|].
  unfold mathRandom. rewrite Hreply.
  destruct (squareName_decodes r c (squareName r' c') Hon)
    as (Hc & Hr & a & b & Hab).
  pose proof (squareName_decodes r' c' EmptyString Hon') as (Hc' & Hr' & a' & b' & Hab').
  assert (squareName r' c' +:+ EmptyString = squareName r' c') as Hnil.
  { generalize (squareName r' c'). intros s.
    induction s as [|x s IH]; [done|].
    change (String x (s +:+ EmptyString) = String x s). by rewrite IH. }
  rewrite Hnil in Hc', Hr', Hab'.
  assert (charCodeAt (squareName r c +:+ squareName r' c') 2 - 97 = c'
          /\ 8 - digitAt (squareName r c +:+ squareName r' c') 3 = r')
    as [Hc2 Hr2].
  { rewrite Hab. unfold digitAt, charCodeAt. cbn [String.get].
    unfold digitAt, charCodeAt in Hc', Hr'. done. }
  cbn [fst snd]. rewrite Hc, Hr, Hc2, Hr2. done.
Qed.

(** The book's replies are read back as they are written: when the reply
    drawn for the game's history is the name of a from-square followed by
    the name of a to-square, both on the board, [getOpeningBookMove]
    returns exactly these two squares, together with the type of the piece
    on the from-square, and makes one random draw. *)
Theorem book_reply_decodes_to_the_named_squares
    random w ai g replies r c r' c' :
  onBoard r c = true -> onBoard r' c' = true ->
  bookLookup (openingBook ai) (historyKey g) = Some replies ->
  replies !! floorTimes (random (randomDraws w)) (length replies)
    = Some (squareName r c +:+ squareName r' c') ->
  getOpeningBookMove random w ai g
  = (Some (mkBookReply (r, c) (r', c')
             (match getPieceAt g r c with
              | Some p => Some (type p)
              | None => None
              end)),
     mkWorld (clockReads w) (S (randomDraws w))).
Proof. apply book_reply_decoded. Qed.

Lemma book_reply_decodes_to_the_named_squares_witness :
  getOpeningBookMove drawLow world0 (newEnhancedAI 5 zeroZobrist) afterC4
  = (Some (mkBookReply (1, 4) (3, 4)
             (match getPieceAt afterC4 1 4 with
              | Some p => Some (type p)
              | None => None
              end)),
     mkWorld (clockReads world0) (S (randomDraws world0))).
Proof.
  apply (book_reply_decodes_to_the_named_squares drawLow world0
           (newEnhancedAI 5 zeroZobrist) afterC4
           ["e7e5"; "g8f6"; "c7c5"; "e7e6"] 1 4 3 4).
  - reflexivity.
  - reflexivity.
  - vm_compute. reflexivity.
  - vm_compute. reflexivity.
Defined.

(** ** Pieces on the board and pieces captured *)

Section Conservation.
Implicit Types (g : ChessGame) (b : Board) (p : ChessPiece) (k : Color).

Lemma NoDup_allSquares : NoDup allSquares.
Proof. apply (bool_decide_unpack _). vm_compute. exact I. Qed.

Lemma getPieces_count g k :
  length (getPieces g k) = countOnBoard (board g) k.
Proof.
  unfold getPieces, countOnBoard.
  assert (forall sq, sq ∈ allSquares -> onBoard (fst sq) (snd sq) = true)
    as Hon.
  { intros [r c] Hin. by apply onBoard_spec, elem_allSquares. }
  induction allSquares as [|sq rest IH]; [done|].
  cbn [flat_map map sum_list sum_list_with]. change (id ?x) with x.
  rewrite length_app, IH.
  2:{ intros sq' Hin. apply Hon. by right. }
  f_equal. rewrite getPieceAt_on by (apply Hon; by left).
  unfold ofColour. destruct (cell (board g) (fst sq) (snd sq)) as [p|]; [|done].
  by destruct (Color_eqb (color p) k).
Qed.

Lemma sum_list_update {A} (f f' : A -> nat) (l : list A) (x : A) :
  NoDup l -> x ∈ l -> (forall y, y ≠ x -> f' y = f y) ->
  (sum_list (map f' l) + f x = sum_list (map f l) + f' x)%nat.
Proof.
  intros Hnd Hin Hagree. induction Hnd as [|y l Hy Hnd IH].
  { by apply elem_of_nil in Hin. }
  cbn [map sum_list sum_list_with].
  apply elem_of_cons in Hin as [->|Hin].
  - assert (map f' l = map f l) as ->; [|unfold sum_list, id; lia].
    apply map_ext_in. intros z Hz. apply Hagree. intros ->.
    apply Hy. by apply list_elem_of_In.
  - rewrite (Hagree y) by (intros ->; done).
    specialize (IH Hin). unfold sum_list, id in *. lia.
Qed.

Lemma count_setCell b k r c v :
  boardShape b -> onBoard r c = true ->
  (countOnBoard (setCell b r c v) k + ofColour k (cell b r c)
   = countOnBoard b k + ofColour k v)%nat.
Proof.
  intros Hs Hon. unfold countOnBoard.
  pose proof (sum_list_update
    (fun sq => ofColour k (cell b (fst sq) (snd sq)))
    (fun sq => ofColour k (cell (setCell b r c v) (fst sq) (snd sq)))
    allSquares (r, c) NoDup_allSquares) as Hu.
  cbn [fst snd] in Hu. rewrite Hu.
  - rewrite cell_setCell by done. by rewrite decide_True.
  - by apply elem_allSquares, onBoard_spec.
  - intros [r' c'] Hne. cbn [fst snd]. rewrite cell_setCell by done.
    rewrite decide_False; [done|]. intros (-> & -> & _). done.
Qed.

Lemma pcGet_pcSet {A} (pc : PerColor A) (c k : Color) (v : A) :
  pcGet (pcSet pc c v) k = if Color_eqb c k then v else pcGet pc k.
Proof. by destruct c, k. Qed.

Lemma canCastle_path_empty g c kingSide :
  canCastle g c kingSide = true ->
  getPieceAt g (homeRow c) (if kingSide then 5 else 3) = None.
Proof.
  unfold canCastle. fold (homeRow c).
  destruct (getPieceAt g (homeRow c) 4) as [k|]; [|done].
  destruct (getPieceAt g (homeRow c) (if kingSide then 7 else 0)) as [rk|];
    [|done].
  destruct (negb (PieceType_eqb (type k) KING) || hasMoved k); [done|].
  destruct (negb (PieceType_eqb (type rk) ROOK) || hasMoved rk); [done|].
  destruct (isInCheck g c); [done|].
  destruct kingSide.
  - destruct (getPieceAt g (homeRow c) 5); [done|done].
  - destruct (getPieceAt g (homeRow c) 1); [done|].
    destruct (getPieceAt g (homeRow c) 2); [done|].
    destruct (getPieceAt g (homeRow c) 3); [done|done].
Qed.

Lemma captureRowOf_direction c toRow :
  captureRowOf c toRow = toRow - direction c.
Proof. destruct c; unfold captureRowOf, direction; lia. Qed.

Lemma count_move b k fromRow fromCol toRow toCol piece final :
  boardShape b ->
  onBoard fromRow fromCol = true -> onBoard toRow toCol = true ->
  (fromRow, fromCol) <> (toRow, toCol) ->
  cell b fromRow fromCol = Some piece -> color final = color piece ->
  (countOnBoard (setCell (setCell b toRow toCol (Some final))
                         fromRow fromCol None) k
   + ofColour k (cell b toRow toCol)
   = countOnBoard b k)%nat.
Proof.
  intros Hs Hfrom Hto Hne Hp Hc.
  pose proof (count_setCell b k toRow toCol (Some final) Hs Hto) as E2.
  pose proof (count_setCell (setCell b toRow toCol (Some final)) k
                fromRow fromCol None (setCell_shape _ _ _ _ Hs) Hfrom) as E3.
  rewrite cell_setCell in E3 by done.
  rewrite decide_False in E3 by (intros (-> & -> & _); done).
  rewrite Hp in E3. unfold ofColour in E2, E3 |- *. rewrite Hc in E2. lia.
Qed.

Lemma applyMove_conserves g piece fromRow fromCol toRow toCol promo k :
  wellFormed g = true -> enPassantPawnBehind g ->
  getPieceAt g fromRow fromCol = Some piece ->
  fst (isLegalMove g fromRow fromCol toRow toCol) = true ->
  (isCastlingStep piece fromCol toCol = true ->
   fromRow = homeRow (color piece)) ->
  (countOnBoard
     (board (applyMove g piece fromRow fromCol toRow toCol promo)) k
   + length (pcGet (capturedPieces
                      (applyMove g piece fromRow fromCol toRow toCol promo)) k)
   = countOnBoard (board g) k + length (pcGet (capturedPieces g) k))%nat.
Proof.
  intros Hwf Hbehind Hp Hl Hhome.
  pose proof (wellFormed_shape g Hwf) as Hs.
  destruct (legal_move_facts _ _ _ _ _ Hwf Hl)
    as (piece' & Hp' & Hcell & Hr & Hk & Hcol & Hfrom & Hto & Hin & Hne
        & Hcastle & Hpawn).
  assert (piece' = piece) as -> by congruence.
  unfold applyMove. cbn [board capturedPieces].
  set (final := if PieceType_eqb (type (moveTo piece toRow toCol)) PAWN
                   && ((toRow =? 0) || (toRow =? 7))
                then setType (moveTo piece toRow toCol) promo
                else moveTo piece toRow toCol).
  set (e := PieceType_eqb (type piece) PAWN
            && isNone (getPieceAt g toRow toCol)
            && isEnPassantSquare g toRow toCol).
  set (cap := if e
              then cell (board g) (captureRowOf (color piece) toRow) toCol
              else getPieceAt g toRow toCol).
  set (b1 := if e
             then setCell (board g) (captureRowOf (color piece) toRow) toCol
                          None
             else board g).
  set (caps := match cap with
               | Some cp =>
                   pcSet (capturedPieces g) (color cp)
                         (pcGet (capturedPieces g) (color cp) ++ [cp])
               | None => capturedPieces g
               end).
  assert (color final = color piece) as Hfc.
  { unfold final. by destruct (_ && _). }
  assert (length (pcGet caps k)
          = (length (pcGet (capturedPieces g) k) + ofColour k cap)%nat)
    as Hcaps.
  { unfold caps, ofColour. destruct cap as [cp|]; [|lia].
    rewrite pcGet_pcSet. destruct (Color_eqb (color cp) k) eqn:Hck; [|lia].
    apply Color_eqb_true in Hck. subst k. rewrite length_app. done. }
  assert (boardShape b1) as Hs1.
  { unfold b1. destruct e; [by apply setCell_shape|done]. }
  assert ((countOnBoard
             (setCell (setCell b1 toRow toCol (Some final)) fromRow fromCol
                      None) k
           + length (pcGet caps k)
           = countOnBoard (board g) k + length (pcGet (capturedPieces g) k))%nat)
    as HA.
  { rewrite Hcaps. destruct e eqn:He; unfold e in He.
    - (* en passant *)
      apply andb_true_iff in He as [He Hep].
      apply andb_true_iff in He as [Hpt Htarget].
      apply PieceType_eqb_true in Hpt.
      destruct (getPieceAt g toRow toCol) as [t|] eqn:Ht; [done|].
      unfold isEnPassantSquare in Hep.
      destruct (enPassantTarget g) as [[er ec]|] eqn:Hept; [|done].
      cbn [fst snd] in Hep. apply andb_true_iff in Hep as [H1 H2].
      apply Z.eqb_eq in H1, H2. subst er ec.
      destruct (Hbehind _ _ Hept) as (q & Hq & Hqc).
      rewrite <- Hcol in Hq, Hqc.
      destruct (Hpawn Hpt) as [Habs Hstep].
      assert (toRow = fromRow + direction (color piece)) as Hrow.
      { destruct Hstep as [Hstep|(Hstep & -> & _ & Hmid & _)]; [done|].
        exfalso. revert Hq.
        replace (toRow - direction (color piece))
          with (fromRow + direction (color piece)) by lia.
        by rewrite Hmid. }
      assert (captureRowOf (color piece) toRow = fromRow) as Hcr.
      { rewrite captureRowOf_direction. lia. }
      replace (toRow - direction (color piece)) with fromRow in Hq by lia.
      assert (toCol <> fromCol) as Hcne.
      { intros ->. rewrite Hcell in Hq. injection Hq as <-.
        by destruct (color piece). }
      assert (onBoard fromRow toCol = true) as Hon.
      { apply onBoard_spec. apply onBoard_spec in Hfrom, Hto. lia. }
      unfold cap, b1 in *. rewrite Hcr in *. rewrite Hq.
      pose proof (count_setCell (board g) k fromRow toCol None Hs Hon) as E1.
      rewrite Hq in E1.
      pose proof (count_move (setCell (board g) fromRow toCol None) k
                    fromRow fromCol toRow toCol piece final Hs1 Hfrom Hto Hne)
        as E2.
      rewrite !cell_setCell in E2 by done.
      rewrite !decide_False in E2
        by (intros (? & ? & _); pose proof (direction_cases (color piece));
            lia).
      rewrite (getPieceAt_on g toRow toCol Hto) in Ht. rewrite Ht in E2.
      specialize (E2 Hcell Hfc). cbn [ofColour] in E1, E2 |- *. lia.
    - (* no en passant *)
      unfold cap, b1 in *.
      pose proof (count_move (board g) k fromRow fromCol toRow toCol piece
                    final Hs Hfrom Hto Hne Hcell Hfc) as E2.
      rewrite (getPieceAt_on g toRow toCol Hto). lia. }
  destruct (PieceType_eqb (type final) KING && (Z.abs (toCol - fromCol) =? 2))
    eqn:Hcs; [|exact HA].
  apply andb_true_iff in Hcs as [Hking Habs].
  assert (type piece = KING) as Hpk.
  { unfold final in Hking. cbn [moveTo type] in Hking.
    destruct (PieceType_eqb (type piece) PAWN) eqn:Hpp.
    - apply PieceType_eqb_true in Hpp. destruct (Hpawn Hpp) as [? _]. lia.
    - cbn [andb] in Hking. by apply PieceType_eqb_true in Hking. }
  assert (isCastlingStep piece fromCol toCol = true) as Hic.
  { unfold isCastlingStep. by rewrite Hpk, Habs. }
  destruct (Hcastle Hic) as (-> & -> & Hside).
  specialize (Hhome Hic).
  assert (e = false) as He by (unfold e; by rewrite Hpk).
  unfold b1 in *. rewrite He in *.
  apply in_king_moves in Hin; [|done].
  destruct Hin as [(_ & _ & Hmax)|(Hunmoved & _ & _ & Hflag)];
    [rewrite Hk in Hmax; lia|].
  assert (canCastle g (color piece) (toCol >? 4) = true) as Hcan.
  { unfold contextOf in Hflag. rewrite Hpk in Hflag.
    cbn [canCastleKingSide canCastleQueenSide PieceType_eqb] in Hflag.
    destruct Hflag as [[-> H]|[-> H]]; exact H. }
  apply canCastle_path_empty in Hcan. rewrite <- Hhome in Hcan.
  unfold handleCastling. cbn [board].
  match goal with |- context [getPieceAt ?x fromRow ?c] =>
    destruct (getPieceAt x fromRow c) as [rook|] eqn:Hrook
  end; cbn [board withBoard capturedPieces]; [|exact HA].
  rewrite <- HA. f_equal.
  assert (onBoard fromRow (if toCol >? 4 then 7 else 0) = true
          /\ onBoard fromRow (if toCol >? 4 then 5 else 3) = true)
    as [Hon7 Hon5].
  { apply onBoard_spec in Hfrom. split; apply onBoard_spec;
      destruct (toCol >? 4); lia. }
  apply getPieceAt_cell in Hrook. cbn [board] in Hrook.
  match goal with |- countOnBoard (setCell (setCell ?b3 _ _ _) _ _ _) _ = _ =>
    pose proof (count_move b3 k fromRow (if toCol >? 4 then 7 else 0)
                  fromRow (if toCol >? 4 then 5 else 3) rook
                  (moveTo rook fromRow (if toCol >? 4 then 5 else 3))) as E4
  end.
  assert (ofColour k
            (cell (setCell (setCell (board g) fromRow toCol (Some final))
                           fromRow 4 None)
                  fromRow (if toCol >? 4 then 5 else 3)) = 0%nat) as Hempty.
  { rewrite !cell_setCell by (repeat apply setCell_shape; done).
    rewrite !decide_False
      by (intros (_ & ? & _); destruct Hside as [-> | ->]; cbn in *; lia).
    rewrite (getPieceAt_on g fromRow _ Hon5) in Hcan. by rewrite Hcan. }
  rewrite Hempty in E4. rewrite <- E4; [lia| |done|done| |done|done].
  - by repeat apply setCell_shape.
  - intros [= Heq]. destruct (toCol >? 4); lia.
Qed.

Lemma applyMove_pawn_behind g piece fromRow fromCol toRow toCol promo :
  wellFormed g = true ->
  getPieceAt g fromRow fromCol = Some piece ->
  fst (isLegalMove g fromRow fromCol toRow toCol) = true ->
  enPassantPawnBehind (applyMove g piece fromRow fromCol toRow toCol promo).
Proof.
  intros Hwf Hp Hl r c Hep.
  pose proof (wellFormed_shape g Hwf) as Hs.
  destruct (legal_move_facts _ _ _ _ _ Hwf Hl)
    as (piece' & Hp' & Hcell & Hr & Hk & Hcol & Hfrom & Hto & Hin & Hne
        & Hcastle & Hpawn).
  assert (piece' = piece) as -> by congruence.
  rewrite applyMove_enPassantTarget_eq in Hep.
  destruct (PieceType_eqb (typeAfterMove piece toRow promo) PAWN) eqn:Ht;
    [|done].
  destruct (Z.abs (toRow - fromRow) =? 2) eqn:Habs; [|done].
  cbn [andb] in Hep. injection Hep as <- <-.
  apply Z.eqb_eq in Habs.
  destruct (applyMove_scalars g piece fromRow fromCol toRow toCol promo)
    as (Hcur & _).
  rewrite Hcur.
  destruct (PieceType_eqb (type piece) PAWN) eqn:Hpp.
  2:{ unfold typeAfterMove in Ht. rewrite Hpp in Ht. cbn [andb] in Ht.
      rewrite Ht in Hpp. done. }
  apply PieceType_eqb_true in Hpp.
  destruct (Hpawn Hpp) as [Hc1 Hstep].
  pose proof (direction_cases (color piece)) as Hd.
  destruct Hstep as [Hstep|(Hstep & Hcc & _)]; [lia|]. subst toCol.
  destruct (applyMove_board_cell g piece fromRow fromCol toRow fromCol promo
              toRow fromCol Hs Hfrom Hto Hne Hcastle
              (fun H => proj1 (Hpawn H))) as [_ Hcellto].
  eexists. split.
  - rewrite <- (Hcellto (conj eq_refl eq_refl)). f_equal.
    rewrite <- Hcol.
    replace (direction (opposite (color piece)))
      with (- direction (color piece)) by (by destruct (color piece)).
    rewrite Hstep.
    replace (fromRow + 2 * direction (color piece) - fromRow)
      with (2 * direction (color piece)) by lia.
    destruct Hd as [-> | ->];
      [change (2 * -1 / 2) with (-1)|change (2 * 1 / 2) with 1]; lia.
  - cbn [setType moveTo color]. rewrite Hcol. by destruct (currentPlayer g).
Qed.

End Conservation.

(** No piece is lost or made by a move: on a well-formed game in which the
    pawn that may be taken en passant stands behind the target, and for a
    king's two-column step from its home row, an accepted move leaves, for
    each colour, the number of pieces on the board plus the number of
    captured pieces recorded for that colour as it was; and the pawn that
    may be taken en passant again stands behind the new target. *)
Theorem makeMove_conserves_the_pieces
    g fromRow fromCol toRow toCol promotionPiece g' piece k :
  wellFormed g = true -> enPassantPawnBehind g ->
  getPieceAt g fromRow fromCol = Some piece ->
  (isCastlingStep piece fromCol toCol = true ->
   fromRow = homeRow (color piece)) ->
  makeMove g fromRow fromCol toRow toCol promotionPiece = (true, g') ->
  (length (getPieces g' k) + length (pcGet (capturedPieces g') k)
   = length (getPieces g k) + length (pcGet (capturedPieces g) k))%nat
  /\ enPassantPawnBehind g'.
Proof.
  intros Hwf Hbehind Hp Hhome Hm.
  destruct (makeMove_success_inv _ _ _ _ _ _ _ _ Hwf Hp Hm) as (Hl & -> & Hs1).
  destruct (updateGameState_fields _ Hs1)
    as (Hb & Hcur & _ & Hcap & _ & _ & Hep & _).
  split.
  - rewrite !getPieces_count, Hb, Hcap. by apply applyMove_conserves.
  - intros r c Hr. rewrite Hep in Hr. rewrite Hb, Hcur.
    by apply (applyMove_pawn_behind g piece fromRow fromCol toRow toCol
                promotionPiece Hwf Hp Hl).
Qed.

Lemma makeMove_conserves_the_pieces_witness :
  (length (getPieces (snd (makeMove centreTension 4 4 3 3 QUEEN)) BLACK)
   + length (pcGet (capturedPieces
                      (snd (makeMove centreTension 4 4 3 3 QUEEN))) BLACK)
   = length (getPieces centreTension BLACK)
     + length (pcGet (capturedPieces centreTension) BLACK))%nat
  /\ enPassantPawnBehind (snd (makeMove centreTension 4 4 3 3 QUEEN)).
Proof.
  apply (makeMove_conserves_the_pieces centreTension 4 4 3 3 QUEEN
           (snd (makeMove centreTension 4 4 3 3 QUEEN))
           (mkPiece PAWN WHITE 4 4 true) BLACK).
  - vm_compute. reflexivity.
  - intros r c Hep. vm_compute in Hep. injection Hep as <- <-.
    eexists. split; vm_compute; reflexivity.
  - vm_compute. reflexivity.
  - intros H. vm_compute in H. discriminate H.
  - vm_compute. reflexivity.
Defined.

(** ** Copies of the board, and the capture list *)

Lemma emptyBoard_shape : boardShape emptyBoard.
Proof. apply boardShapeb_spec. reflexivity. Qed.

Lemma emptyBoard_cell r c : cell emptyBoard r c = None.
Proof.
  unfold cell, emptyBoard. destruct ((0 <=? r) && (0 <=? c)); [|done].
  destruct (replicate 8 (replicate 8 None) !! Z.to_nat r) as [rw|] eqn:Hrw;
    [|done].
  apply lookup_replicate in Hrw as [-> _].
  destruct (replicate 8 None !! Z.to_nat c) as [x|] eqn:Hx; [|done].
  by apply lookup_replicate in Hx as [-> _].
Qed.

Lemma cloneBoard_eq g : boardShape (board g) -> cloneBoard g = board g.
Proof.
  intros Hs. apply board_ext; [by apply overlay_shape, emptyBoard_shape|done|].
  intros r c Hon. unfold cloneBoard.
  rewrite overlay_cell by (done || apply emptyBoard_shape).
  rewrite emptyBoard_cell.
  destruct (cell (board g) r c); [|done].
  rewrite decide_True; [done|]. by apply elem_allSquares, onBoard_spec.
Qed.

Lemma getCaptureMoves_eq g :
  getCaptureMoves g
  = List.filter (fun m => isSome (mvCaptured m)) (getAllPossibleMoves g).
Proof.
  unfold getCaptureMoves, getAllPossibleMoves.
  induction (getPieces g (currentPlayer g)) as [|piece rest IH]; [done|].
  cbn [flat_map]. rewrite List.filter_app, IH. f_equal.
  induction (fst (getLegalMoves g (Some piece))) as [|sq sqs IHs]; [done|].
  cbn [flat_map map List.filter mvCaptured]. rewrite IHs.
  by destruct (getPieceAt g (fst sq) (snd sq)).
Qed.

(** [cloneBoard] returns the board itself: every square of the copy holds
    what the square of the original holds, the empty squares included. *)
Theorem cloneBoard_copies_every_square g :
  boardShape (board g) -> cloneBoard g = board g.
Proof. apply cloneBoard_eq. Qed.

Lemma cloneBoard_copies_every_square_witness :
  cloneBoard afterCastling = board afterCastling.
Proof.
  apply (cloneBoard_copies_every_square afterCastling).
  apply boardShapeb_spec. vm_compute. reflexivity.
Defined.

(** The capture list of the quiescence search is the list of generated
    moves whose [captured] field is set, in the same order; every move in it
    lands on an occupied square, so a capture en passant is never in it.
    [orderCapturesByMVVLVA] only reorders its argument, by decreasing
    victim value minus a tenth of the attacker's value. *)
Theorem getCaptureMoves_are_the_generated_captures g moves :
  getCaptureMoves g
  = List.filter (fun m => isSome (mvCaptured m)) (getAllPossibleMoves g)
  /\ (forall m, In m (getCaptureMoves g) ->
        getPieceAt g (fst (mvTo m)) (snd (mvTo m)) <> None)
  /\ orderCapturesByMVVLVA moves ≡ₚ moves
  /\ descending mvvLvaScore (orderCapturesByMVVLVA moves).
Proof.
  split; [apply getCaptureMoves_eq|]. split.
  - intros m Hin. unfold getCaptureMoves in Hin.
    apply in_flat_map in Hin as (piece & _ & Hin).
    apply in_flat_map in Hin as (sq & _ & Hin).
    destruct (getPieceAt g (fst sq) (snd sq)) as [q|] eqn:Hq; [|done].
    destruct Hin as [<-|[]]. cbn [mvTo]. by rewrite Hq.
  - split; [apply sortByScore_Permutation|apply sortByScore_descending].
Qed.

(** ** [makeMove] and the status field *)

Section StatusField.
Implicit Types (g : ChessGame) (s : GameState).

Lemma makeMove_eq g fromRow fromCol toRow toCol promo :
  boardShape (board g) ->
  makeMove g fromRow fromCol toRow toCol promo =
  match getPieceAt g fromRow fromCol with
  | Some piece =>
      if fst (isLegalMove g fromRow fromCol toRow toCol)
      then (true, updateGameState
                    (applyMove g piece fromRow fromCol toRow toCol promo))
      else (false, g)
  | None => (false, g)
  end.
Proof.
  intros Hs. unfold makeMove.
  destruct (getPieceAt g fromRow fromCol) as [piece|]; [|done].
  pose proof (isLegalMove_restores g fromRow fromCol toRow toCol Hs) as Hr.
  destruct (isLegalMove g fromRow fromCol toRow toCol) as [ok g1].
  cbn [fst snd] in Hr |- *. subst g1. by destruct ok.
Qed.

Lemma applyMove_withGameState g s piece fromRow fromCol toRow toCol promo :
  applyMove (withGameState g s) piece fromRow fromCol toRow toCol promo
  = withGameState (applyMove g piece fromRow fromCol toRow toCol promo) s.
Proof.
  unfold applyMove.
  change (getPieceAt (withGameState g s) toRow toCol)
    with (getPieceAt g toRow toCol).
  change (isEnPassantSquare (withGameState g s) toRow toCol)
    with (isEnPassantSquare g toRow toCol).
  cbn [withGameState board currentPlayer gameState moveHistory capturedPieces
       lastMove kingPositions enPassantTarget halfMoveClock fullMoveNumber].
  match goal with |- context [if ?c then handleCastling _ _ _ _ _ else _] =>
    destruct c end; [|reflexivity].
  unfold handleCastling, getPieceAt. cbn [board].
  match goal with |- context [if ?c then None else ?x] =>
    destruct (if c then None else x) end; reflexivity.
Qed.

Lemma updateGameState_withGameState g s :
  boardShape (board g) ->
  updateGameState (withGameState g s) = updateGameState g.
Proof.
  intros Hs. rewrite !updateGameState_status by done.
  by rewrite canMove_withGameState.
Qed.

Lemma makeMove_withGameState g s fromRow fromCol toRow toCol promo :
  boardShape (board g) ->
  makeMove (withGameState g s) fromRow fromCol toRow toCol promo
  = if fst (makeMove g fromRow fromCol toRow toCol promo)
    then makeMove g fromRow fromCol toRow toCol promo
    else (false, withGameState g s).
Proof.
  intros Hs. rewrite !makeMove_eq by done.
  change (getPieceAt (withGameState g s) fromRow fromCol)
    with (getPieceAt g fromRow fromCol).
  destruct (getPieceAt g fromRow fromCol) as [piece|]; [|done].
  rewrite isLegalMove_fst_withGameState.
  destruct (fst (isLegalMove g fromRow fromCol toRow toCol)); [|done].
  cbn [fst]. rewrite applyMove_withGameState.
  rewrite updateGameState_withGameState; [done|].
  by apply applyMove_shape.
Qed.

End StatusField.

(** [makeMove] never looks at the status: whatever [gameState] says when
    the move is tried, checkmate, stalemate and draw included, the same
    moves are accepted and they lead to the same game. *)
Theorem makeMove_does_not_read_the_status
    g s fromRow fromCol toRow toCol promotionPiece :
  boardShape (board g) ->
  makeMove (withGameState g s) fromRow fromCol toRow toCol promotionPiece
  = if fst (makeMove g fromRow fromCol toRow toCol promotionPiece)
    then makeMove g fromRow fromCol toRow toCol promotionPiece
    else (false, withGameState g s).
Proof. apply makeMove_withGameState. Qed.

Lemma makeMove_does_not_read_the_status_witness :
  makeMove (withGameState newGame draw) 6 4 4 4 QUEEN
  = if fst (makeMove newGame 6 4 4 4 QUEEN)
    then makeMove newGame 6 4 4 4 QUEEN
    else (false, withGameState newGame draw).
Proof.
  apply (makeMove_does_not_read_the_status newGame draw 6 4 4 4 QUEEN).
  apply boardShapeb_spec. vm_compute. reflexivity.
Defined.

(** ** The opening book and the games it is asked about *)

Section BookLines.
Implicit Types (g : ChessGame) (m : Square * Square) (s t : string).

Lemma append_cons a s t : String a s +:+ t = String a (s +:+ t).
Proof. reflexivity. Qed.

Lemma append_empty s : s +:+ EmptyString = s.
Proof.
  induction s as [|x s IH]; [done|]. rewrite append_cons. by rewrite IH.
Qed.

Lemma append_assoc s t u : (s +:+ t) +:+ u = s +:+ (t +:+ u).
Proof.
  induction s as [|x s IH]; [done|]. rewrite !append_cons. by rewrite IH.
Qed.

Lemma squareName_inj r c r' c' t t' :
  onBoard r c = true -> onBoard r' c' = true ->
  squareName r c +:+ t = squareName r' c' +:+ t' ->
  r = r' /\ c = c' /\ t = t'.
Proof.
  intros Hon Hon' Heq.
  destruct (squareName_decodes r c t Hon) as (Hc & Hr & a & b & Hab).
  destruct (squareName_decodes r' c' t' Hon') as (Hc' & Hr' & a' & b' & Hab').
  rewrite Heq in Hc, Hr. split; [lia|]. split; [lia|].
  rewrite Hab, Hab' in Heq. by injection Heq.
Qed.

Lemma moveName_inj m m' t t' :
  moveOnBoard m -> moveOnBoard m' ->
  moveName m +:+ t = moveName m' +:+ t' -> m = m' /\ t = t'.
Proof.
  destruct m as [[r c] [r2 c2]], m' as [[r' c'] [r2' c2']].
  unfold moveOnBoard, moveName. cbn [fst snd]. intros [H1 H2] [H1' H2'] Heq.
  rewrite !append_assoc in Heq.
  apply squareName_inj in Heq as (-> & -> & Heq); [|done..].
  apply squareName_inj in Heq as (-> & -> & Heq); [|done..].
  done.
Qed.

(** The part of a key that follows the name of its first move. *)
Lemma concat_cons m (ms : list (Square * Square)) :
  String.concat "," (map moveName (m :: ms))
  = moveName m +:+ match ms with
                   | [] => EmptyString
                   | _ => "," +:+ String.concat "," (map moveName ms)
                   end.
Proof. destruct ms; [by rewrite append_empty|done]. Qed.

Lemma moveName_nonempty m t :
  moveOnBoard m -> moveName m +:+ t <> EmptyString.
Proof.
  destruct m as [[r c] sq]. intros [H _]. unfold moveName. cbn [fst snd] in *.
  rewrite append_assoc.
  destruct (squareName_decodes r c (squareName (fst sq) (snd sq) +:+ t) H)
    as (_ & _ & a & b & ->). done.
Qed.

Lemma key_inj (ms ms' : list (Square * Square)) :
  Forall moveOnBoard ms -> Forall moveOnBoard ms' ->
  String.concat "," (map moveName ms) = String.concat "," (map moveName ms') ->
  ms = ms'.
Proof.
  intros Hon. revert ms'. induction Hon as [|m rest Hm Hrest IH];
    intros ms' Hon' Heq.
  - destruct Hon' as [|m' rest' Hm' _]; [done|].
    rewrite concat_cons in Heq. symmetry in Heq.
    by apply moveName_nonempty in Heq.
  - destruct Hon' as [|m' rest' Hm' Hrest'].
    { rewrite concat_cons in Heq. by apply moveName_nonempty in Heq. }
    rewrite !concat_cons in Heq.
    apply moveName_inj in Heq as [-> Heq]; [|done..]. f_equal.
    destruct rest as [|x rest], rest' as [|x' rest']; try done.
    apply IH; [done|]. rewrite append_cons in Heq. by injection Heq.
Qed.

Lemma makeMove_accepted_facts g fromRow fromCol toRow toCol promo g' :
  wellFormed g = true ->
  makeMove g fromRow fromCol toRow toCol promo = (true, g') ->
  wellFormed g' = true
  /\ moveOnBoard ((fromRow, fromCol), (toRow, toCol))
  /\ exists rec,
       moveHistory g' = moveHistory g ++ [rec]
       /\ moveFrom rec = (fromRow, fromCol) /\ moveTo_ rec = (toRow, toCol).
Proof.
  intros Hwf Hm.
  destruct (makeMove_cases g fromRow fromCol toRow toCol promo Hwf)
    as [Hr|(piece & Hp & Hl & Hacc)]; [congruence|].
  rewrite Hacc in Hm. injection Hm as <-.
  destruct (invariants_after_applyMove _ _ _ _ _ _ promo Hwf Hp Hl)
    as (Hs1 & Hp1 & He1).
  destruct (updateGameState_fields _ Hs1)
    as (Hb & _ & Hh & _ & _ & _ & He & _).
  destruct (legal_move_facts _ _ _ _ _ Hwf Hl)
    as (_ & _ & _ & _ & _ & _ & Hfrom & Hto & _).
  split; [|split; [done|]].
  - apply wellFormed_intro; rewrite ?Hb, ?He; try done.
    intros ep H. by apply He1.
  - rewrite Hh.
    destruct (applyMove_scalars g piece fromRow fromCol toRow toCol promo)
      as (_ & _ & _ & _ & rec & H1 & H2 & H3 & _).
    by exists rec.
Qed.

Lemma playAll_history (ms : list (Square * Square)) :
  forall g,
    wellFormed g = true ->
    Forall (fun ok => ok = true) (fst (playAll g ms)) ->
    Forall moveOnBoard ms
    /\ map (fun rec => (moveFrom rec, moveTo_ rec))
           (moveHistory (snd (playAll g ms)))
       = map (fun rec => (moveFrom rec, moveTo_ rec)) (moveHistory g) ++ ms.
Proof.
  induction ms as [|[[fr fc] [tr tc]] rest IH]; intros g Hwf Hall.
  { cbn. by rewrite app_nil_r. }
  cbn [playAll fst snd] in Hall |- *.
  destruct (makeMove g fr fc tr tc QUEEN) as [ok g1] eqn:Hm.
  specialize (IH g1).
  destruct (playAll g1 rest) as [oks g2].
  cbn [fst snd] in *. apply Forall_cons in Hall as [-> Hall].
  destruct (makeMove_accepted_facts _ _ _ _ _ _ _ Hwf Hm)
    as (Hwf1 & Hon & rec & Hh & Hf & Ht).
  destruct (IH Hwf1 Hall) as [Hrest Hmap].
  split; [by constructor|].
  rewrite Hmap, Hh, map_app. cbn [map]. rewrite Hf, Ht.
  by rewrite <- app_assoc.
Qed.

Lemma historyKey_playAll (ms : list (Square * Square)) :
  Forall (fun ok => ok = true) (fst (playAll newGame ms)) ->
  Forall moveOnBoard ms
  /\ historyKey (snd (playAll newGame ms))
     = String.concat "," (map moveName ms).
Proof.
  intros Hall.
  destruct (playAll_history ms newGame eq_refl Hall) as [Hon Hmap].
  split; [done|]. unfold historyKey. f_equal.
  change (moveHistory newGame) with (@nil MoveRecord) in Hmap.
  cbn [map app] in Hmap. revert Hmap.
  generalize (moveHistory (snd (playAll newGame ms))). intros h <-.
  rewrite map_map. reflexivity.
Qed.

Lemma bookLines_onBoard : Forall (Forall moveOnBoard) bookLines.
Proof. repeat constructor. Qed.

Lemma book_key_line key replies :
  bookLookup initializeOpeningBook key = Some replies ->
  exists line, In line bookLines
               /\ key = String.concat "," (map moveName line).
Proof.
  unfold bookLookup, initializeOpeningBook. cbn [List.find fst snd].
  do 8 (try match goal with |- context [String.eqb ?k key] =>
              destruct (String.eqb k key) eqn:?;
                [match goal with H : String.eqb _ key = true |- _ =>
                   apply String.eqb_eq in H; subst key end; intros _|]
            end).
  9: done.
  - exists (nth 0 bookLines []). split; [apply nth_In; cbn; lia|vm_compute; reflexivity].
  - exists (nth 1 bookLines []). split; [apply nth_In; cbn; lia|vm_compute; reflexivity].
  - exists (nth 2 bookLines []). split; [apply nth_In; cbn; lia|vm_compute; reflexivity].
  - exists (nth 3 bookLines []). split; [apply nth_In; cbn; lia|vm_compute; reflexivity].
  - exists (nth 4 bookLines []). split; [apply nth_In; cbn; lia|vm_compute; reflexivity].
  - exists (nth 5 bookLines []). split; [apply nth_In; cbn; lia|vm_compute; reflexivity].
  - exists (nth 6 bookLines []). split; [apply nth_In; cbn; lia|vm_compute; reflexivity].
  - exists (nth 7 bookLines []). split; [apply nth_In; cbn; lia|vm_compute; reflexivity].
Qed.

Lemma getOpeningBookMove_inv random w ai g reply w' :
  getOpeningBookMove random w ai g = (Some reply, w') ->
  exists replies n,
    bookLookup (openingBook ai) (historyKey g) = Some replies
    /\ In n replies
    /\ replyFrom reply = (8 - digitAt n 1, charCodeAt n 0 - 97)
    /\ replyTo reply = (8 - digitAt n 3, charCodeAt n 2 - 97).
Proof.
  unfold getOpeningBookMove.
  destruct (bookLookup (openingBook ai) (historyKey g)) as [[|first others]|];
    [done| |done].
  unfold mathRandom.
  destruct ((first :: others) !! _) as [n|] eqn:Hn; [|done].
  intros [= <- _]. exists (first :: others), n.
  split; [done|]. split; [|done].
  apply list_elem_of_In. by eapply list_elem_of_lookup_2.
Qed.

Lemma book_reply_legal random w ai (ms : list (Square * Square)) reply w' :
  openingBook ai = initializeOpeningBook ->
  Forall (fun ok => ok = true) (fst (playAll newGame ms)) ->
  getOpeningBookMove random w ai (snd (playAll newGame ms))
    = (Some reply, w') ->
  fst (makeMove (snd (playAll newGame ms))
         (fst (replyFrom reply)) (snd (replyFrom reply))
         (fst (replyTo reply)) (snd (replyTo reply)) QUEEN) = true.
Proof.
  intros Hbook Hall Hget.
  destruct (historyKey_playAll ms Hall) as [Hon Hkey].
  apply getOpeningBookMove_inv in Hget
    as (replies & n & Hlook & Hn & -> & ->).
  rewrite Hbook in Hlook. cbn [fst snd].
  destruct (book_key_line _ _ Hlook) as (line & Hin & Hk).
  assert (ms = line) as ->.
  { apply key_inj; [done| |by rewrite <- Hkey].
    pose proof bookLines_onBoard as Hb. rewrite Forall_forall in Hb.
    apply Hb. by apply list_elem_of_In. }
  clear Hall Hon Hkey Hk Hbook.
  cbn [bookLines In] in Hin.
  destruct Hin as [<-|[<-|[<-|[<-|[<-|[<-|[<-|[<-|[]]]]]]]]];
    (vm_compute in Hlook;
     apply (f_equal (fun o => match o with Some l => l | None => [] end))
       in Hlook;
     cbv beta iota in Hlook; subst replies;
     cbn [In] in Hn;
     repeat (destruct Hn as [<-|Hn]; [vm_compute; reflexivity|]);
     destruct Hn).
Qed.

End BookLines.

(** In a game reached from the initial position by accepted moves, a reply
    that [getOpeningBookMove] returns from the engine's own book is a move
    that [makeMove] accepts: the keys of the book are the histories of
    playable lines, a history matches a key only if the game followed that
    line, and every reply listed for a line is legal at its end. *)
Theorem book_replies_are_legal_in_played_games
    random w ai (ms : list (Square * Square)) reply w' :
  openingBook ai = initializeOpeningBook ->
  Forall (fun ok => ok = true) (fst (playAll newGame ms)) ->
  getOpeningBookMove random w ai (snd (playAll newGame ms))
    = (Some reply, w') ->
  fst (makeMove (snd (playAll newGame ms))
         (fst (replyFrom reply)) (snd (replyFrom reply))
         (fst (replyTo reply)) (snd (replyTo reply)) QUEEN) = true.
Proof. apply book_reply_legal. Qed.

Lemma book_replies_are_legal_in_played_games_witness :
  fst (makeMove (snd (playAll newGame [((6, 2), (4, 2))])) 1 4 3 4 QUEEN)
  = true.
Proof.
  apply (book_replies_are_legal_in_played_games drawLow world0
           (newEnhancedAI 5 zeroZobrist) [((6, 2), (4, 2))]
           (mkBookReply (1, 4) (3, 4) (Some PAWN)) (mkWorld 0 1)).
  - reflexivity.
  - vm_compute. repeat constructor.
  - vm_compute. reflexivity.
Defined.
